(** * go-ircbot: the IRC line parser and the synchronized connection

    A shallow embedding of [irc/irc.go] (package [irc]) and the properties
    its specification states about it.  The first part holds the
    definitions: the Go values, the library functions the package calls,
    [ParseMessage] with its closures, the connection with [ReadMsg],
    [Write], [Send] and [Close], and the notions the statements need.  The
    second part holds the lemmas and the stated properties, followed by
    further properties of the parser, of reading, of concurrent senders
    and of the two earlier revisions of the parser that the repository
    keeps.  [Dial] and [DialTLS] only obtain the stream from the network
    and are left out.

    Go values are modelled as follows.
    - A Go [string] is a sequence of bytes: [gostring := list ascii].
    - A Go slice [[]T] is either the nil slice or a sequence of elements.
    - A Go expression that may stop the program with a run-time panic
      (indexing, slicing) is a computation in the [option] monad, where
      [None] stands for the panic.
    - [int] values that the program compares with [-1] and [0] (results of
      [strings.Index]) are kept in [Z]. *)

From Stdlib Require Import ZArith Lia Ascii String.
From stdpp Require Import base tactics option list strings.

Local Open Scope Z_scope.

(** ** Strings, slices, panics *)

Definition gostring := list ascii.

(** String literals of the source are written [str "..."]. *)
Abbreviation str := list_ascii_of_string.

(** A computation that may panic. *)
Definition go (A : Type) : Type := option A.

Definition len (s : gostring) : Z := Z.of_nat (length s).

(** [s[i]]: panics when [i] is out of range. *)
Definition byte_at (s : gostring) (i : Z) : go ascii :=
  if 0 <=? i then s !! Z.to_nat i else None.

(** [s[lo:]]: panics unless [0 <= lo <= len(s)]. *)
Definition slice_from (s : gostring) (lo : Z) : go gostring :=
  if (0 <=? lo) && (lo <=? len s) then Some (drop (Z.to_nat lo) s) else None.

(** [s[:hi]]: panics unless [0 <= hi <= len(s)]. *)
Definition slice_to (s : gostring) (hi : Z) : go gostring :=
  if (0 <=? hi) && (hi <=? len s) then Some (take (Z.to_nat hi) s) else None.

(** [s == ""] *)
Definition is_empty (s : gostring) : bool :=
  match s with [] => true | _ :: _ => false end.

(** A slice value: [Nil] is Go's nil slice, [Slice l] a non-nil slice with
    the elements [l] (possibly none, as in [[]string{}]). *)
Inductive slice (A : Type) : Type :=
| Nil : slice A
| Slice : list A → slice A.
Arguments Nil {A}.
Arguments Slice {A} _.

Definition elems {A} (s : slice A) : list A :=
  match s with Nil => [] | Slice l => l end.

Definition is_nil {A} (s : slice A) : bool :=
  match s with Nil => true | Slice _ => false end.

(** [len(parts)] *)
Definition slice_len {A} (s : slice A) : Z := Z.of_nat (length (elems s)).

(** [parts[i]]: panics when [i] is out of range. *)
Definition slice_at {A} (s : slice A) (i : Z) : go A :=
  if 0 <=? i then elems s !! Z.to_nat i else None.

(** ** The functions of package [strings] used by the parser

    These are modelled from the documented behaviour of the Go standard
    library for a non-empty separator: [irc.go] only ever passes the
    literals [" "], [" :"], ["!"] and ["@"]. *)

(** [strings.HasPrefix(s, p)] *)
Fixpoint HasPrefix (s p : gostring) {struct p} : bool :=
  match p, s with
  | [], _ => true
  | _ :: _, [] => false
  | b :: p', a :: s' => Ascii.eqb a b && HasPrefix s' p'
  end.

(** Position of the first occurrence of [sep] in [s], if any. *)
Fixpoint index_of (s sep : gostring) : option nat :=
  if HasPrefix s sep then Some O
  else match s with
       | [] => None
       | _ :: s' => S <$> index_of s' sep
       end.

(** [strings.Index(s, sep)]: the index of the first instance of [sep] in
    [s], or [-1] if [sep] is not present. *)
Definition Index (s sep : gostring) : Z :=
  match index_of s sep with
  | Some i => Z.of_nat i
  | None => -1
  end.

(** [strings.Count(s, sep)] for a non-empty [sep]: the number of
    non-overlapping instances.  The library loops until [Index] fails; each
    round consumes at least one byte, so [length s] rounds are enough. *)
Fixpoint Count_loop (fuel : nat) (s sep : gostring) : nat :=
  match fuel with
  | O => O
  | S fuel' =>
      match index_of s sep with
      | None => O
      | Some i => S (Count_loop fuel' (drop (i + length sep)%nat s) sep)
      end
  end.

Definition Count (s sep : gostring) : nat := Count_loop (length s) s sep.

(** The loop of the library's [genSplit]: at most [n] cuts, each at the
    first instance of [sep] in what is left; the last piece is the
    unsplit remainder. *)
Fixpoint genSplit (n : nat) (s sep : gostring) : list gostring :=
  match n with
  | O => [s]
  | S n' =>
      match index_of s sep with
      | None => [s]
      | Some m => take m s :: genSplit n' (drop (m + length sep)%nat s) sep
      end
  end.

(** [strings.SplitN(s, sep, n)]: [n == 0] gives nil, [n < 0] all pieces,
    [n > 0] at most [n] pieces. *)
Definition SplitN (s sep : gostring) (n : Z) : slice gostring :=
  if n =? 0 then Nil
  else if n <? 0 then Slice (genSplit (Count s sep) s sep)
  else Slice (genSplit (Z.to_nat (n - 1)) s sep).

(** [strings.Split(s, sep)] is [SplitN] with a count of [-1]. *)
Definition Split (s sep : gostring) : slice gostring := SplitN s sep (-1).

(** ** The data model of [irc.go] *)

(** [type Prefix struct { Name, User, Host string }] *)
Record Prefix : Type := mkPrefix {
  Name : gostring;
  User : gostring;
  Host : gostring
}.

(** [new(Prefix)]: all fields hold the zero value, the empty string. *)
Definition new_Prefix : Prefix := mkPrefix [] [] [].

(** Field assignments [prefix.Name = v], [prefix.User = v],
    [prefix.Host = v]. *)
Definition set_Name (p : Prefix) (v : gostring) : Prefix :=
  mkPrefix v (User p) (Host p).
Definition set_User (p : Prefix) (v : gostring) : Prefix :=
  mkPrefix (Name p) v (Host p).
Definition set_Host (p : Prefix) (v : gostring) : Prefix :=
  mkPrefix (Name p) (User p) v.

(** [type Message struct { Command string; Params []string;
    Prefix *Prefix; Raw string; Txt string }].  The field [Prefix] is a
    pointer: [None] is the nil pointer, [Some p] points to the value [p].
    (The field is called [MsgPrefix] here, [Prefix] being the type.) *)
Record Message : Type := mkMessage {
  Command : gostring;
  Params : slice gostring;
  MsgPrefix : option Prefix;
  Raw : gostring;
  Txt : gostring
}.

(** ** [ParseMessage] and its local closures *)

(** [split2]: cut [s] at the first [sep]. *)
Definition split2 (s sep : gostring) : go (gostring * gostring) :=
  let parts := SplitN s sep 2 in
  if slice_len parts =? 2 then
    p0 ← slice_at parts 0;
    p1 ← slice_at parts 1;
    Some (p0, p1)
  else
    p0 ← slice_at parts 0;
    Some (p0, []).

(** [l == "" || l[0] != ':'], evaluated left to right. *)
Definition no_leading_colon (l : gostring) : go bool :=
  if is_empty l then Some true
  else c ← byte_at l 0; Some (negb (Ascii.eqb c ":"%char)).

(** [l == "" || l[0] == ':'] *)
Definition empty_or_colon (l : gostring) : go bool :=
  if is_empty l then Some true
  else c ← byte_at l 0; Some (Ascii.eqb c ":"%char).

(** [l != "" && l[0] == ':'] *)
Definition leading_colon (l : gostring) : go bool :=
  if negb (is_empty l) then c ← byte_at l 0; Some (Ascii.eqb c ":"%char)
  else Some false.

Definition parsePrefix (l : gostring) : go (Prefix * gostring) :=
  let prefix := new_Prefix in
  b ← no_leading_colon l;
  if b : bool then Some (prefix, l)
  else
    l1 ← slice_from l 1;
    '(head, tail) ← split2 l1 (str " ");
    let user := Index head (str "!") in
    let host := Index head (str "@") in
    '(prefix, head) ←
      (if host >? user then
         h ← slice_from head (host + 1);
         head' ← slice_to head host;
         Some (set_Host prefix h, head')
       else Some (prefix, head));
    '(prefix, head) ←
      (if user >? 0 then
         u ← slice_from head (user + 1);
         head' ← slice_to head user;
         Some (set_User prefix u, head')
       else Some (prefix, head));
    Some (set_Name prefix head, tail).

Definition parseCommand (l : gostring) : go (gostring * gostring) :=
  split2 l (str " ").

Definition parseParams (l : gostring) : go (slice gostring * gostring) :=
  b ← empty_or_colon l;
  if b : bool then Some (Slice [], l)
  else
    '(head, tail) ← split2 l (str " :");
    Some (Split head (str " "), tail).

(** [msg := &Message{Raw: l}] followed by the four assignments; the record
    is built once all fields are known. *)
Definition ParseMessage (l : gostring) : go Message :=
  let raw := l in
  '(prefix, l) ← parsePrefix l;
  '(command, l) ← parseCommand l;
  '(params, l) ← parseParams l;
  b ← leading_colon l;
  l ← (if b : bool then slice_from l 1 else Some l);
  Some {| Command := command; Params := params; MsgPrefix := Some prefix;
          Raw := raw; Txt := l |}.

(** ** Panic-free closed forms of the parser's stages

    These definitions restate the closures of [ParseMessage] without the
    option monad; the lemmas of the second part prove that the parser
    computes exactly them, so that no indexing or slicing operation of
    [ParseMessage] can go out of range. *)

(** What [split2] returns: the text before and after the first [sep], or
    the whole text and the empty string when there is no [sep]. *)
Definition cut (s sep : gostring) : gostring * gostring :=
  match index_of s sep with
  | Some m => (take m s, drop (m + length sep) s)
  | None => (s, [])
  end.

(** The decomposition of a prefix body into name, user and host. *)
Definition decompose (head : gostring) : Prefix :=
  let user := Index head (str "!") in
  let host := Index head (str "@") in
  let '(h, head1) :=
    if host >? user
    then (drop (Z.to_nat (host + 1)) head, take (Z.to_nat host) head)
    else ([], head) in
  let '(u, head2) :=
    if user >? 0
    then (drop (Z.to_nat (user + 1)) head1, take (Z.to_nat user) head1)
    else ([], head1) in
  mkPrefix head2 u h.

(** The test [l == "" || l[0] == ':'] of [parseParams]. *)
Definition no_params (l : gostring) : bool :=
  is_empty l || HasPrefix l (str ":").

(** The last stage: [if l != "" && l[0] == ':' { l = l[1:] }]. *)
Definition strip_colon (l : gostring) : gostring :=
  if HasPrefix l (str ":") then drop 1 l else l.

(** The prefix stage: the prefix and what is left of the line. *)
Definition parse_prefix (l : gostring) : Prefix * gostring :=
  if HasPrefix l (str ":")
  then (decompose (cut (drop 1 l) (str " ")).1, (cut (drop 1 l) (str " ")).2)
  else (new_Prefix, l).

(** The params and text stages, on what follows the command. *)
Definition parse_params_text (l2 : gostring) : slice gostring * gostring :=
  if no_params l2 then (Slice [], strip_colon l2)
  else (Split (cut l2 (str " :")).1 (str " "),
        strip_colon (cut l2 (str " :")).2).

(** The whole parser without its panics: prefix, command, params, text. *)
Definition parse (l : gostring) : Message :=
  let '(prefix, l1) := parse_prefix l in
  let '(command, l2) := cut l1 (str " ") in
  let '(params, txt) := parse_params_text l2 in
  {| Command := command; Params := params; MsgPrefix := Some prefix;
     Raw := l; Txt := txt |}.

(** ** Bytes and lines used in the statements *)

Definition CR : ascii := ascii_of_nat 13.
Definition LF : ascii := ascii_of_nat 10.

(** The line terminator, ["\r\n"]. *)
Definition crlf : gostring := [CR; LF].

(** ** Re-serialization of a parsed message, as the specification words it

    [[":" prefix.name ["!" prefix.user] ["@" prefix.host] " "] command
     [" " params joined by space] [" :" text]], each optional part being
    written exactly when it is non-empty.  The prefix part counts as
    non-empty when one of its three fields is; the params part when the
    sequence has at least one element. *)

(** [strings.Join(elems, sep)] *)
Fixpoint Join (es : list gostring) (sep : gostring) : gostring :=
  match es with
  | [] => []
  | [e] => e
  | e :: es' => e ++ sep ++ Join es' sep
  end.

Definition prefix_is_zero (p : Prefix) : bool :=
  is_empty (Name p) && is_empty (User p) && is_empty (Host p).

Definition serialize_body (p : Prefix) : gostring :=
  Name p
  ++ (if is_empty (User p) then [] else str "!" ++ User p)
  ++ (if is_empty (Host p) then [] else str "@" ++ Host p).

Definition serialize_prefix (p : option Prefix) : gostring :=
  match p with
  | None => []
  | Some p =>
      if prefix_is_zero p then [] else str ":" ++ serialize_body p ++ str " "
  end.

Definition serialize_params (ps : slice gostring) : gostring :=
  match elems ps with
  | [] => []
  | _ :: _ => str " " ++ Join (elems ps) (str " ")
  end.

Definition serialize_text (t : gostring) : gostring :=
  if is_empty t then [] else str " :" ++ t.

Definition serialize (m : Message) : gostring :=
  serialize_prefix (MsgPrefix m) ++ Command m
  ++ serialize_params (Params m) ++ serialize_text (Txt m).

(** Two messages agree on command, params, prefix and text. *)
Definition same_fields (m1 m2 : Message) : Prop :=
  Command m1 = Command m2 ∧ Params m1 = Params m2 ∧
  MsgPrefix m1 = MsgPrefix m2 ∧ Txt m1 = Txt m2.

(** The shapes of a prefix body, by where its first ['!'] and first ['@']
    stand, each with the name, user and host that belong to it. *)
Inductive body_shape : gostring → Prefix → Prop :=
| shape_plain s :
    "!"%char ∉ s → "@"%char ∉ s → body_shape s (mkPrefix s [] [])
| shape_bang a b :
    a ≠ [] → "!"%char ∉ a → ("@"%char ∈ a ∨ "@"%char ∉ b) →
    body_shape (a ++ "!"%char :: b) (mkPrefix a b [])
| shape_bang_first s :
    "@"%char ∉ s → body_shape ("!"%char :: s) (mkPrefix ("!"%char :: s) [] [])
| shape_at a b :
    "!"%char ∉ a → "@"%char ∉ a → "!"%char ∉ b →
    body_shape (a ++ "@"%char :: b) (mkPrefix a [] b)
| shape_bang_at a b1 b2 :
    a ≠ [] → "!"%char ∉ a → "@"%char ∉ a → "@"%char ∉ b1 →
    body_shape (a ++ "!"%char :: b1 ++ "@"%char :: b2) (mkPrefix a b1 b2)
| shape_bang_first_at b1 b2 :
    "@"%char ∉ b1 →
    body_shape ("!"%char :: b1 ++ "@"%char :: b2)
               (mkPrefix ("!"%char :: b1) [] b2).

(** ** Conditions under which the re-serialization parses back

    [prefix_wf]: an empty user is not hiding a separator, that is, when
    the user is empty either the name itself holds the ['!'] (the body
    started with it), or the name has no ['@'] and the host no ['!'].
    [message_wf] adds: with params present the text does not start with a
    colon; the params are not the single empty string with an empty text;
    with an all-empty prefix the command does not start with a colon. *)

Definition prefix_wf (p : Prefix) : Prop :=
  User p = [] →
  "!"%char ∈ Name p ∨ (("!"%char ∉ Host p) ∧ ("@"%char ∉ Name p)).

Definition message_wf (m : Message) : Prop :=
  (elems (Params m) ≠ [] → HasPrefix (Txt m) (str ":") = false) ∧
  ¬ (elems (Params m) = [[]] ∧ Txt m = []) ∧
  (∀ p, MsgPrefix m = Some p →
        prefix_wf p ∧
        (prefix_is_zero p = true → HasPrefix (Command m) (str ":") = false)).

(** ** The byte stream and the buffered reader

    [io.ReadWriteCloser] is an interface; the connection works with any
    implementation.  An implementation is a state type [St] with the three
    methods as state transformers.  [rwc_Read n] stands for [Read(p)] with
    [len(p) = n] and returns the bytes stored into [p]. *)

Inductive error : Type :=
| EOF               (* io.EOF *)
| ErrNoProgress     (* io.ErrNoProgress *)
| ErrClosed         (* use of a closed stream *)
| ErrOther (msg : gostring).

Class ReadWriteCloser (St : Type) : Type := {
  rwc_Read : nat → St → (gostring * option error) * St;
  rwc_Write : gostring → St → (Z * option error) * St;
  rwc_Close : St → option error * St
}.

(** [bufio.Reader], modelled from the documented behaviour of the Go
    standard library: the bytes read from the stream and not yet handed
    out ([b.buf[b.r:b.w]]) and the pending read error ([b.err]). *)
Record Reader : Type := mkReader {
  rd_buf : gostring;
  rd_err : option error
}.

Definition defaultBufSize : nat := 4096.
Definition maxConsecutiveEmptyReads : nat := 100.

(** [bufio.NewReader(rwc)] *)
Definition NewReader : Reader := mkReader [] None.

(** [b.fill()]: reads once into the free space of the buffer; retries, up
    to [maxConsecutiveEmptyReads] times, while the stream returns neither
    bytes nor an error. *)
Fixpoint fill_loop {St} `{ReadWriteCloser St} (i : nat) (b : Reader) (σ : St)
  : Reader * St :=
  match i with
  | O => (mkReader (rd_buf b) (Some ErrNoProgress), σ)
  | S i' =>
      let '((bs, err), σ') := rwc_Read (defaultBufSize - length (rd_buf b)) σ in
      let b' := mkReader (rd_buf b ++ bs) (rd_err b) in
      match err with
      | Some e => (mkReader (rd_buf b') (Some e), σ')
      | None => if is_empty bs then fill_loop i' b' σ' else (b', σ')
      end
  end.

Definition fill {St} `{ReadWriteCloser St} (b : Reader) (σ : St)
  : Reader * St :=
  fill_loop maxConsecutiveEmptyReads b σ.

(** [b.ReadString(delim)]: the bytes up to and including the first
    [delim]; on an error before a [delim], the bytes read so far and the
    error.  [acc] holds the full buffers collected so far.  One round of
    the loop is one round of the library's [ReadSlice] loop; the result is
    [None] when [fuel] rounds were not enough. *)
Fixpoint ReadString_loop {St} `{ReadWriteCloser St} (fuel : nat) (delim : ascii)
    (acc : gostring) (b : Reader) (σ : St)
  : option ((gostring * option error) * Reader * St) :=
  match fuel with
  | O => None
  | S fuel' =>
      match index_of (rd_buf b) [delim] with
      | Some i =>
          Some ((acc ++ take (i + 1) (rd_buf b), None),
                mkReader (drop (i + 1) (rd_buf b)) (rd_err b), σ)
      | None =>
          match rd_err b with
          | Some e => Some ((acc ++ rd_buf b, Some e), mkReader [] None, σ)
          | None =>
              if (defaultBufSize <=? length (rd_buf b))%nat
              then ReadString_loop fuel' delim (acc ++ rd_buf b)
                     (mkReader [] None) σ
              else let '(b', σ') := fill b σ in
                   ReadString_loop fuel' delim acc b' σ'
          end
      end
  end.

Definition ReadString {St} `{ReadWriteCloser St} (fuel : nat) (delim : ascii)
    (b : Reader) (σ : St) :=
  ReadString_loop fuel delim [] b σ.

(** ** The connection *)

(** [type Conn struct { rwc io.ReadWriteCloser; reader *bufio.Reader;
    rl sync.Mutex; wl sync.Mutex }].  A mutex is [true] while held. *)
Record Conn (St : Type) : Type := mkConn {
  rwc : St;
  reader : Reader;
  rl : bool;
  wl : bool
}.
Arguments mkConn {St} _ _ _ _.
Arguments rwc {St} _.
Arguments reader {St} _.
Arguments rl {St} _.
Arguments wl {St} _.

(** What a method call made by a single caller comes to. *)
Inductive outcome (A : Type) : Type :=
| Returned (a : A)   (* the call returns *)
| Blocked            (* the call waits for a mutex that is held *)
| Pending            (* the call is still reading when the fuel runs out *)
| Panicked.          (* the call panics *)
Arguments Returned {A} _.
Arguments Blocked {A}.
Arguments Pending {A}.
Arguments Panicked {A}.

(** [NewConn(rwc)] *)
Definition NewConn {St} (σ : St) : Conn St := mkConn σ NewReader false false.

(** [ReadMsg]: takes the read lock, reads up to the next line feed,
    releases the lock on the way out, parses the line. *)
Definition ReadMsg {St} `{ReadWriteCloser St} (fuel : nat) (c : Conn St)
  : outcome ((option Message * option error) * Conn St) :=
  if rl c then Blocked
  else
    match ReadString fuel LF (reader c) (rwc c) with
    | None => Pending
    | Some ((l, err), b', σ') =>
        let c' := mkConn σ' b' false (wl c) in
        match err with
        | Some e => Returned ((None, Some e), c')
        | None =>
            match ParseMessage l with
            | Some m => Returned ((Some m, None), c')
            | None => Panicked
            end
        end
    end.

(** [Write]: takes the write lock, hands the bytes to the stream,
    releases the lock on the way out. *)
Definition Write {St} `{ReadWriteCloser St} (c : Conn St) (msg : gostring)
  : outcome ((Z * option error) * Conn St) :=
  if wl c then Blocked
  else
    let '(res, σ') := rwc_Write msg (rwc c) in
    Returned (res, mkConn σ' (reader c) (rl c) false).

(** [Send]: [_, err := c.Write([]byte(l + "\r\n")); return err] *)
Definition Send {St} `{ReadWriteCloser St} (c : Conn St) (l : gostring)
  : outcome (option error * Conn St) :=
  match Write c (l ++ crlf) with
  | Returned ((_, err), c') => Returned (err, c')
  | Blocked => Blocked
  | Pending => Pending
  | Panicked => Panicked
  end.

(** [Close]: [return c.rwc.Close()] *)
Definition Close {St} `{ReadWriteCloser St} (c : Conn St)
  : option error * Conn St :=
  let '(err, σ') := rwc_Close (rwc c) in
  (err, mkConn σ' (reader c) (rl c) (wl c)).

(** ** A test double for the stream

    A scripted stream: [incoming] lists the chunks that successive reads
    deliver, [written] records the chunks handed to [Write], and once
    [closed] every operation fails. *)
Record script : Type := mkScript {
  incoming : list gostring;
  written : list gostring;
  closed : bool
}.

Definition script_Read (n : nat) (σ : script)
  : (gostring * option error) * script :=
  if closed σ then (([], Some ErrClosed), σ)
  else
    match incoming σ with
    | [] => (([], Some EOF), σ)
    | chunk :: rest =>
        ((take n chunk, None),
         mkScript (if is_empty (drop n chunk) then rest
                   else drop n chunk :: rest)
                  (written σ) (closed σ))
    end.

Definition script_Write (msg : gostring) (σ : script)
  : (Z * option error) * script :=
  if closed σ then ((0, Some ErrClosed), σ)
  else ((len msg, None),
        mkScript (incoming σ) (written σ ++ [msg]) (closed σ)).

Definition script_Close (σ : script) : option error * script :=
  if closed σ then (Some ErrClosed, σ)
  else (None, mkScript (incoming σ) (written σ) true).

#[export] Instance script_rwc : ReadWriteCloser script := {
  rwc_Read := script_Read;
  rwc_Write := script_Write;
  rwc_Close := script_Close
}.

(** A connection between two calls of a single caller, on a closed
    stream: both locks are free and the stream is closed. *)
Definition closed_conn {St} (is_closed : St → Prop) (c : Conn St) : Prop :=
  is_closed (rwc c) ∧ rl c = false ∧ wl c = false.

(** ** Concurrent senders

    Several goroutines call [c.Send] on one connection.  Each of them runs
    [Write]: it calls [c.wl.Lock()], then lets the stream take the bytes of
    [l + "\r\n"], then runs the deferred [c.wl.Unlock()].  The scheduler
    may switch goroutines between any two of these steps, and the stream
    takes the bytes of a call one at a time, so that nothing but the
    mutex keeps the bytes of two calls apart on the wire. *)

(** [l + "\r\n"] *)
Definition terminated (l : gostring) : gostring := l ++ crlf.

(** Where a goroutine stands in its call of [Send]. *)
Inductive sender : Type :=
| Waiting (msg : gostring)    (* before [c.wl.Lock()], with the bytes to write *)
| Writing (todo : gostring)   (* inside [c.rwc.Write], these bytes still to go *)
| Finished.                   (* after [c.wl.Unlock()] *)

(** The shared state: the write mutex, the bytes on the wire so far, and
    the goroutines. *)
Record world : Type := mkWorld {
  w_wl : bool;
  wire : gostring;
  senders : list sender
}.

Definition start (lines : list gostring) : world :=
  mkWorld false [] (map (λ l, Waiting (terminated l)) lines).

(** Goroutine [i] is scheduled for one step.  [Lock] on a held mutex does
    not proceed; a finished goroutine has nothing left to do. *)
Definition sched_step (w : world) (i : nat) : world :=
  match senders w !! i with
  | Some (Waiting msg) =>
      if w_wl w then w
      else mkWorld true (wire w) (<[i := Writing msg]> (senders w))
  | Some (Writing (b :: todo)) =>
      mkWorld (w_wl w) (wire w ++ [b]) (<[i := Writing todo]> (senders w))
  | Some (Writing []) =>
      mkWorld false (wire w) (<[i := Finished]> (senders w))
  | Some Finished | None => w
  end.

(** A run under a schedule, the list of the goroutines scheduled in turn. *)
Definition run (sched : list nat) (w : world) : world :=
  foldl sched_step w sched.

Definition is_Finished (s : sender) : bool :=
  match s with Finished => true | _ => false end.

Definition all_finished (w : world) : bool := forallb is_Finished (senders w).

(** The schedule that lets each of [n] goroutines run its call to the end
    before the next one starts; a call of [k] bytes takes [k + 2] steps. *)
Fixpoint one_by_one (i : nat) (lines : list gostring) : list nat :=
  match lines with
  | [] => []
  | l :: lines' =>
      replicate (length (terminated l) + 2) i ++ one_by_one (S i) lines'
  end.

(** The same goroutines with the locking left out of [Write]: used only to
    show that the bytes of two calls can then be interleaved. *)
Definition sched_step_unlocked (w : world) (i : nat) : world :=
  match senders w !! i with
  | Some (Waiting msg) =>
      mkWorld (w_wl w) (wire w) (<[i := Writing msg]> (senders w))
  | Some (Writing (b :: todo)) =>
      mkWorld (w_wl w) (wire w ++ [b]) (<[i := Writing todo]> (senders w))
  | Some (Writing []) =>
      mkWorld (w_wl w) (wire w) (<[i := Finished]> (senders w))
  | Some Finished | None => w
  end.

(** The state of the goroutines as the invariant of a run sees it:
    [order] lists the goroutines that have finished, in the order in which
    they held the mutex. *)
Definition line_of (lines : list gostring) (j : nat) : gostring :=
  default ([] : gostring) (lines !! j).

Definition wire_of (lines : list gostring) (order : list nat) : gostring :=
  concat (map (λ j, terminated (line_of lines j)) order).

Record run_inv (lines : list gostring) (w : world) (order : list nat)
    (pre : gostring) : Prop := mkRunInv {
  inv_length : length (senders w) = length lines;
  inv_nodup : NoDup order;
  inv_order : ∀ j, j ∈ order ↔ senders w !! j = Some Finished;
  inv_waiting : ∀ j m, senders w !! j = Some (Waiting m) →
                       m = terminated (line_of lines j);
  inv_wire : wire w = wire_of lines order ++ pre;
  inv_lock :
    if w_wl w
    then ∃ i todo, senders w !! i = Some (Writing todo) ∧
                   terminated (line_of lines i) = pre ++ todo ∧
                   ∀ j todo', senders w !! j = Some (Writing todo') → j = i
    else pre = [] ∧ ∀ j todo, senders w !! j ≠ Some (Writing todo)
}.

(** ** The first revision of the parser

    The repository also keeps the first revision of [ParseMessage], in
    which the prefix is one string next to a [User] field and the line is
    indexed without the emptiness guards of [irc/irc.go].  It is embedded
    here to make the differences explicit; the properties of the second
    part are those of [irc/irc.go]. *)

(** [s[lo:hi]]: panics unless [0 <= lo <= hi <= len(s)]. *)
Definition slice_range (s : gostring) (lo hi : Z) : go gostring :=
  if (0 <=? lo) && (lo <=? hi) && (hi <=? len s)
  then Some (take (Z.to_nat (hi - lo)) (drop (Z.to_nat lo) s))
  else None.

Module Legacy.

(** [type Message struct { Command string; Params []string;
    Prefix string; Raw string; User string; Txt string }] *)
Record Message : Type := mkMessage {
  Command : gostring;
  Params : slice gostring;
  Prefix : gostring;
  Raw : gostring;
  User : gostring;
  Txt : gostring
}.

(** The prefix block: [if l[0] == ':' { ... }]; gives the prefix, the
    user and what is left of the line. *)
Definition parse_head (l : gostring)
  : go (gostring * gostring * gostring) :=
  c ← byte_at l 0;
  if Ascii.eqb c ":"%char then
    let i := Index l (str " ") in
    '(prefix, l) ←
      (if i >? -1 then
         p ← slice_range l 1 i;
         l' ← slice_range l (i + 1) (len l);
         Some (p, l')
       else Some ([], l));
    let i := Index prefix (str "!") in
    user ←
      (if i >? -1
       then slice_range prefix (i + 1) (Index prefix (str "@"))
       else Some []);
    Some (prefix, user, l)
  else Some ([], [], l).

(** The text block: [if len(l) > 0 { if l[0] == ':' && len(l) > 1
    { msg.Txt = l[1:] } else { msg.Txt = l } }]. *)
Definition parse_text (l : gostring) : go gostring :=
  if len l >? 0 then
    c ← byte_at l 0;
    if Ascii.eqb c ":"%char && (len l >? 1) then slice_from l 1
    else Some l
  else Some [].

Definition ParseMessage (l : gostring) : go Message :=
  let raw := l in
  '(prefix, user, l) ← parse_head l;
  let parts := SplitN l (str " ") 2 in
  command ← slice_at parts 0;
  if slice_len parts =? 1 then
    Some (mkMessage command Nil prefix raw user [])
  else
    l ← slice_at parts 1;
    c ← byte_at l 0;
    if negb (Ascii.eqb c ":"%char) then
      let parts := SplitN l (str " :") 2 in
      p0 ← slice_at parts 0;
      let params := Split p0 (str " ") in
      if slice_len parts =? 1 then
        Some (mkMessage command params prefix raw user [])
      else
        l ← slice_at parts 1;
        txt ← parse_text l;
        Some (mkMessage command params prefix raw user txt)
    else
      txt ← parse_text l;
      Some (mkMessage command Nil prefix raw user txt).

End Legacy.

(** ** Well-formed messages

    A message whose fields hold no separator of the line format: the
    command and the params hold no space, the prefix fields none of
    [' '], ['!'], ['@'], a user comes with a name, no param but the text
    starts with a colon, and what the format would drop is not there (no
    single empty param with an empty text, no colon at the start of a
    command that stands first in the line). *)
Definition sep_free (s : gostring) : Prop :=
  (" "%char ∉ s) ∧ ("!"%char ∉ s) ∧ ("@"%char ∉ s).

Definition well_formed_prefix (p : Prefix) : Prop :=
  sep_free (Name p) ∧ sep_free (User p) ∧ sep_free (Host p) ∧
  (User p ≠ [] → Name p ≠ []).

Definition well_formed (m : Message) : Prop :=
  (∃ p, MsgPrefix m = Some p ∧ well_formed_prefix p ∧
        (prefix_is_zero p = true → HasPrefix (Command m) (str ":") = false)) ∧
  (" "%char ∉ Command m) ∧
  (∃ ps, Params m = Slice ps ∧
         Forall (λ x, (" "%char ∉ x) ∧ HasPrefix x (str ":") = false) ps ∧
         ¬ (ps = [[]] ∧ Txt m = []) ∧
         (ps ≠ [] → HasPrefix (Txt m) (str ":") = false)).

(** ** A second test double

    A stream with one canned reply: every read returns the first bytes of
    [reply_bytes] that fit, together with [reply_err]; every write is
    accepted and [Close] succeeds. *)
Record canned : Type := mkCanned {
  reply_bytes : gostring;
  reply_err : option error
}.

#[export] Instance canned_rwc : ReadWriteCloser canned := {
  rwc_Read := λ n σ, ((take n (reply_bytes σ), reply_err σ), σ);
  rwc_Write := λ msg σ, ((len msg, None), σ);
  rwc_Close := λ σ, (None, σ)
}.

(** ** The work left in a run

    The steps a goroutine still has to take before its call of [Send]
    returns: one to lock, one for each byte, one to unlock. *)
Definition steps_left (s : sender) : nat :=
  match s with
  | Waiting msg => length msg + 2
  | Writing todo => length todo + 1
  | Finished => 0
  end.

Definition remaining (w : world) : nat :=
  sum_list (steps_left <$> senders w).

(** ** The second revision of the parser

    Between the first revision and [irc/irc.go] the repository keeps a
    revision whose [ParseMessage] already has the four closures, but
    whose prefix is one string: [parsePrefix] returns the first word of
    the line without its colon, and nothing sets the [User] field.  The
    closures [split2], [parseCommand] and [parseParams] and the last
    stage read as in [irc/irc.go] and are shared with it here. *)
Module Rev2.

(** [type Message struct { Command string; Params []string;
    Prefix string; Raw string; User string; Txt string }] *)
Record Message : Type := mkMessage {
  Command : gostring;
  Params : slice gostring;
  Prefix : gostring;
  Raw : gostring;
  User : gostring;
  Txt : gostring
}.

(** [if l == "" || l[0] != ':' { return "", l };
     head, tail = split2(l, " "); return head[1:], tail] *)
Definition parsePrefix (l : gostring) : go (gostring * gostring) :=
  b ← no_leading_colon l;
  if b : bool then Some ([], l)
  else
    '(head, tail) ← split2 l (str " ");
    head' ← slice_from head 1;
    Some (head', tail).

Definition ParseMessage (l : gostring) : go Message :=
  let raw := l in
  '(prefix, l) ← parsePrefix l;
  '(command, l) ← parseCommand l;
  '(params, l) ← parseParams l;
  b ← leading_colon l;
  l ← (if b : bool then slice_from l 1 else Some l);
  Some {| Command := command; Params := params; Prefix := prefix;
          Raw := raw; User := []; Txt := l |}.

End Rev2.

(** ** The first revision after its prefix block

    What the first revision does with the line [l] that its prefix block
    leaves, written with [cut]; [None] is the panic of [l[0]] on an empty
    string.  The lemmas of the second part prove that the first revision
    computes exactly this. *)
Definition legacy_text (l : gostring) : gostring :=
  if HasPrefix l (str ":") && negb (is_empty (drop 1 l)) then drop 1 l else l.

Definition legacy_body (prefix user raw l : gostring) : go Legacy.Message :=
  match index_of l (str " ") with
  | None => Some (Legacy.mkMessage l Nil prefix raw user [])
  | Some _ =>
      let '(command, l2) := cut l (str " ") in
      if is_empty l2 then None
      else if HasPrefix l2 (str ":")
      then Some (Legacy.mkMessage command Nil prefix raw user (legacy_text l2))
      else
        match index_of l2 (str " :") with
        | None =>
            Some (Legacy.mkMessage command (Split l2 (str " ")) prefix raw
                    user [])
        | Some _ =>
            Some (Legacy.mkMessage command
                    (Split (cut l2 (str " :")).1 (str " ")) prefix raw user
                    (legacy_text (cut l2 (str " :")).2))
        end
  end.

(** * Properties of the string functions *)

Lemma HasPrefix_true (s p : gostring) :
  HasPrefix s p = true ↔ ∃ r, s = p ++ r.
Proof.
  revert s. induction p as [|b p IH]; intros s; simpl.
  - split; [intros _; by exists s | reflexivity].
  - destruct s as [|a s].
    + split; [done | intros [r Hr]; discriminate].
    + rewrite andb_true_iff, IH. split.
      * intros [Hab [r ->]]. apply Ascii.eqb_eq in Hab as ->. by exists r.
      * intros [r Hr]. simplify_eq. split; [apply Ascii.eqb_refl | by exists r].
Qed.

Lemma index_of_cons (a : ascii) (s sep : gostring) :
  index_of (a :: s) sep =
  if HasPrefix (a :: s) sep then Some O else S <$> index_of s sep.
Proof. reflexivity. Qed.

Lemma index_of_bound (s sep : gostring) (m : nat) :
  index_of s sep = Some m → (m + length sep ≤ length s)%nat.
Proof.
  revert m. induction s as [|a s IH]; intros m; simpl.
  - destruct (HasPrefix [] sep) eqn:Hp; [|done].
    intros [= <-]. apply HasPrefix_true in Hp as [r Hr].
    destruct sep; [simpl; lia | discriminate].
  - destruct (HasPrefix (a :: s) sep) eqn:Hp.
    + intros [= <-]. apply HasPrefix_true in Hp as [r Hr].
      apply (f_equal length) in Hr. rewrite length_app in Hr.
      simpl in *. lia.
    + destruct (index_of s sep) as [k|] eqn:Hk; [|done].
      intros [= <-]. specialize (IH k eq_refl). simpl. lia.
Qed.

Lemma index_of_split (s sep : gostring) (m : nat) :
  index_of s sep = Some m →
  s = take m s ++ sep ++ drop (m + length sep) s.
Proof.
  revert m. induction s as [|a s IH]; intros m; simpl.
  - destruct (HasPrefix [] sep) eqn:Hp; [|done].
    intros [= <-]. apply HasPrefix_true in Hp as [r Hr].
    destruct sep; [done | discriminate].
  - destruct (HasPrefix (a :: s) sep) eqn:Hp.
    + intros [= <-]. apply HasPrefix_true in Hp as [r Hr].
      rewrite Hr. simpl. by rewrite drop_app_length.
    + destruct (index_of s sep) as [k|] eqn:Hk; [|done].
      intros [= <-]. simpl. f_equal. by apply IH.
Qed.

Lemma Index_lower (s sep : gostring) : -1 ≤ Index s sep.
Proof. unfold Index. destruct (index_of s sep); lia. Qed.

Lemma Index_upper (s sep : gostring) :
  0 ≤ Index s sep → Index s sep + len sep ≤ len s.
Proof.
  unfold Index, len. destruct (index_of s sep) as [m|] eqn:Hm; [|lia].
  intros _. apply index_of_bound in Hm. lia.
Qed.

(** ** Single-byte separators *)

Lemma index_of_byte_notin (c : ascii) (s : gostring) :
  c ∉ s → index_of s [c] = None.
Proof.
  induction s as [|a s IH]; intros Hc; simpl; [done|].
  apply not_elem_of_cons in Hc as [Hne Hc].
  destruct (Ascii.eqb_spec a c) as [->|_]; [done|].
  simpl. by rewrite IH.
Qed.

Lemma index_of_byte_app (c : ascii) (a b : gostring) :
  c ∉ a → index_of (a ++ c :: b) [c] = Some (length a).
Proof.
  induction a as [|x a IH]; intros Hc; simpl.
  - by rewrite Ascii.eqb_refl.
  - apply not_elem_of_cons in Hc as [Hne Hc].
    destruct (Ascii.eqb_spec x c) as [->|_]; [done|].
    simpl. by rewrite IH.
Qed.

Lemma index_of_byte_cases (c : ascii) (s : gostring) :
  c ∉ s ∨ ∃ a b, s = a ++ c :: b ∧ c ∉ a.
Proof.
  destruct (decide (c ∈ s)) as [Hin|Hnin]; [right|by left].
  apply list_elem_of_split_l in Hin as (a & b & -> & Hc). eauto.
Qed.

Lemma Index_byte_notin (c : ascii) (s : gostring) :
  c ∉ s → Index s [c] = -1.
Proof. intros Hc. unfold Index. by rewrite index_of_byte_notin. Qed.

Lemma Index_byte_app (c : ascii) (a b : gostring) :
  c ∉ a → Index (a ++ c :: b) [c] = len a.
Proof. intros Hc. unfold Index. by rewrite index_of_byte_app. Qed.

(** ** The separator [" :"] *)

Lemma index_of_sp_colon_app (a b : gostring) :
  index_of a (str " :") = None →
  index_of (a ++ str " :" ++ b) (str " :") = Some (length a).
Proof.
  induction a as [|x a IH]; [done|].
  rewrite index_of_cons.
  destruct (HasPrefix (x :: a) (str " :")) eqn:Hp; [done|].
  destruct (index_of a (str " :")) eqn:Hi; [done|]. intros _.
  change ((x :: a) ++ str " :" ++ b) with (x :: (a ++ str " :" ++ b)).
  rewrite index_of_cons.
  assert (HasPrefix (x :: (a ++ str " :" ++ b)) (str " :") = false) as ->.
  { destruct a as [|y a]; simpl in *.
    - by rewrite andb_false_r.
    - done. }
  by rewrite IH.
Qed.

Lemma index_of_take_None (s sep : gostring) (m : nat) :
  index_of s sep = Some m → sep ≠ [] → index_of (take m s) sep = None.
Proof.
  revert m. induction s as [|a s IH]; intros m; simpl.
  - destruct (HasPrefix [] sep) eqn:Hp; [|done].
    intros [= <-] Hne. destruct sep; done.
  - destruct (HasPrefix (a :: s) sep) eqn:Hp.
    + intros [= <-] Hne. destruct sep; done.
    + destruct (index_of s sep) as [k|] eqn:Hk; [|done].
      intros [= <-] Hne. simpl.
      assert (HasPrefix (a :: take k s) sep = false) as ->.
      { destruct (HasPrefix (a :: take k s) sep) eqn:Hq; [|done].
        apply HasPrefix_true in Hq as [r Hr].
        assert (HasPrefix (a :: s) sep = true) as Hc; [|congruence].
        apply HasPrefix_true. exists (r ++ drop k s).
        rewrite <- (take_drop k s) at 1.
        rewrite app_assoc, <- Hr. done. }
      by rewrite IH.
Qed.

(** * Closed forms of the parser's stages

    None of the indexing and slicing operations of [ParseMessage] can go
    out of range.  The lemmas below make this explicit by giving each
    closure a panic-free closed form. *)

Lemma split2_cut (s sep : gostring) : split2 s sep = Some (cut s sep).
Proof.
  unfold split2, cut, SplitN. simpl.
  destruct (index_of s sep) as [m|]; reflexivity.
Qed.

Lemma slice_from_ok (s : gostring) (lo : Z) :
  0 ≤ lo ≤ len s → slice_from s lo = Some (drop (Z.to_nat lo) s).
Proof.
  intros H. unfold slice_from.
  by rewrite (proj2 (Z.leb_le _ _)), (proj2 (Z.leb_le _ _)) by lia.
Qed.

Lemma slice_to_ok (s : gostring) (hi : Z) :
  0 ≤ hi ≤ len s → slice_to s hi = Some (take (Z.to_nat hi) s).
Proof.
  intros H. unfold slice_to.
  by rewrite (proj2 (Z.leb_le _ _)), (proj2 (Z.leb_le _ _)) by lia.
Qed.

Lemma len_take (s : gostring) (n : Z) :
  0 ≤ n ≤ len s → len (take (Z.to_nat n) s) = n.
Proof. unfold len. intros H. rewrite length_take. lia. Qed.

Lemma no_leading_colon_closed (l : gostring) :
  no_leading_colon l = Some (negb (HasPrefix l (str ":"))).
Proof.
  destruct l as [|c l]; [done|].
  unfold no_leading_colon, byte_at. simpl. by rewrite andb_true_r.
Qed.

Lemma leading_colon_closed (l : gostring) :
  leading_colon l = Some (HasPrefix l (str ":")).
Proof.
  destruct l as [|c l]; [done|].
  unfold leading_colon, byte_at. simpl. by rewrite andb_true_r.
Qed.

Lemma parsePrefix_colon (r : gostring) :
  parsePrefix (":"%char :: r) =
  Some (decompose (cut r (str " ")).1, (cut r (str " ")).2).
Proof.
  unfold parsePrefix. rewrite no_leading_colon_closed.
  change (HasPrefix (":"%char :: r) (str ":")) with true.
  cbn [negb mbind option_bind].
  rewrite slice_from_ok by (unfold len; simpl; lia).
  change (drop (Z.to_nat 1) (":"%char :: r)) with r.
  cbn [mbind option_bind].
  rewrite split2_cut. destruct (cut r (str " ")) as [head tail].
  cbn [mbind option_bind fst snd]. unfold decompose.
  pose proof (Index_lower head (str "!")) as Hu.
  pose proof (Index_upper head (str "!")) as Hu'.
  pose proof (Index_upper head (str "@")) as Hh'.
  change (len (str "!")) with 1 in Hu'. change (len (str "@")) with 1 in Hh'.
  set (user := Index head (str "!")) in *.
  set (host := Index head (str "@")) in *.
  destruct (Z.gtb_spec host user) as [Hgt|Hle].
  - rewrite slice_from_ok, slice_to_ok by lia. cbn [mbind option_bind].
    destruct (Z.gtb_spec user 0) as [Hu0|Hu0]; [|done].
    rewrite slice_from_ok, slice_to_ok by (rewrite len_take; lia). done.
  - cbn [mbind option_bind].
    destruct (Z.gtb_spec user 0) as [Hu0|Hu0]; [|done].
    rewrite slice_from_ok, slice_to_ok by lia. done.
Qed.

Lemma parsePrefix_other (l : gostring) :
  HasPrefix l (str ":") = false → parsePrefix l = Some (new_Prefix, l).
Proof.
  intros Hp. unfold parsePrefix. rewrite no_leading_colon_closed, Hp. done.
Qed.

Lemma parseCommand_cut (l : gostring) :
  parseCommand l = Some (cut l (str " ")).
Proof. apply split2_cut. Qed.

Lemma parseParams_closed (l : gostring) :
  parseParams l =
  Some (if no_params l then (Slice [], l)
        else (Split (cut l (str " :")).1 (str " "), (cut l (str " :")).2)).
Proof.
  assert (empty_or_colon l = Some (no_params l)) as Hg.
  { destruct l as [|c l]; [done|].
    unfold empty_or_colon, no_params, byte_at. simpl. by rewrite andb_true_r. }
  unfold parseParams. rewrite Hg. cbn [mbind option_bind].
  destruct (no_params l); [done|].
  rewrite split2_cut. by destruct (cut _ _).
Qed.

Lemma strip_colon_closed {A} (l : gostring) (k : gostring → go A) :
  (b ← leading_colon l;
   l' ← (if b : bool then slice_from l 1 else Some l);
   k l')
  = k (strip_colon l).
Proof.
  unfold strip_colon. rewrite leading_colon_closed. cbn [mbind option_bind].
  destruct (HasPrefix l (str ":")) eqn:Hp; [|done].
  apply HasPrefix_true in Hp as [r ->].
  rewrite slice_from_ok; [done|]. unfold len. simpl. lia.
Qed.

Lemma ParseMessage_parse (l : gostring) : ParseMessage l = Some (parse l).
Proof.
  unfold ParseMessage, parse.
  assert (parsePrefix l = Some (parse_prefix l)) as ->.
  { unfold parse_prefix.
    destruct (HasPrefix l (str ":")) eqn:Hp; [|by apply parsePrefix_other].
    apply HasPrefix_true in Hp as [r ->]. apply parsePrefix_colon. }
  destruct (parse_prefix l) as [prefix l1]. cbn [mbind option_bind].
  rewrite parseCommand_cut. destruct (cut l1 (str " ")) as [command l2].
  cbn [mbind option_bind].
  rewrite parseParams_closed. unfold parse_params_text.
  destruct (no_params l2); cbn [mbind option_bind];
    by rewrite strip_colon_closed.
Qed.

Lemma cut_byte_app (c : ascii) (a b : gostring) :
  c ∉ a → cut (a ++ c :: b) [c] = (a, b).
Proof.
  intros Hc. unfold cut. rewrite index_of_byte_app by done.
  rewrite take_app_length. f_equal.
  change (c :: b) with ([c] ++ b). rewrite app_assoc.
  rewrite <- (length_app a [c]). apply drop_app_length.
Qed.

Lemma cut_byte_notin (c : ascii) (s : gostring) :
  c ∉ s → cut s [c] = (s, []).
Proof. intros Hc. unfold cut. by rewrite index_of_byte_notin. Qed.

Lemma cut_fst_byte_notin (c : ascii) (s : gostring) : c ∉ (cut s [c]).1.
Proof.
  destruct (index_of_byte_cases c s) as [Hc|(a & b & -> & Hc)].
  - by rewrite cut_byte_notin.
  - by rewrite cut_byte_app.
Qed.

(** * The prefix body: shapes and decomposition *)

Lemma take_len_app (a b : gostring) : take (Z.to_nat (len a)) (a ++ b) = a.
Proof. unfold len. rewrite Nat2Z.id. apply take_app_length. Qed.

Lemma drop_len_succ_app (a b : gostring) (c : ascii) :
  drop (Z.to_nat (len a + 1)) (a ++ c :: b) = b.
Proof.
  unfold len. replace (Z.to_nat (Z.of_nat (length a) + 1)) with (length (a ++ [c])).
  - change (c :: b) with ([c] ++ b). rewrite app_assoc. apply drop_app_length.
  - rewrite length_app. simpl. lia.
Qed.

Lemma len_nonneg (s : gostring) : 0 ≤ len s.
Proof. unfold len. lia. Qed.

Lemma len_pos (s : gostring) : s ≠ [] → 0 < len s.
Proof. destruct s; [done|]. unfold len. simpl. lia. Qed.

Lemma len_app (a b : gostring) : len (a ++ b) = len a + len b.
Proof. unfold len. rewrite length_app. lia. Qed.

Lemma Index_byte_head (c : ascii) (s : gostring) : Index (c :: s) [c] = 0.
Proof. apply (Index_byte_app c [] s), not_elem_of_nil. Qed.

(** No ['!'] and no ['@']: the whole body is the name. *)
Lemma decompose_plain (s : gostring) :
  "!"%char ∉ s → "@"%char ∉ s → decompose s = mkPrefix s [] [].
Proof.
  intros Hu Hh. unfold decompose.
  change (str "!") with ["!"%char]. change (str "@") with ["@"%char].
  by rewrite !Index_byte_notin.
Qed.

(** The first ['!'] is not at the start, and no ['@'] follows it
    (there may be one before it). *)
Lemma decompose_bang (a b : gostring) :
  a ≠ [] → "!"%char ∉ a → ("@"%char ∈ a ∨ "@"%char ∉ b) →
  decompose (a ++ "!"%char :: b) = mkPrefix a b [].
Proof.
  intros Ha Hu Hh. unfold decompose.
  change (str "!") with ["!"%char]. change (str "@") with ["@"%char].
  rewrite Index_byte_app by done. pose proof (len_pos a Ha) as Hpos.
  assert (Index (a ++ "!"%char :: b) ["@"%char] < len a) as Hlt.
  { destruct (index_of_byte_cases "@"%char a) as [Hna|(a1 & a2 & -> & Hna)].
    - destruct Hh as [Hh|Hh]; [done|].
      rewrite Index_byte_notin; [lia|].
      rewrite not_elem_of_app, not_elem_of_cons. done.
    - rewrite <- app_assoc. simpl. rewrite Index_byte_app by done.
      rewrite len_app. unfold len at 3. simpl. lia. }
  destruct (Z.gtb_spec (Index (a ++ "!"%char :: b) ["@"%char]) (len a)); [lia|].
  destruct (Z.gtb_spec (len a) 0); [|lia].
  by rewrite take_len_app, drop_len_succ_app.
Qed.

(** The body starts with ['!'] and has no ['@']. *)
Lemma decompose_bang_first (s : gostring) :
  "@"%char ∉ s → decompose ("!"%char :: s) = mkPrefix ("!"%char :: s) [] [].
Proof.
  intros Hh. unfold decompose.
  change (str "!") with ["!"%char]. change (str "@") with ["@"%char].
  rewrite Index_byte_head.
  rewrite Index_byte_notin; [done|].
  rewrite not_elem_of_cons. done.
Qed.

(** An ['@'] and no ['!'] at all. *)
Lemma decompose_at (a b : gostring) :
  "!"%char ∉ a → "@"%char ∉ a → "!"%char ∉ b →
  decompose (a ++ "@"%char :: b) = mkPrefix a [] b.
Proof.
  intros Hu Hh Hub. unfold decompose.
  change (str "!") with ["!"%char]. change (str "@") with ["@"%char].
  rewrite Index_byte_app by done.
  rewrite Index_byte_notin
    by (rewrite not_elem_of_app, not_elem_of_cons; done).
  pose proof (len_nonneg a).
  destruct (Z.gtb_spec (len a) (-1)); [|lia].
  by rewrite take_len_app, drop_len_succ_app.
Qed.

(** A ['!'] not at the start, then an ['@']. *)
Lemma decompose_bang_at (a b1 b2 : gostring) :
  a ≠ [] → "!"%char ∉ a → "@"%char ∉ a → "@"%char ∉ b1 →
  decompose (a ++ "!"%char :: b1 ++ "@"%char :: b2) = mkPrefix a b1 b2.
Proof.
  intros Ha Hu Hh Hh1. unfold decompose.
  change (str "!") with ["!"%char]. change (str "@") with ["@"%char].
  rewrite Index_byte_app by done. pose proof (len_pos a Ha) as Hpos.
  assert (Index (a ++ "!"%char :: b1 ++ "@"%char :: b2) ["@"%char]
          = len (a ++ "!"%char :: b1)) as ->.
  { rewrite <- Index_byte_app with (c := "@"%char) (b := b2).
    - by rewrite <- app_assoc.
    - rewrite not_elem_of_app, not_elem_of_cons. done. }
  assert (len (a ++ "!"%char :: b1) = len a + 1 + len b1) as Hl.
  { rewrite len_app. unfold len. simpl. lia. }
  pose proof (len_nonneg b1).
  destruct (Z.gtb_spec (len (a ++ "!"%char :: b1)) (len a)); [|lia].
  destruct (Z.gtb_spec (len a) 0); [|lia].
  replace (a ++ "!"%char :: b1 ++ "@"%char :: b2)
    with ((a ++ "!"%char :: b1) ++ "@"%char :: b2) by by rewrite <- app_assoc.
  rewrite take_len_app, drop_len_succ_app.
  by rewrite take_len_app, drop_len_succ_app.
Qed.

(** The body starts with ['!'] and an ['@'] follows. *)
Lemma decompose_bang_first_at (b1 b2 : gostring) :
  "@"%char ∉ b1 →
  decompose ("!"%char :: b1 ++ "@"%char :: b2)
  = mkPrefix ("!"%char :: b1) [] b2.
Proof.
  intros Hh1. unfold decompose.
  change (str "!") with ["!"%char]. change (str "@") with ["@"%char].
  rewrite Index_byte_head.
  assert (Index ("!"%char :: b1 ++ "@"%char :: b2) ["@"%char]
          = len ("!"%char :: b1)) as ->.
  { rewrite <- Index_byte_app with (c := "@"%char) (b := b2); [done|].
    rewrite not_elem_of_cons. done. }
  assert (0 < len ("!"%char :: b1)) by (unfold len; simpl; lia).
  destruct (Z.gtb_spec (len ("!"%char :: b1)) 0); [|lia].
  change ("!"%char :: b1 ++ "@"%char :: b2)
    with (("!"%char :: b1) ++ "@"%char :: b2).
  by rewrite take_len_app, drop_len_succ_app.
Qed.

(** Every prefix body has one of the six shapes, and [decompose] computes
    the fields that belong to it. *)
Lemma body_shape_decompose (head : gostring) (p : Prefix) :
  body_shape head p → decompose head = p.
Proof.
  destruct 1; eauto using decompose_plain, decompose_bang,
    decompose_bang_first, decompose_at, decompose_bang_at,
    decompose_bang_first_at.
Qed.

Lemma body_shape_total (head : gostring) : body_shape head (decompose head).
Proof.
  assert (∃ p, body_shape head p) as [p Hp].
  { destruct (index_of_byte_cases "!"%char head) as [Hu|(a & b & -> & Hu)].
    - destruct (index_of_byte_cases "@"%char head) as [Hh|(a & b & -> & Hh)].
      + eexists. by apply shape_plain.
      + apply not_elem_of_app in Hu as [Hu1 Hu2].
        apply not_elem_of_cons in Hu2 as [_ Hu2].
        eexists. by apply shape_at.
    - destruct (decide ("@"%char ∈ a)) as [Hin|Hh].
      + eexists. apply shape_bang; [|done|by left].
        intros ->. by apply elem_of_nil in Hin.
      + destruct (index_of_byte_cases "@"%char b) as [Hb|(b1 & b2 & -> & Hb)].
        * destruct a as [|x a].
          -- eexists. by apply shape_bang_first.
          -- eexists. apply shape_bang; [done|done|by right].
        * destruct a as [|x a].
          -- eexists. by apply shape_bang_first_at.
          -- eexists. by apply shape_bang_at. }
  by rewrite (body_shape_decompose _ _ Hp).
Qed.

(** ** Re-serializing a prefix body *)

Lemma decompose_serialize_body (head : gostring) :
  prefix_wf (decompose head) →
  decompose (serialize_body (decompose head)) = decompose head.
Proof.
  pose proof (body_shape_total head) as Hs.
  destruct Hs as [s Hu Hh|a b Ha Hu Hh|s Hh|a b Hu Hh Hub
                 |a b1 b2 Ha Hu Hh Hh1|b1 b2 Hh1];
    unfold prefix_wf, serialize_body; cbn [Name User Host is_empty];
    intros Hwf.
  - rewrite !app_nil_r. by apply decompose_plain.
  - destruct b as [|y b]; cbn [is_empty]; rewrite ?app_nil_r.
    + destruct (Hwf eq_refl) as [?|[_ ?]]; [done|]. by apply decompose_plain.
    + by apply decompose_bang.
  - rewrite !app_nil_r. by apply decompose_bang_first.
  - destruct b as [|y b]; cbn [is_empty app]; rewrite ?app_nil_r.
    + by apply decompose_plain.
    + by apply decompose_at.
  - destruct b1 as [|y1 b1], b2 as [|y2 b2]; cbn [is_empty app];
      rewrite ?app_nil_r.
    + by apply decompose_plain.
    + destruct (Hwf eq_refl) as [?|[? _]]; [done|]. by apply decompose_at.
    + apply decompose_bang; auto.
    + by apply decompose_bang_at.
  - destruct b2 as [|y2 b2]; cbn [is_empty app]; rewrite ?app_nil_r.
    + by apply decompose_bang_first.
    + by apply decompose_bang_first_at.
Qed.

(** The fields of a decomposed body only hold bytes of the body. *)
Lemma serialize_body_notin (c : ascii) (head : gostring) :
  c ≠ "!"%char → c ≠ "@"%char → c ∉ head →
  c ∉ serialize_body (decompose head).
Proof.
  intros Hc1 Hc2.
  pose proof (body_shape_total head) as Hs.
  destruct Hs as [s Hu Hh|a b Ha Hu Hh|s Hh|a b Hu Hh Hub
                 |a b1 b2 Ha Hu Hh Hh1|b1 b2 Hh1];
    unfold serialize_body; cbn [Name User Host];
    repeat match goal with
    | |- context [is_empty ?x] => destruct (is_empty x)
    end;
    cbn [str list_ascii_of_string]; unfold not in *;
    repeat rewrite ?elem_of_app, ?elem_of_cons, ?elem_of_nil; tauto.
Qed.

(** * Splitting and joining *)

Lemma genSplit_nonempty (n : nat) (s sep : gostring) : genSplit n s sep ≠ [].
Proof. destruct n; simpl; [done|]. by destruct (index_of s sep). Qed.

Lemma Join_cons (e : gostring) (es : list gostring) (sep : gostring) :
  es ≠ [] → Join (e :: es) sep = e ++ sep ++ Join es sep.
Proof. by destruct es. Qed.

Lemma Join_genSplit (n : nat) (s sep : gostring) :
  Join (genSplit n s sep) sep = s.
Proof.
  revert s. induction n as [|n IH]; intros s; simpl; [done|].
  destruct (index_of s sep) as [m|] eqn:Hm; [|done].
  rewrite Join_cons by apply genSplit_nonempty.
  rewrite IH. symmetry. by apply index_of_split.
Qed.

Lemma Split_elems_nonempty (s sep : gostring) : elems (Split s sep) ≠ [].
Proof. apply genSplit_nonempty. Qed.

Lemma Join_Split (s sep : gostring) : Join (elems (Split s sep)) sep = s.
Proof. apply Join_genSplit. Qed.

Lemma Split_not_nil (s sep : gostring) : is_nil (Split s sep) = false.
Proof. reflexivity. Qed.

Lemma serialize_params_Split (s : gostring) :
  serialize_params (Split s (str " ")) = str " " ++ s.
Proof.
  unfold serialize_params.
  pose proof (Split_elems_nonempty s (str " ")) as Hne.
  destruct (elems (Split s (str " "))) as [|e es] eqn:He; [done|].
  by rewrite <- He, Join_Split.
Qed.

Lemma cut_sp_colon_app (a b : gostring) :
  index_of a (str " :") = None → cut (a ++ str " :" ++ b) (str " :") = (a, b).
Proof.
  intros Ha. unfold cut. rewrite index_of_sp_colon_app by done.
  rewrite take_app_length. f_equal.
  rewrite app_assoc, <- (length_app a (str " :")). apply drop_app_length.
Qed.

Lemma cut_None (s sep : gostring) :
  index_of s sep = None → cut s sep = (s, []).
Proof. intros H. unfold cut. by rewrite H. Qed.

(** * Parsing back the re-serialized params and text *)

Lemma strip_colon_id (t : gostring) :
  HasPrefix t (str ":") = false → strip_colon t = t.
Proof. intros H. unfold strip_colon. by rewrite H. Qed.

Lemma parse_params_text_back (l2 : gostring) (ps : slice gostring)
    (t : gostring) :
  parse_params_text l2 = (ps, t) →
  (elems ps ≠ [] → HasPrefix t (str ":") = false) →
  ¬ (elems ps = [[]] ∧ t = []) →
  ∃ x, (serialize_params ps ++ serialize_text t = [] ∧ x = []
        ∨ serialize_params ps ++ serialize_text t = " "%char :: x)
       ∧ parse_params_text x = (ps, t).
Proof.
  unfold parse_params_text at 1.
  destruct (no_params l2) eqn:Hnp; intros [= <- <-].
  - (* no params: the text is what follows the colon, if any *)
    intros _ _. unfold serialize_params. cbn [elems app].
    destruct (strip_colon l2) as [|y t] eqn:Ht.
    + exists []. split; [by left|done].
    + exists (":"%char :: y :: t). split; [by right|done].
  - destruct l2 as [|x l2]; [done|].
    assert (HasPrefix (x :: l2) (str ":") = false) as Hx.
    { unfold no_params in Hnp. by apply orb_false_iff in Hnp as [_ ?]. }
    rewrite serialize_params_Split.
    destruct (index_of (x :: l2) (str " :")) as [k|] eqn:Hk;
      cbn [list_ascii_of_string] in *.
    + (* a " :" separates the params from the text *)
      pose proof (index_of_take_None _ _ _ Hk ltac:(done)) as Hph.
      assert (cut (x :: l2) [" "%char; ":"%char]
              = (take k (x :: l2), drop (k + 2) (x :: l2))) as ->.
      { unfold cut. by rewrite Hk. }
      cbn [fst snd].
      set (ph := take k (x :: l2)) in *.
      intros H1 H2. specialize (H1 (Split_elems_nonempty _ _)).
      assert (ph = [] ∨ no_params ph = false) as Hph0.
      { destruct k as [|k]; [by left|right]. subst ph. simpl in *.
        by rewrite andb_true_r in *. }
      destruct (strip_colon _) as [|y t] eqn:Ht.
      * (* empty text *)
        exists ph. split; [right; by rewrite app_nil_r|].
        destruct Hph0 as [->|Hph0]; [by destruct H2|].
        unfold parse_params_text. rewrite Hph0, cut_None by done. done.
      * exists (ph ++ str " :" ++ y :: t). split; [by right|].
        unfold parse_params_text.
        assert (no_params (ph ++ str " :" ++ y :: t) = false) as ->.
        { destruct Hph0 as [->|Hph0]; [done|].
          destruct ph; [done|]. simpl in *. done. }
        rewrite cut_sp_colon_app by done. cbn [fst snd].
        by rewrite strip_colon_id.
    + (* no " :": everything is params *)
      rewrite cut_None by done. cbn [fst snd].
      intros _ _. exists (x :: l2). split; [right; by rewrite app_nil_r|].
      unfold parse_params_text. rewrite Hnp, cut_None by done. done.
Qed.

(** * Parsing back a re-serialized message *)

Lemma parse_unfold (l : gostring) :
  parse l =
  {| Command := (cut (parse_prefix l).2 (str " ")).1;
     Params := (parse_params_text (cut (parse_prefix l).2 (str " ")).2).1;
     MsgPrefix := Some (parse_prefix l).1;
     Raw := l;
     Txt := (parse_params_text (cut (parse_prefix l).2 (str " ")).2).2 |}.
Proof.
  unfold parse. destruct (parse_prefix l) as [prefix l1]. cbn [fst snd].
  destruct (cut l1 (str " ")) as [command l2]. cbn [fst snd].
  by destruct (parse_params_text l2).
Qed.

Lemma prefix_is_zero_eq (p : Prefix) :
  prefix_is_zero p = true → p = new_Prefix.
Proof. destruct p as [[|??] [|??] [|??]]; done. Qed.

Lemma parse_prefix_shape (l : gostring) :
  (parse_prefix l).1 = new_Prefix
  ∨ ∃ head, (" "%char ∉ head) ∧ (parse_prefix l).1 = decompose head.
Proof.
  unfold parse_prefix. destruct (HasPrefix l (str ":")); [right|by left].
  eexists. split; [|done]. apply (cut_fst_byte_notin " "%char).
Qed.

Lemma cut_command (c x rest : gostring) :
  " "%char ∉ c →
  (rest = [] ∧ x = [] ∨ rest = " "%char :: x) →
  cut (c ++ rest) (str " ") = (c, x).
Proof.
  intros Hc [[-> ->]| ->].
  - rewrite app_nil_r. by apply cut_byte_notin.
  - by apply cut_byte_app.
Qed.

Lemma parse_prefix_serialized (p : Prefix) (c x rest : gostring) :
  (p = new_Prefix ∨ ∃ head, (" "%char ∉ head) ∧ p = decompose head) →
  prefix_wf p →
  (prefix_is_zero p = true → HasPrefix c (str ":") = false) →
  (rest = [] ∧ x = [] ∨ rest = " "%char :: x) →
  parse_prefix (serialize_prefix (Some p) ++ c ++ rest) = (p, c ++ rest).
Proof.
  intros Hp Hwf Hc Hrest. unfold serialize_prefix.
  destruct (prefix_is_zero p) eqn:Hz.
  - apply prefix_is_zero_eq in Hz as ->. cbn [app].
    unfold parse_prefix.
    assert (HasPrefix (c ++ rest) (str ":") = false) as ->; [|done].
    specialize (Hc eq_refl). destruct c as [|y c]; [|done].
    by destruct Hrest as [[-> _]| ->].
  - destruct Hp as [->|(head & Hsp & ->)]; [done|].
    unfold parse_prefix. cbn [list_ascii_of_string app HasPrefix].
    rewrite Ascii.eqb_refl. cbn [andb drop]. rewrite drop_0.
    rewrite <- (app_assoc _ [" "%char]).
    change ([" "%char] ++ c ++ rest) with (" "%char :: c ++ rest).
    rewrite cut_byte_app by by apply serialize_body_notin.
    cbn [fst snd]. by rewrite decompose_serialize_body.
Qed.

Lemma reparse_fields (l : gostring) :
  message_wf (parse l) → same_fields (parse (serialize (parse l))) (parse l).
Proof.
  rewrite (parse_unfold l). intros (H1 & H2 & H3).
  cbn [Command Params MsgPrefix Txt] in H1, H2, H3.
  destruct (H3 _ eq_refl) as [Hwf Hzero]. clear H3.
  set (p := (parse_prefix l).1) in *.
  pose proof (cut_fst_byte_notin " "%char (parse_prefix l).2) as Hc.
  change [" "%char] with (str " ") in Hc.
  set (c := (cut (parse_prefix l).2 (str " ")).1) in *.
  set (l2 := (cut (parse_prefix l).2 (str " ")).2) in *.
  destruct (parse_params_text l2) as [ps t] eqn:Hpt.
  cbn [fst snd] in *.
  destruct (parse_params_text_back l2 ps t Hpt H1 H2) as (x & Hx & Hback).
  unfold serialize. cbn [Command Params MsgPrefix Txt].
  rewrite (parse_unfold (_ ++ _)).
  rewrite (parse_prefix_serialized p c x _ (parse_prefix_shape l) Hwf Hzero Hx).
  cbn [fst snd]. rewrite (cut_command c x) by done.
  cbn [fst snd]. rewrite Hback. done.
Qed.

(** * The conditions are also necessary *)

Lemma serialized_tail_form (ps : slice gostring) (t : gostring) :
  (serialize_params ps ++ serialize_text t = [] ∧ elems ps = [] ∧ t = [])
  ∨ ∃ x, serialize_params ps ++ serialize_text t = " "%char :: x.
Proof.
  unfold serialize_params, serialize_text.
  destruct (elems ps) as [|e es]; [|right; by eexists].
  destruct t as [|y t]; [by left|right; by eexists].
Qed.

Lemma length_strip_colon (l : gostring) :
  (length (strip_colon l) ≤ length l)%nat.
Proof.
  unfold strip_colon. destruct (HasPrefix l (str ":")); [|done].
  rewrite length_drop. lia.
Qed.

Lemma length_cut_snd (l sep : gostring) :
  (length (cut l sep).2 ≤ length l)%nat.
Proof.
  unfold cut. destruct (index_of l sep); cbn [snd].
  - rewrite length_drop. lia.
  - simpl. lia.
Qed.

Lemma length_parse_params_text (l : gostring) :
  (length (parse_params_text l).2 ≤ length l)%nat.
Proof.
  unfold parse_params_text. destruct (no_params l); cbn [snd].
  - apply length_strip_colon.
  - etrans; [apply length_strip_colon|apply length_cut_snd].
Qed.

Lemma length_cut_snd_cons (a c : ascii) (s : gostring) :
  a ≠ c → s ≠ [] → (length (cut (a :: s) [c]).2 < length s)%nat.
Proof.
  intros Hac Hs. unfold cut. rewrite index_of_cons.
  cbn [HasPrefix]. destruct (Ascii.eqb_spec a c) as [?|_]; [done|].
  cbn [andb]. destruct (index_of s [c]) as [k|]; cbn [fmap option_fmap option_map snd].
  - simpl. rewrite length_drop. destruct s; [done|]. simpl. lia.
  - destruct s; [done|]. simpl. lia.
Qed.

Lemma HasPrefix_cut_fst (l : gostring) :
  HasPrefix l (str ":") = false →
  HasPrefix (cut l (str " ")).1 (str ":") = false.
Proof.
  intros Hl. change (str " ") with [" "%char].
  destruct (index_of_byte_cases " "%char l) as [Hn|(a & b & -> & Hn)].
  - by rewrite cut_byte_notin.
  - rewrite cut_byte_app by done. cbn [fst]. by destruct a.
Qed.

(** The params stage, when it produces params. *)
Lemma parse_params_text_params (l2 : gostring) (ps : slice gostring)
    (t : gostring) :
  parse_params_text l2 = (ps, t) → elems ps ≠ [] →
  ∃ ph, ps = Split ph (str " ") ∧
        HasPrefix ph (str ":") = false ∧
        index_of ph (str " :") = None.
Proof.
  unfold parse_params_text. destruct (no_params l2) eqn:Hnp.
  - by intros [= <- <-].
  - intros [= <- <-] _. exists (cut l2 (str " :")).1. split; [done|].
    assert (HasPrefix l2 (str ":") = false) as Hl2.
    { unfold no_params in Hnp. by apply orb_false_iff in Hnp as [_ ?]. }
    unfold cut. destruct (index_of l2 (str " :")) as [k|] eqn:Hk; cbn [fst].
    + split; [|by apply (index_of_take_None _ _ _ Hk)].
      destruct k; [by rewrite take_0|]. by destruct l2.
    + done.
Qed.

(** A prefix that comes back from its re-serialized body is well formed. *)
Lemma decompose_serialize_body_wf (head : gostring) :
  decompose (serialize_body (decompose head)) = decompose head →
  prefix_wf (decompose head).
Proof.
  pose proof (body_shape_total head) as Hs.
  destruct Hs as [s Hu Hh|a b Ha Hu Hh|s Hh|a b Hu Hh Hub
                 |a b1 b2 Ha Hu Hh Hh1|b1 b2 Hh1];
    unfold prefix_wf, serialize_body; cbn [Name User Host is_empty];
    intros Hback.
  - intros _. right. split; [apply not_elem_of_nil|done].
  - intros ->. cbn [is_empty] in Hback. rewrite !app_nil_r in Hback.
    right. split; [apply not_elem_of_nil|].
    intros (a1 & a2 & -> & Ha1)%list_elem_of_split_l.
    apply not_elem_of_app in Hu as [Hu1 Hu2].
    apply not_elem_of_cons in Hu2 as [_ Hu2].
    rewrite decompose_at in Hback by done.
    injection Hback as Hname _. apply (f_equal length) in Hname.
    rewrite length_app in Hname. simpl in Hname. lia.
  - intros _. left. apply list_elem_of_here.
  - intros _. by right.
  - intros ->. cbn [is_empty app] in Hback. right. split; [|done].
    intros (c1 & c2 & -> & Hc1)%list_elem_of_split_l.
    assert (is_empty (c1 ++ "!"%char :: c2) = false) as Hne by by destruct c1.
    rewrite Hne in Hback.
    replace (a ++ str "@" ++ c1 ++ "!"%char :: c2)
      with ((a ++ "@"%char :: c1) ++ "!"%char :: c2) in Hback
      by (by rewrite <- app_assoc).
    rewrite decompose_bang in Hback.
    + injection Hback as Hname _ _. apply (f_equal length) in Hname.
      rewrite length_app in Hname. simpl in Hname. lia.
    + by destruct a.
    + rewrite not_elem_of_app, not_elem_of_cons. done.
    + left. rewrite elem_of_app, elem_of_cons. tauto.
  - intros _. left. apply list_elem_of_here.
Qed.

Lemma parse_prefix_colon_line (body r : gostring) :
  " "%char ∉ body →
  parse_prefix (":"%char :: body ++ " "%char :: r) = (decompose body, r).
Proof.
  intros Hb. unfold parse_prefix. cbn [list_ascii_of_string HasPrefix].
  rewrite Ascii.eqb_refl. cbn [andb drop]. rewrite drop_0.
  by rewrite cut_byte_app.
Qed.

Lemma parse_prefix_colon_end (body : gostring) :
  " "%char ∉ body →
  parse_prefix (":"%char :: body) = (decompose body, []).
Proof.
  intros Hb. unfold parse_prefix. cbn [list_ascii_of_string HasPrefix].
  rewrite Ascii.eqb_refl. cbn [andb drop]. rewrite drop_0.
  by rewrite cut_byte_notin.
Qed.

(** With an all-empty prefix, a command that starts with a colon is read
    back as a prefix, and then the command or the text differs. *)
Lemma colon_command_differs (c1 : gostring) (ps : slice gostring)
    (t l2 : gostring) :
  " "%char ∉ c1 →
  parse_params_text l2 = (ps, t) →
  let s := (":"%char :: c1) ++ serialize_params ps ++ serialize_text t in
  (cut (parse_prefix s).2 (str " ")).1 = ":"%char :: c1 →
  (parse_params_text (cut (parse_prefix s).2 (str " ")).2).2 = t →
  False.
Proof.
  intros Hc1 Hpt s HC HT. subst s.
  destruct (serialized_tail_form ps t) as [(HX & _ & _)|[x HX]];
    rewrite HX in HC, HT; cbn [app] in HC, HT.
  - rewrite app_nil_r, parse_prefix_colon_end in HC by done. done.
  - rewrite parse_prefix_colon_line in HC, HT by done. cbn [snd] in HC, HT.
    destruct (elems ps) as [|e es] eqn:He.
    + (* no params: the text is read back shorter *)
      unfold serialize_params, serialize_text in HX. rewrite He in HX.
      destruct t as [|y t]; [done|]. cbn [is_empty app] in HX.
      injection HX as <-.
      pose proof (length_parse_params_text
                    (cut (":"%char :: y :: t) (str " ")).2) as Hlen.
      rewrite HT in Hlen.
      pose proof (length_cut_snd_cons ":"%char " "%char (y :: t)) as Hcut.
      change [" "%char] with (str " ") in Hcut.
      specialize (Hcut ltac:(done) ltac:(done)). lia.
    + (* params: the command read back does not start with a colon *)
      destruct (parse_params_text_params l2 ps t Hpt) as (ph & -> & Hph & _);
        [by rewrite He|].
      rewrite serialize_params_Split in HX. injection HX as <-.
      assert (HasPrefix (ph ++ serialize_text t) (str ":") = false) as Hx.
      { destruct ph; [|done]. unfold serialize_text. by destruct t. }
      apply HasPrefix_cut_fst in Hx. by rewrite HC in Hx.
Qed.

Lemma reparse_fields_wf (l : gostring) :
  same_fields (parse (serialize (parse l))) (parse l) → message_wf (parse l).
Proof.
  rewrite (parse_unfold l).
  pose proof (parse_prefix_shape l) as Hshape.
  set (p := (parse_prefix l).1) in *.
  pose proof (cut_fst_byte_notin " "%char (parse_prefix l).2) as Hc.
  change [" "%char] with (str " ") in Hc.
  set (c := (cut (parse_prefix l).2 (str " ")).1) in *.
  set (l2 := (cut (parse_prefix l).2 (str " ")).2) in *.
  destruct (parse_params_text l2) as [ps t] eqn:Hpt. cbn [fst snd].
  unfold serialize. cbn [Command Params MsgPrefix Txt].
  rewrite (parse_unfold (_ ++ _)). unfold same_fields, message_wf.
  cbn [Command Params MsgPrefix Txt].
  intros (HC & HP & HM & HT).
  assert (prefix_wf p ∧
          (prefix_is_zero p = true → HasPrefix c (str ":") = false))
    as [Hwf Hzero].
  { destruct (prefix_is_zero p) eqn:Hz.
    - split.
      + rewrite (prefix_is_zero_eq p Hz). intros _. right.
        split; apply not_elem_of_nil.
      + intros _. destruct (HasPrefix c (str ":")) eqn:Hcc; [exfalso|done].
        apply HasPrefix_true in Hcc as [c1 Hc1]. cbn [app] in Hc1.
        unfold serialize_prefix in HC, HT. rewrite Hz in HC, HT.
        cbn [app] in HC, HT. rewrite Hc1 in HC, HT, Hc.
        apply not_elem_of_cons in Hc as [_ Hc].
        exact (colon_command_differs c1 ps t l2 Hc Hpt HC HT).
    - split; [|done].
      destruct Hshape as [Hnew|(head & Hsp & Hhead)];
        [by rewrite Hnew in Hz|].
      unfold serialize_prefix in HM. rewrite Hz in HM.
      rewrite <- !app_assoc in HM. cbn [list_ascii_of_string app] in HM.
      rewrite parse_prefix_colon_line in HM
        by (rewrite Hhead; by apply serialize_body_notin).
      cbn [fst] in HM. injection HM as HM. rewrite Hhead in HM |- *.
      by apply decompose_serialize_body_wf. }
  split; [|split].
  - (* with params the text does not start with a colon *)
    intros Hne. destruct (HasPrefix t (str ":")) eqn:Htc; [exfalso|done].
    apply HasPrefix_true in Htc as [t0 ->]. cbn [app] in *.
    destruct (parse_params_text_params l2 ps _ Hpt Hne) as (ph & -> & Hph & Hi).
    rewrite (parse_prefix_serialized p c
               (ph ++ str " :" ++ ":"%char :: t0)) in HT; [|done..|].
    + cbn [snd] in HT. rewrite serialize_params_Split in HT.
      rewrite (cut_command c (ph ++ str " :" ++ ":"%char :: t0)) in HT;
        [|done|by right].
      cbn [snd] in HT. unfold parse_params_text in HT.
      assert (no_params (ph ++ str " :" ++ ":"%char :: t0) = false) as Hnp
        by by destruct ph.
      rewrite Hnp, cut_sp_colon_app in HT by done. cbn [snd] in HT.
      change (strip_colon (":"%char :: t0)) with (drop 0 t0) in HT.
      rewrite drop_0 in HT.
      apply (f_equal length) in HT. simpl in HT. lia.
    + right. by rewrite serialize_params_Split.
  - (* the params are not the single empty string with an empty text *)
    intros [Hps ->].
    rewrite (parse_prefix_serialized p c []) in HP; [|done..|].
    + cbn [snd] in HP. unfold serialize_params in HP. rewrite Hps in HP.
      cbn [Join serialize_text is_empty] in HP.
      rewrite app_nil_r in HP.
      rewrite (cut_command c []) in HP; [|done|by right].
      cbn [snd] in HP. rewrite <- HP in Hps. done.
    + right. unfold serialize_params. rewrite Hps. done.
  - by intros p' [= <-].
Qed.

(** * The parser: the stated properties *)

(** Claim C1.  For every input string [l], [ParseMessage l] returns a
    message (it never panics: the result is never [None], and the function
    is total, so it terminates), and the [Params] field of that message is
    a non-nil slice, possibly without elements. *)
Theorem ParseMessage_total_params_not_nil (l : gostring) :
  ∃ m, ParseMessage l = Some m ∧ is_nil (Params m) = false.
Proof.
  exists (parse l). split; [apply ParseMessage_parse|].
  rewrite parse_unfold. cbn [Params]. unfold parse_params_text.
  by destruct (no_params _).
Qed.

(** The empty line is parsed to the message with empty command, no params
    and empty text. *)
Example ParseMessage_empty_line :
  ParseMessage [] =
  Some {| Command := []; Params := Slice []; MsgPrefix := Some new_Prefix;
          Raw := []; Txt := [] |}.
Proof. reflexivity. Qed.

(** The other lines that the specification works out. *)
Example ParseMessage_ping :
  ParseMessage (str "PING") =
  Some {| Command := str "PING"; Params := Slice [];
          MsgPrefix := Some new_Prefix; Raw := str "PING"; Txt := [] |}.
Proof. reflexivity. Qed.

Example ParseMessage_notice :
  ParseMessage (str ":irc.example.com NOTICE * :*** Checking Ident") =
  Some {| Command := str "NOTICE"; Params := Slice [str "*"];
          MsgPrefix := Some (mkPrefix (str "irc.example.com") [] []);
          Raw := str ":irc.example.com NOTICE * :*** Checking Ident";
          Txt := str "*** Checking Ident" |}.
Proof. reflexivity. Qed.

Example ParseMessage_join :
  ParseMessage (str ":nick!user@host JOIN #chan") =
  Some {| Command := str "JOIN"; Params := Slice [str "#chan"];
          MsgPrefix := Some (mkPrefix (str "nick") (str "user") (str "host"));
          Raw := str ":nick!user@host JOIN #chan"; Txt := [] |}.
Proof. reflexivity. Qed.

(** A prefix body with ['@'] and no ['!']: name and host, no user. *)
Example ParseMessage_name_at_host :
  ParseMessage (str ":nick@host PING") =
  Some {| Command := str "PING"; Params := Slice [];
          MsgPrefix := Some (mkPrefix (str "nick") [] (str "host"));
          Raw := str ":nick@host PING"; Txt := [] |}.
Proof. reflexivity. Qed.

(** Claim C3.  [ParseMessage] on
    [":nick!user@host PRIVMSG #chan :hello world"] gives prefix name
    ["nick"], user ["user"], host ["host"], command ["PRIVMSG"], the
    single param ["#chan"] and text ["hello world"]. *)
Theorem ParseMessage_privmsg :
  ParseMessage (str ":nick!user@host PRIVMSG #chan :hello world") =
  Some {| Command := str "PRIVMSG";
          Params := Slice [str "#chan"];
          MsgPrefix := Some {| Name := str "nick"; User := str "user";
                               Host := str "host" |};
          Raw := str ":nick!user@host PRIVMSG #chan :hello world";
          Txt := str "hello world" |}.
Proof. reflexivity. Qed.

(** Claim C6.  For every input string [l], the [Raw] field of the message
    returned by [ParseMessage l] is [l] itself. *)
Theorem ParseMessage_Raw (l : gostring) :
  ∃ m, ParseMessage l = Some m ∧ Raw m = l.
Proof.
  exists (parse l). split; [apply ParseMessage_parse|].
  by rewrite parse_unfold.
Qed.

(** ** Claim C5: a text section made of a single colon *)

(** A line made of an optional prefix section, a command and the text
    section [" :"]: either [cmd ++ " :"] where [cmd] does not start with a
    colon, or [":" ++ body ++ " " ++ cmd ++ " :"]; neither [body] nor
    [cmd] holds a space. *)
Lemma parse_single_colon (pre cmd : gostring) :
  " "%char ∉ cmd →
  (pre = [] ∧ HasPrefix cmd (str ":") = false)
  ∨ (∃ body, (" "%char ∉ body) ∧ pre = str ":" ++ body ++ str " ") →
  Command (parse (pre ++ cmd ++ str " :")) = cmd ∧
  Params (parse (pre ++ cmd ++ str " :")) = Slice [] ∧
  Txt (parse (pre ++ cmd ++ str " :")) = [].
Proof.
  intros Hcmd Hpre. rewrite parse_unfold. cbn [Command Params Txt].
  assert ((parse_prefix (pre ++ cmd ++ str " :")).2 = cmd ++ str " :") as ->.
  { unfold parse_prefix. destruct Hpre as [[-> Hc]|(body & Hb & ->)].
    - cbn [app].
      assert (HasPrefix (cmd ++ str " :") (str ":") = false) as ->; [|done].
      by destruct cmd.
    - cbn [list_ascii_of_string app HasPrefix]. rewrite Ascii.eqb_refl.
      cbn [andb drop]. rewrite drop_0, <- (app_assoc _ [" "%char]).
      change ([" "%char] ++ ?r) with (" "%char :: r).
      by rewrite cut_byte_app. }
  change (cmd ++ str " :") with (cmd ++ " "%char :: str ":").
  rewrite (cut_byte_app " "%char) by done. done.
Qed.

(** Claim C5.  For every line without params section whose text section is
    a single colon and nothing else (such as ["PING :"]), [ParseMessage]
    returns a message whose text is the empty string; its params are the
    empty non-nil slice and its command is the command of the line. *)
Theorem ParseMessage_single_colon_text (pre cmd : gostring) :
  " "%char ∉ cmd →
  (pre = [] ∧ HasPrefix cmd (str ":") = false)
  ∨ (∃ body, (" "%char ∉ body) ∧ pre = str ":" ++ body ++ str " ") →
  ∃ m, ParseMessage (pre ++ cmd ++ str " :") = Some m ∧
       Txt m = [] ∧ Params m = Slice [] ∧ Command m = cmd.
Proof.
  intros Hcmd Hpre. exists (parse (pre ++ cmd ++ str " :")).
  split; [apply ParseMessage_parse|].
  destruct (parse_single_colon pre cmd Hcmd Hpre) as (? & ? & ?). done.
Qed.

Lemma ParseMessage_single_colon_text_witness :
  ∃ m, ParseMessage (str "PING :") = Some m ∧
       Txt m = [] ∧ Params m = Slice [] ∧ Command m = str "PING".
Proof.
  apply (ParseMessage_single_colon_text [] (str "PING")).
  - cbn [list_ascii_of_string]. unfold not.
    repeat rewrite ?elem_of_cons, ?elem_of_nil. intuition discriminate.
  - left. split; reflexivity.
Defined.

(** ** Claim C4: a prefix body with ['!'] and no ['@'] *)

Lemma parse_prefix_line (body rest : gostring) :
  " "%char ∉ body →
  rest = [] ∨ HasPrefix rest (str " ") = true →
  (parse_prefix (str ":" ++ body ++ rest)).1 = decompose body.
Proof.
  intros Hb Hrest. unfold parse_prefix.
  cbn [list_ascii_of_string app HasPrefix]. rewrite Ascii.eqb_refl.
  cbn [andb drop]. rewrite drop_0. destruct Hrest as [->|Hrest].
  - rewrite app_nil_r. by rewrite cut_byte_notin.
  - apply HasPrefix_true in Hrest as [r ->].
    change (str " " ++ r) with (" "%char :: r). by rewrite cut_byte_app.
Qed.

(** Claim C4, as the code has it.  For every line [":" ++ body ++ rest],
    where the prefix body [body] holds no space, [rest] is empty or starts
    with a space, and [body] contains ['!'] but no ['@']: the host is
    empty; when [body] does not start with ['!'], the name is everything
    before the first ['!'] and the user everything after it; when [body]
    starts with ['!'], the name is the whole body and the user is empty. *)
Theorem ParseMessage_bang_without_at (body rest : gostring) :
  " "%char ∉ body →
  rest = [] ∨ HasPrefix rest (str " ") = true →
  "!"%char ∈ body → "@"%char ∉ body →
  ∃ m p, ParseMessage (str ":" ++ body ++ rest) = Some m ∧
    MsgPrefix m = Some p ∧ Host p = [] ∧
    (HasPrefix body (str "!") = false →
       ∃ n u, body = n ++ str "!" ++ u ∧ ("!"%char ∉ n) ∧
              Name p = n ∧ User p = u) ∧
    (HasPrefix body (str "!") = true → Name p = body ∧ User p = []).
Proof.
  intros Hsp Hrest Hin Hat.
  exists (parse (str ":" ++ body ++ rest)), (decompose body).
  split; [apply ParseMessage_parse|].
  split; [rewrite parse_unfold; cbn [MsgPrefix]; by rewrite parse_prefix_line|].
  apply list_elem_of_split_l in Hin as (a & b & -> & Ha).
  apply not_elem_of_app in Hat as [Hat1 Hat2].
  apply not_elem_of_cons in Hat2 as [_ Hat2].
  destruct a as [|x a].
  - cbn [app]. rewrite decompose_bang_first by done. cbn [Name User Host].
    split; [done|]. split; [done|]. done.
  - rewrite decompose_bang by auto. cbn [Name User Host].
    split; [done|]. split.
    + intros _. by exists (x :: a), b.
    + apply not_elem_of_cons in Ha as [Hx _].
      cbn [app HasPrefix list_ascii_of_string].
      destruct (Ascii.eqb_spec x "!"%char); [congruence|done].
Qed.

Lemma ParseMessage_bang_without_at_witness :
  ∃ m p, ParseMessage (str ":nick!user PING") = Some m ∧
    MsgPrefix m = Some p ∧ Host p = [] ∧
    (HasPrefix (str "nick!user") (str "!") = false →
       ∃ n u, str "nick!user" = n ++ str "!" ++ u ∧ ("!"%char ∉ n) ∧
              Name p = n ∧ User p = u) ∧
    (HasPrefix (str "nick!user") (str "!") = true →
       Name p = str "nick!user" ∧ User p = []).
Proof.
  apply (ParseMessage_bang_without_at (str "nick!user") (str " PING")).
  - cbn [list_ascii_of_string]. unfold not.
    repeat rewrite ?elem_of_cons, ?elem_of_nil. intuition discriminate.
  - right. reflexivity.
  - cbn [list_ascii_of_string]. repeat rewrite ?elem_of_cons. tauto.
  - cbn [list_ascii_of_string]. unfold not.
    repeat rewrite ?elem_of_cons, ?elem_of_nil. intuition discriminate.
Defined.

(** Claim C4 as stated fails when ['!'] is the first byte of the prefix
    body: on [":!user PING"] the claim asks for the empty name and the
    user ["user"], while the parser keeps the whole body as the name and
    leaves the user empty. *)
Lemma ParseMessage_bang_first_counterexample :
  ∃ m p, ParseMessage (str ":!user PING") = Some m ∧
    MsgPrefix m = Some p ∧
    Name p = str "!user" ∧ User p = [] ∧
    ¬ (Name p = [] ∧ User p = str "user" ∧ Host p = []).
Proof.
  eexists _, _. split; [reflexivity|]. split; [reflexivity|].
  cbn. split; [done|]. split; [done|]. intros [? _]. done.
Qed.

(** ** Claim C2: re-serializing and parsing again *)

(** Claim C2, as the code has it.  Let [m] be the message parsed from an
    input [l], and let [m] satisfy [message_wf]: with params present the
    text does not start with a colon; the params are not the single empty
    string with an empty text; an empty user hides no separator (the name
    holds the ['!'] itself, or the name has no ['@'] and the host no
    ['!']); with an all-empty prefix the command does not start with a
    colon.  Then parsing the re-serialization of [m] gives a message with
    the same command, params, prefix and text. *)
Theorem reparse_same_fields (l : gostring) (m : Message) :
  ParseMessage l = Some m →
  message_wf m →
  ∃ m', ParseMessage (serialize m) = Some m' ∧ same_fields m' m.
Proof.
  rewrite ParseMessage_parse. intros [= <-] Hwf.
  exists (parse (serialize (parse l))).
  split; [apply ParseMessage_parse | by apply reparse_fields].
Qed.

(** For this parser the conditions of [message_wf] are also necessary: a
    parsed message that comes back with the same fields satisfies them. *)
Lemma wf_of_same_fields_back (l : gostring) (m : Message) :
  ParseMessage l = Some m →
  (∃ m', ParseMessage (serialize m) = Some m' ∧ same_fields m' m) →
  message_wf m.
Proof.
  rewrite ParseMessage_parse. intros [= <-] (m' & Hm' & Hsame).
  rewrite ParseMessage_parse in Hm'. injection Hm' as <-.
  by apply reparse_fields_wf.
Qed.

Lemma reparse_same_fields_witness :
  ∃ m', ParseMessage
          (serialize
             {| Command := str "PRIVMSG";
                Params := Slice [str "#chan"];
                MsgPrefix := Some {| Name := str "nick"; User := str "user";
                                     Host := str "host" |};
                Raw := str ":nick!user@host PRIVMSG #chan :hello world";
                Txt := str "hello world" |}) = Some m' ∧
        same_fields m'
          {| Command := str "PRIVMSG";
             Params := Slice [str "#chan"];
             MsgPrefix := Some {| Name := str "nick"; User := str "user";
                                  Host := str "host" |};
             Raw := str ":nick!user@host PRIVMSG #chan :hello world";
             Txt := str "hello world" |}.
Proof.
  apply (reparse_same_fields
           (str ":nick!user@host PRIVMSG #chan :hello world")).
  - reflexivity.
  - split; [reflexivity|]. split.
    + intros [H _]. discriminate H.
    + intros p [= <-]. split.
      * intros H. discriminate H.
      * intros H. discriminate H.
Defined.

(** Claim C2 as stated fails: the line ["JOIN  :"] (two spaces) has the
    single empty param [""] and an empty text; its re-serialization is
    ["JOIN "], which parses to no params at all. *)
Lemma reparse_empty_param_counterexample :
  ∃ m m', ParseMessage (str "JOIN  :") = Some m ∧
          serialize m = str "JOIN " ∧
          ParseMessage (serialize m) = Some m' ∧
          Params m = Slice [[]] ∧ Params m' = Slice [] ∧
          ¬ same_fields m' m.
Proof.
  eexists _, _. split; [reflexivity|]. split; [reflexivity|].
  split; [reflexivity|]. split; [reflexivity|]. split; [reflexivity|].
  intros (_ & H & _). discriminate H.
Qed.

(** Further inputs on which the round trip changes a field: a text that
    starts with a colon after params loses that colon, ... *)
Example reparse_colon_text :
  ∃ m m', ParseMessage (str "PRIVMSG #chan :::)") = Some m ∧
          ParseMessage (serialize m) = Some m' ∧
          Txt m = str ":)" ∧ Txt m' = str ")".
Proof. eexists _, _. repeat split; reflexivity. Qed.

(** ... a prefix body ending in ['!'] after an ['@'] is read back as name
    and host, ... *)
Example reparse_empty_user :
  ∃ m m', ParseMessage (str ":a@b! PING") = Some m ∧
          ParseMessage (serialize m) = Some m' ∧
          MsgPrefix m = Some (mkPrefix (str "a@b") [] []) ∧
          MsgPrefix m' = Some (mkPrefix (str "a") [] (str "b")).
Proof. eexists _, _. repeat split; reflexivity. Qed.

(** ... and a command starting with a colon behind an empty prefix is read
    back as a prefix. *)
Example reparse_colon_command :
  ∃ m m', ParseMessage (str ": :b c") = Some m ∧
          ParseMessage (serialize m) = Some m' ∧
          Command m = str ":b" ∧ Command m' = str "c".
Proof. eexists _, _. repeat split; reflexivity. Qed.

(** * The connection: writing *)

Lemma Write_free {St} `{ReadWriteCloser St} (c : Conn St) (msg : gostring) :
  wl c = false →
  Write c msg =
  Returned ((rwc_Write msg (rwc c)).1,
            mkConn (rwc_Write msg (rwc c)).2 (reader c) (rl c) false).
Proof.
  intros Hwl. unfold Write. rewrite Hwl. by destruct (rwc_Write msg (rwc c)).
Qed.

(** Claim C7.  [Send c l], called while the write lock is free, hands to
    the stream exactly the bytes of [l] followed by carriage return and
    line feed, in one call of the stream's [Write] made through [Write c];
    it leaves the stream in the state that call produced, the write lock
    free again, and returns that call's error: an error exactly when the
    stream's write gives one. *)
Theorem Send_writes_terminated_line {St} `{ReadWriteCloser St}
    (c : Conn St) (l : gostring) :
  wl c = false →
  ∃ n err σ',
    rwc_Write (l ++ [CR; LF]) (rwc c) = ((n, err), σ') ∧
    Write c (l ++ [CR; LF])
      = Returned ((n, err), mkConn σ' (reader c) (rl c) false) ∧
    Send c l = Returned (err, mkConn σ' (reader c) (rl c) false).
Proof.
  intros Hwl.
  destruct (rwc_Write (l ++ [CR; LF]) (rwc c)) as [[n err] σ'] eqn:Hw.
  exists n, err, σ'. split; [done|].
  assert (Write c (l ++ [CR; LF])
          = Returned ((n, err), mkConn σ' (reader c) (rl c) false)) as HW.
  { rewrite Write_free by done. by rewrite Hw. }
  split; [done|]. unfold Send. change crlf with [CR; LF]. by rewrite HW.
Qed.

Lemma Send_writes_terminated_line_witness :
  ∃ n err σ',
    rwc_Write (str "PONG" ++ [CR; LF]) (mkScript [] [] false) = ((n, err), σ') ∧
    Write (NewConn (mkScript [] [] false)) (str "PONG" ++ [CR; LF])
      = Returned ((n, err), mkConn σ' NewReader false false) ∧
    Send (NewConn (mkScript [] [] false)) (str "PONG")
      = Returned (err, mkConn σ' NewReader false false).
Proof.
  apply (Send_writes_terminated_line (NewConn (mkScript [] [] false)) (str "PONG")).
  reflexivity.
Defined.

(** On the scripted stream: an open stream records the terminated line as
    one chunk and [Send] returns no error. *)
Lemma Send_script (c : Conn script) (l : gostring) :
  wl c = false → closed (rwc c) = false →
  Send c l =
  Returned (None,
            mkConn (mkScript (incoming (rwc c)) (written (rwc c) ++ [l ++ crlf])
                             false)
                   (reader c) (rl c) false).
Proof.
  intros Hwl Hcl. unfold Send. rewrite Write_free by done.
  cbn [rwc_Write script_rwc]. unfold script_Write. rewrite Hcl.
  reflexivity.
Qed.

(** * The connection: reading *)

Lemma ReadString_loop_unfold {St} `{ReadWriteCloser St} (fuel : nat)
    (delim : ascii)
    (acc : gostring) (b : Reader) (σ : St) :
  ReadString_loop (S fuel) delim acc b σ =
  match index_of (rd_buf b) [delim] with
  | Some i =>
      Some ((acc ++ take (i + 1) (rd_buf b), None),
            mkReader (drop (i + 1) (rd_buf b)) (rd_err b), σ)
  | None =>
      match rd_err b with
      | Some e => Some ((acc ++ rd_buf b, Some e), mkReader [] None, σ)
      | None =>
          if (defaultBufSize <=? length (rd_buf b))%nat
          then ReadString_loop fuel delim (acc ++ rd_buf b)
                 (mkReader [] None) σ
          else let '(b', σ') := fill b σ in
               ReadString_loop fuel delim acc b' σ'
      end
  end.
Proof. reflexivity. Qed.

(** With a read error pending and no delimiter buffered, one round
    returns the buffered bytes and the error. *)
Lemma ReadString_loop_pending {St} `{ReadWriteCloser St} (fuel : nat)
    (delim : ascii)
    (acc buf : gostring) (e : error) (σ : St) :
  index_of buf [delim] = None →
  ReadString_loop (S fuel) delim acc (mkReader buf (Some e)) σ
  = Some ((acc ++ buf, Some e), mkReader [] None, σ).
Proof.
  intros Hi. rewrite ReadString_loop_unfold. cbn [rd_buf rd_err].
  by rewrite Hi.
Qed.

Lemma ReadString_loop_found {St} `{ReadWriteCloser St} (fuel : nat)
    (delim : ascii) (acc line rest : gostring) (e : option error) (σ : St) :
  delim ∉ line →
  ReadString_loop (S fuel) delim acc
    (mkReader (line ++ delim :: rest) e) σ
  = Some ((acc ++ line ++ [delim], None), mkReader rest e, σ).
Proof.
  intros Hl. rewrite ReadString_loop_unfold. cbn [rd_buf rd_err].
  rewrite index_of_byte_app by done.
  replace (length line + 1)%nat with (length (line ++ [delim]))
    by (rewrite length_app; simpl; lia).
  change (delim :: rest) with ([delim] ++ rest). rewrite app_assoc.
  by rewrite take_app_length, drop_app_length.
Qed.

Lemma take_index_of_byte (c : ascii) (s : gostring) (i : nat) :
  index_of s [c] = Some i → take (i + 1) s = take i s ++ [c].
Proof.
  intros Hi. pose proof (index_of_bound _ _ _ Hi) as Hb.
  pose proof (index_of_split _ _ _ Hi) as Hs. simpl in Hb.
  rewrite Hs at 1. rewrite take_app_ge by (rewrite length_take; lia).
  rewrite length_take. replace (i + 1 - i `min` length s)%nat with 1%nat by lia.
  done.
Qed.

(** A line returned without error ends with the delimiter. *)
Lemma ReadString_loop_delim {St} `{ReadWriteCloser St} (fuel : nat)
    (delim : ascii) (acc : gostring) (b : Reader) (σ : St)
    (l : gostring) (b' : Reader) (σ' : St) :
  ReadString_loop fuel delim acc b σ = Some ((l, None), b', σ') →
  ∃ line, l = line ++ [delim].
Proof.
  revert acc b σ. induction fuel as [|fuel IH]; intros acc b σ; [done|].
  rewrite ReadString_loop_unfold.
  destruct (index_of (rd_buf b) [delim]) as [i|] eqn:Hi.
  - intros [= <- <- <-]. exists (acc ++ take i (rd_buf b)).
    by rewrite (take_index_of_byte _ _ _ Hi), app_assoc.
  - destruct (rd_err b); [done|].
    destruct (defaultBufSize <=? length (rd_buf b))%nat; [apply IH|].
    destruct (fill b σ) as [b1 σ1]. apply IH.
Qed.

(** [ReadMsg] hands the line to the parser as [ReadString] returned it. *)
Lemma ReadMsg_line {St} `{ReadWriteCloser St} (fuel : nat) (c : Conn St)
    (l : gostring) (b' : Reader) (σ' : St) :
  rl c = false →
  ReadString fuel LF (reader c) (rwc c) = Some ((l, None), b', σ') →
  ReadMsg fuel c = Returned ((Some (parse l), None), mkConn σ' b' false (wl c)).
Proof.
  intros Hrl Hrs. unfold ReadMsg. rewrite Hrl, Hrs.
  by rewrite ParseMessage_parse.
Qed.

Lemma ReadMsg_error {St} `{ReadWriteCloser St} (fuel : nat) (c : Conn St)
    (l : gostring) (e : error) (b' : Reader) (σ' : St) :
  rl c = false →
  ReadString fuel LF (reader c) (rwc c) = Some ((l, Some e), b', σ') →
  ReadMsg fuel c = Returned ((None, Some e), mkConn σ' b' false (wl c)).
Proof. intros Hrl Hrs. unfold ReadMsg. by rewrite Hrl, Hrs. Qed.

(** Claim C10.  [ReadMsg] parses the line with its terminator attached:
    whenever the buffered reader returns a line [l] without error, [l]
    ends with the line feed, and [ReadMsg] returns the message that
    [ParseMessage] makes of exactly [l], so its raw line is [l]; when [l]
    is ["PING\r\n"], the command of the message is ["PING\r\n"]. *)
Theorem ReadMsg_keeps_terminator {St} `{ReadWriteCloser St} (fuel : nat)
    (c : Conn St) (l : gostring) (b' : Reader) (σ' : St) :
  rl c = false →
  ReadString fuel LF (reader c) (rwc c) = Some ((l, None), b', σ') →
  ∃ m c', ReadMsg fuel c = Returned ((Some m, None), c') ∧
          ParseMessage l = Some m ∧
          Raw m = l ∧
          (∃ line, l = line ++ [LF]) ∧
          (l = str "PING" ++ [CR; LF] → Command m = str "PING" ++ [CR; LF]).
Proof.
  intros Hrl Hrs. eexists _, _.
  split; [exact (ReadMsg_line fuel c _ b' σ' Hrl Hrs)|].
  split; [apply ParseMessage_parse|].
  split; [by rewrite parse_unfold|].
  split; [exact (ReadString_loop_delim _ _ _ _ _ _ _ _ Hrs)|].
  by intros ->.
Qed.

Lemma ReadMsg_keeps_terminator_witness :
  ∃ m c',
    ReadMsg 2 (NewConn (mkScript [str "PING" ++ [CR; LF]] [] false))
      = Returned ((Some m, None), c') ∧
    ParseMessage (str "PING" ++ [CR; LF]) = Some m ∧
    Raw m = str "PING" ++ [CR; LF] ∧
    (∃ line, str "PING" ++ [CR; LF] = line ++ [LF]) ∧
    (str "PING" ++ [CR; LF] = str "PING" ++ [CR; LF] →
     Command m = str "PING" ++ [CR; LF]).
Proof.
  apply (ReadMsg_keeps_terminator 2
           (NewConn (mkScript [str "PING" ++ [CR; LF]] [] false))
           (str "PING" ++ [CR; LF])
           (mkReader [] None) (mkScript [] [] false)).
  - reflexivity.
  - vm_compute. reflexivity.
Defined.

(** * The connection after [Close] *)

Section ClosedStream.
Context {St : Type} `{ReadWriteCloser St}.

(** The stream's own contract: [Close] closes it, and a closed stream
    stays closed and fails every read and write without delivering or
    accepting anything further. *)
Variable is_closed : St → Prop.
Hypothesis Close_closes : ∀ σ, is_closed (rwc_Close σ).2.
Hypothesis Read_closed :
  ∀ n σ, is_closed σ →
    ∃ e σ', rwc_Read n σ = (([], Some e), σ') ∧ is_closed σ'.
Hypothesis Write_closed :
  ∀ msg σ, is_closed σ →
    ∃ n e σ', rwc_Write msg σ = ((n, Some e), σ') ∧ is_closed σ'.

Lemma Close_closed_conn (c : Conn St) :
  rl c = false → wl c = false → closed_conn is_closed (Close c).2.
Proof.
  intros Hrl Hwl. unfold Close, closed_conn.
  pose proof (Close_closes (rwc c)) as Hc.
  destruct (rwc_Close (rwc c)) as [err σ']. done.
Qed.

Lemma Write_closed_conn (c : Conn St) (msg : gostring) :
  closed_conn is_closed c →
  ∃ n e c', Write c msg = Returned ((n, Some e), c') ∧
            closed_conn is_closed c' ∧ reader c' = reader c.
Proof.
  intros (Hc & Hrl & Hwl).
  destruct (Write_closed msg (rwc c) Hc) as (n & e & σ' & Hw & Hc').
  exists n, e, (mkConn σ' (reader c) (rl c) false).
  rewrite Write_free, Hw by done. done.
Qed.

Lemma fill_loop_closed (i : nat) (b : Reader) (σ : St) :
  is_closed σ →
  ∃ e σ', fill_loop (S i) b σ = (mkReader (rd_buf b) (Some e), σ') ∧
          is_closed σ'.
Proof.
  intros Hc. cbn [fill_loop].
  destruct (Read_closed (defaultBufSize - length (rd_buf b)) σ Hc)
    as (e & σ' & -> & Hc').
  exists e, σ'. cbn [rd_buf]. by rewrite app_nil_r.
Qed.

Lemma fill_closed (b : Reader) (σ : St) :
  is_closed σ →
  ∃ e σ', fill b σ = (mkReader (rd_buf b) (Some e), σ') ∧ is_closed σ'.
Proof. intros Hc. by apply (fill_loop_closed 99). Qed.

Lemma ReadString_loop_closed_room (fuel : nat) (delim : ascii)
    (acc : gostring) (b : Reader) (σ : St) :
  is_closed σ →
  index_of (rd_buf b) [delim] = None →
  (length (rd_buf b) < defaultBufSize)%nat →
  ∃ e σ',
    ReadString_loop (S (S fuel)) delim acc b σ
    = Some ((acc ++ rd_buf b, Some e), mkReader [] None, σ') ∧
    is_closed σ'.
Proof.
  intros Hc Hi Hroom. destruct b as [buf [e|]]; cbn [rd_buf] in *.
  - exists e, σ. by rewrite ReadString_loop_pending.
  - destruct (fill_closed (mkReader buf None) σ Hc) as (e & σ' & Hf & Hc').
    exists e, σ'. split; [|done].
    rewrite ReadString_loop_unfold. cbn [rd_buf rd_err]. rewrite Hi.
    destruct (Nat.leb_spec defaultBufSize (length buf)); [lia|].
    rewrite Hf. by rewrite ReadString_loop_pending.
Qed.

Lemma ReadString_loop_closed (fuel : nat) (delim : ascii)
    (acc : gostring) (b : Reader) (σ : St) :
  is_closed σ →
  index_of (rd_buf b) [delim] = None →
  (3 ≤ fuel)%nat →
  ∃ e σ',
    ReadString_loop fuel delim acc b σ
    = Some ((acc ++ rd_buf b, Some e), mkReader [] None, σ') ∧
    is_closed σ'.
Proof.
  intros Hc Hi Hfuel.
  destruct fuel as [|[|[|fuel]]]; [lia..|].
  destruct (Nat.leb_spec defaultBufSize (length (rd_buf b))) as [Hfull|Hroom].
  - destruct b as [buf [e|]]; cbn [rd_buf] in *.
    + exists e, σ. by rewrite ReadString_loop_pending.
    + destruct (ReadString_loop_closed_room fuel delim (acc ++ buf)
                  (mkReader [] None) σ Hc)
        as (e & σ' & Hr & Hc'); [done|cbn; unfold defaultBufSize; lia|].
      exists e, σ'. split; [|done].
      rewrite ReadString_loop_unfold. cbn [rd_buf rd_err]. rewrite Hi.
      destruct (Nat.leb_spec defaultBufSize (length buf)); [|lia].
      rewrite Hr. cbn [rd_buf]. by rewrite app_nil_r.
  - by apply ReadString_loop_closed_room.
Qed.

Lemma ReadMsg_closed_conn (c : Conn St) (fuel : nat) :
  closed_conn is_closed c →
  LF ∉ rd_buf (reader c) →
  (3 ≤ fuel)%nat →
  ∃ e c', ReadMsg fuel c = Returned ((None, Some e), c') ∧
          closed_conn is_closed c' ∧ rd_buf (reader c') = [].
Proof.
  intros (Hc & Hrl & Hwl) Hlf Hfuel.
  destruct (ReadString_loop_closed fuel LF [] (reader c) (rwc c) Hc)
    as (e & σ' & Hr & Hc'); [by apply index_of_byte_notin|done|].
  exists e, (mkConn σ' (mkReader [] None) false (wl c)).
  split; [exact (ReadMsg_error fuel c _ e _ _ Hrl Hr)|]. done.
Qed.

Lemma ReadMsg_buffered_line (c : Conn St) (fuel : nat)
    (line rest : gostring) :
  rl c = false →
  rd_buf (reader c) = line ++ LF :: rest → LF ∉ line →
  ReadMsg (S fuel) c
  = Returned ((Some (parse (line ++ [LF])), None),
              mkConn (rwc c) (mkReader rest (rd_err (reader c))) false (wl c)).
Proof.
  intros Hrl Hbuf Hline.
  apply (ReadMsg_line (S fuel) c (line ++ [LF])); [done|].
  unfold ReadString. destruct (reader c) as [buf e]. cbn [rd_buf rd_err] in *.
  subst buf. by rewrite ReadString_loop_found.
Qed.

(** Claim C8, as the code has it.  The connection keeps no record of
    being closed; what follows [Close] is decided by the stream and by
    the bytes already buffered.  On a stream that honours its contract
    ([Close] closes it; once closed it fails every read and write):
    [Close] leaves a closed connection; on a closed connection every
    [Write] returns an error and keeps the connection closed; every
    [ReadMsg] made while the line buffer holds no line feed returns an
    error within three rounds of the read loop, empties the buffer and
    keeps the connection closed; a [ReadMsg] made while the buffer still
    holds a complete line returns that line's message, without error. *)
Theorem closed_connection_calls :
  (∀ c : Conn St, rl c = false → wl c = false →
     closed_conn is_closed (Close c).2) ∧
  (∀ (c : Conn St) (msg : gostring), closed_conn is_closed c →
     ∃ n e c', Write c msg = Returned ((n, Some e), c') ∧
               closed_conn is_closed c' ∧ reader c' = reader c) ∧
  (∀ (c : Conn St) (fuel : nat), closed_conn is_closed c →
     LF ∉ rd_buf (reader c) → (3 ≤ fuel)%nat →
     ∃ e c', ReadMsg fuel c = Returned ((None, Some e), c') ∧
             closed_conn is_closed c' ∧ rd_buf (reader c') = []) ∧
  (∀ (c : Conn St) (fuel : nat) (line rest : gostring),
     closed_conn is_closed c →
     rd_buf (reader c) = line ++ LF :: rest → LF ∉ line →
     ∃ m c', ParseMessage (line ++ [LF]) = Some m ∧
             ReadMsg (S fuel) c = Returned ((Some m, None), c') ∧
             closed_conn is_closed c' ∧ rd_buf (reader c') = rest).
Proof.
  split; [exact Close_closed_conn|].
  split; [exact Write_closed_conn|].
  split; [exact ReadMsg_closed_conn|].
  intros c fuel line rest (Hc & Hrl & Hwl) Hbuf Hline.
  eexists _, _. split; [apply ParseMessage_parse|].
  split; [by apply ReadMsg_buffered_line|]. done.
Qed.
End ClosedStream.

(** The scripted stream honours the contract of [ClosedStream]. *)
Lemma script_Close_closes (σ : script) : closed (rwc_Close σ).2 = true.
Proof. cbn. unfold script_Close. by destruct (closed σ) eqn:Hc. Qed.

Lemma script_Read_closed (n : nat) (σ : script) :
  closed σ = true →
  ∃ e σ', rwc_Read n σ = (([], Some e), σ') ∧ closed σ' = true.
Proof.
  intros Hc. exists ErrClosed, σ. cbn. unfold script_Read. by rewrite Hc.
Qed.

Lemma script_Write_closed (msg : gostring) (σ : script) :
  closed σ = true →
  ∃ n e σ', rwc_Write msg σ = ((n, Some e), σ') ∧ closed σ' = true.
Proof.
  intros Hc. exists 0, ErrClosed, σ. cbn. unfold script_Write. by rewrite Hc.
Qed.

Lemma closed_connection_calls_witness :
  let c := NewConn (mkScript [str "PING" ++ crlf] [] false) in
  closed_conn (λ σ, closed σ = true) (Close c).2 ∧
  (∃ n e c', Write (Close c).2 (str "PONG" ++ crlf) = Returned ((n, Some e), c')) ∧
  (∃ e c', ReadMsg 3 (Close c).2 = Returned ((None, Some e), c')).
Proof.
  intros c.
  destruct (closed_connection_calls (λ σ, closed σ = true) script_Close_closes
              script_Read_closed script_Write_closed)
    as (HClose & HWrite & HRead & _).
  assert (closed_conn (λ σ, closed σ = true) (Close c).2) as Hc
    by (apply HClose; reflexivity).
  split; [exact Hc|]. split.
  - destruct (HWrite (Close c).2 (str "PONG" ++ crlf) Hc) as (n & e & c' & Hw & _).
    by exists n, e, c'.
  - destruct (HRead (Close c).2 3%nat Hc) as (e & c' & Hr & _).
    + vm_compute. apply not_elem_of_nil.
    + lia.
    + by exists e, c'.
Defined.

(** Claim C8 as stated fails: a stream delivers two lines in one read; the
    first [ReadMsg] returns the first line and leaves the second in the
    line buffer; after [Close] the stream is closed, and yet the next
    [ReadMsg] returns the second line's message, without error. *)
Lemma ReadMsg_after_Close_counterexample :
  ∃ m1 c1 c2 m2 c3,
    ReadMsg 2 (NewConn (mkScript [str "PING" ++ crlf ++ str "PONG" ++ crlf]
                                 [] false))
      = Returned ((Some m1, None), c1) ∧
    Close c1 = (None, c2) ∧
    closed (rwc c2) = true ∧
    ReadMsg 2 c2 = Returned ((Some m2, None), c3) ∧
    Command m2 = str "PONG" ++ crlf.
Proof.
  eexists _, _, _, _, _.
  split; [vm_compute; reflexivity|].
  split; [vm_compute; reflexivity|].
  split; [reflexivity|].
  split; [vm_compute; reflexivity|].
  reflexivity.
Qed.

(** * Concurrent senders: the write mutex keeps lines whole *)

Lemma wire_of_snoc (lines : list gostring) (order : list nat) (i : nat) :
  wire_of lines (order ++ [i])
  = wire_of lines order ++ terminated (line_of lines i).
Proof.
  unfold wire_of. rewrite map_app, concat_app. simpl. by rewrite app_nil_r.
Qed.

Lemma run_inv_start (lines : list gostring) :
  run_inv lines (start lines) [] [].
Proof.
  split; cbn [start senders wire w_wl].
  - apply length_map.
  - constructor.
  - intros j. split; [by intros ?%elem_of_nil|].
    change (map ?f lines) with (f <$> lines). rewrite list_lookup_fmap.
    by destruct (lines !! j).
  - intros j m. change (map ?f lines) with (f <$> lines).
    rewrite list_lookup_fmap. unfold line_of.
    destruct (lines !! j); [|done]. by intros [= <-].
  - done.
  - split; [done|]. intros j todo.
    change (map ?f lines) with (f <$> lines). rewrite list_lookup_fmap.
    by destruct (lines !! j).
Qed.

(** A goroutine inside [Write] holds the mutex, and it is the only one. *)
Lemma run_inv_writing (lines : list gostring) (w : world)
    (order : list nat) (pre : gostring) (i : nat) (todo : gostring) :
  run_inv lines w order pre →
  senders w !! i = Some (Writing todo) →
  w_wl w = true ∧ terminated (line_of lines i) = pre ++ todo ∧
  ∀ j todo', senders w !! j = Some (Writing todo') → j = i.
Proof.
  intros [_ _ _ _ _ Hlock] Hi. destruct (w_wl w).
  - destruct Hlock as (i0 & todo0 & Hi0 & Hline & Huniq).
    pose proof (Huniq i todo Hi) as ->.
    rewrite Hi in Hi0. injection Hi0 as ->. done.
  - destruct Hlock as [_ Hno]. by destruct (Hno i todo).
Qed.

Lemma run_inv_step (lines : list gostring) (w : world) (order : list nat)
    (pre : gostring) (i : nat) :
  run_inv lines w order pre →
  ∃ order' pre', run_inv lines (sched_step w i) order' pre'.
Proof.
  intros Hinv. unfold sched_step.
  destruct (senders w !! i) as [[msg|[|b todo]|]|] eqn:Hi;
    [| | |by eauto..].
  - (* [c.wl.Lock()] *)
    destruct (w_wl w) eqn:Hwl; [by eauto|].
    destruct Hinv as [Hlen Hnd Hord Hwait Hwire Hlock].
    rewrite Hwl in Hlock. destruct Hlock as [-> Hno].
    pose proof (lookup_lt_Some _ _ _ Hi) as Hlt.
    exists order, []. split; cbn [senders wire w_wl].
    + by rewrite length_insert.
    + done.
    + intros j. rewrite Hord. destruct (decide (i = j)) as [->|Hne].
      * rewrite list_lookup_insert_eq, Hi by done. split; intros [=].
      * by rewrite list_lookup_insert_ne.
    + intros j m. destruct (decide (i = j)) as [->|Hne].
      * by rewrite list_lookup_insert_eq.
      * rewrite list_lookup_insert_ne by done. apply Hwait.
    + done.
    + exists i, msg. split; [by apply list_lookup_insert_eq|].
      split; [by rewrite (Hwait i msg Hi)|].
      intros j todo'. destruct (decide (i = j)) as [->|Hne]; [done|].
      rewrite list_lookup_insert_ne by done. intros Hj. by destruct (Hno j todo').
  - (* the deferred [c.wl.Unlock()] *)
    destruct (run_inv_writing _ _ _ _ _ _ Hinv Hi) as (Hwl & Hline & Huniq).
    destruct Hinv as [Hlen Hnd Hord Hwait Hwire Hlock].
    pose proof (lookup_lt_Some _ _ _ Hi) as Hlt.
    exists (order ++ [i]), []. split; cbn [senders wire w_wl].
    + by rewrite length_insert.
    + apply NoDup_app. split; [done|]. split; [|apply NoDup_singleton].
      intros j Hj ->%list_elem_of_singleton.
      apply Hord in Hj. congruence.
    + intros j. rewrite elem_of_app, list_elem_of_singleton, Hord.
      destruct (decide (i = j)) as [->|Hne].
      * rewrite list_lookup_insert_eq by done. tauto.
      * rewrite list_lookup_insert_ne by done. split; [|tauto].
        intros [?|?]; [done|congruence].
    + intros j m. destruct (decide (i = j)) as [->|Hne].
      * by rewrite list_lookup_insert_eq.
      * rewrite list_lookup_insert_ne by done. apply Hwait.
    + rewrite wire_of_snoc, Hline, Hwire. by rewrite !app_nil_r.
    + split; [done|]. intros j todo'.
      destruct (decide (i = j)) as [->|Hne].
      * by rewrite list_lookup_insert_eq.
      * rewrite list_lookup_insert_ne by done. intros Hj.
        by pose proof (Huniq j todo' Hj).
  - (* one more byte reaches the wire *)
    destruct (run_inv_writing _ _ _ _ _ _ Hinv Hi) as (Hwl & Hline & Huniq).
    destruct Hinv as [Hlen Hnd Hord Hwait Hwire Hlock].
    pose proof (lookup_lt_Some _ _ _ Hi) as Hlt.
    exists order, (pre ++ [b]). split; cbn [senders wire w_wl].
    + by rewrite length_insert.
    + done.
    + intros j. rewrite Hord. destruct (decide (i = j)) as [->|Hne].
      * rewrite list_lookup_insert_eq, Hi by done. split; intros [=].
      * by rewrite list_lookup_insert_ne.
    + intros j m. destruct (decide (i = j)) as [->|Hne].
      * by rewrite list_lookup_insert_eq.
      * rewrite list_lookup_insert_ne by done. apply Hwait.
    + by rewrite Hwire, app_assoc.
    + rewrite Hwl. exists i, todo. split; [by apply list_lookup_insert_eq|].
      split; [by rewrite Hline, <- app_assoc|].
      intros j todo'. destruct (decide (i = j)) as [->|Hne]; [done|].
      rewrite list_lookup_insert_ne by done. apply Huniq.
Qed.

Lemma run_inv_run (lines : list gostring) (sched : list nat) (w : world)
    (order : list nat) (pre : gostring) :
  run_inv lines w order pre →
  ∃ order' pre', run_inv lines (run sched w) order' pre'.
Proof.
  revert w order pre. induction sched as [|i sched IH]; intros w order pre Hinv.
  - by exists order, pre.
  - destruct (run_inv_step lines w order pre i Hinv) as (order1 & pre1 & H1).
    exact (IH _ _ _ H1).
Qed.

Lemma line_of_lookup (lines : list gostring) (i : nat) (x : gostring) :
  lines !! i = Some x → line_of lines i = x.
Proof. unfold line_of. by intros ->. Qed.

Lemma map_line_of_seq (lines : list gostring) :
  line_of lines <$> seq 0 (length lines) = lines.
Proof.
  apply list_eq. intros i. rewrite list_lookup_fmap.
  destruct (decide (i < length lines)%nat) as [Hlt|Hge].
  - rewrite lookup_seq_lt by done. simpl.
    destruct (lookup_lt_is_Some_2 lines i Hlt) as [x Hx].
    by rewrite (line_of_lookup _ _ _ Hx).
  - rewrite lookup_seq_ge, lookup_ge_None_2 by lia. done.
Qed.

Lemma all_finished_lookup (w : world) (j : nat) :
  all_finished w = true → (j < length (senders w))%nat →
  senders w !! j = Some Finished.
Proof.
  unfold all_finished. intros Hall Hlt.
  destruct (lookup_lt_is_Some_2 _ _ Hlt) as [s Hs]. rewrite Hs.
  rewrite forallb_forall in Hall.
  specialize (Hall s). rewrite <- list_elem_of_In in Hall.
  specialize (Hall (list_elem_of_lookup_2 _ _ _ Hs)).
  by destruct s.
Qed.

(** Claim C9.  Any number of goroutines call [Send] on one connection,
    each with its own line, and are interleaved by an arbitrary schedule,
    the stream taking one byte at a time.  At every moment the bytes on
    the wire are the complete terminated lines of some of the calls, one
    after the other, followed by the part written so far by the one call
    that holds the write mutex, if any; no two calls' bytes are mixed.
    Once all calls have returned, the wire holds exactly the terminated
    lines of all calls, each contiguous, in some order. *)
Theorem concurrent_Send_lines_whole (lines : list gostring)
    (sched : list nat) :
  ∃ (order : list gostring) (pre : gostring),
    wire (run sched (start lines)) = concat (map terminated order) ++ pre ∧
    order ⊆+ lines ∧
    (if w_wl (run sched (start lines))
     then ∃ l todo, l :: order ⊆+ lines ∧ terminated l = pre ++ todo
     else pre = []) ∧
    (all_finished (run sched (start lines)) = true → order ≡ₚ lines).
Proof.
  destruct (run_inv_run lines sched _ _ _ (run_inv_start lines))
    as (idx & pre & [Hlen Hnd Hord Hwait Hwire Hlock]).
  set (w := run sched (start lines)) in *.
  assert (∀ j, j ∈ idx → j ∈ seq 0 (length lines)) as Hin.
  { intros j Hj%Hord%lookup_lt_Some. apply elem_of_seq. lia. }
  exists (line_of lines <$> idx), pre. split; [|split; [|split]].
  - rewrite Hwire. unfold wire_of. f_equal. f_equal.
    change (map terminated (line_of lines <$> idx))
      with (terminated <$> (line_of lines <$> idx)).
    by rewrite <- list_fmap_compose.
  - assert (line_of lines <$> idx ⊆+ line_of lines <$> seq 0 (length lines))
      as Hsub by by apply fmap_submseteq, NoDup_submseteq.
    by rewrite map_line_of_seq in Hsub.
  - destruct (w_wl w); [|by destruct Hlock].
    destruct Hlock as (i & todo & Hi & Hline & _).
    exists (line_of lines i), todo. split; [|done].
    assert (line_of lines <$> (i :: idx)
            ⊆+ line_of lines <$> seq 0 (length lines)) as Hsub.
    { apply fmap_submseteq, NoDup_submseteq.
      - constructor; [|done]. intros Hi'%Hord. congruence.
      - intros j [->|Hj]%elem_of_cons; [|by apply Hin].
        apply lookup_lt_Some in Hi. apply elem_of_seq. lia. }
    by rewrite map_line_of_seq in Hsub.
  - intros Hall.
    assert (line_of lines <$> idx ≡ₚ line_of lines <$> seq 0 (length lines))
      as Hperm.
    { apply fmap_Permutation, NoDup_Permutation; [done|apply NoDup_seq|].
      intros j. split; [apply Hin|].
      intros Hj%elem_of_seq. apply Hord, all_finished_lookup; [done|lia]. }
    by rewrite map_line_of_seq in Hperm.
Qed.

(** Two calls whose steps are interleaved by the scheduler: the second
    goroutine finds the mutex held and waits, and both lines are whole. *)
Example concurrent_Send_two :
  let w := run [0; 1; 0; 1; 0; 0; 1; 0; 1; 1; 1; 1; 1]%nat
               (start [str "a"; str "b"]) in
  all_finished w = true ∧
  wire w = terminated (str "a") ++ terminated (str "b").
Proof. split; reflexivity. Qed.

(** Without the mutex the same schedule mixes the bytes of the calls. *)
Example unlocked_Send_two_interleaved :
  wire (foldl sched_step_unlocked (start [str "a"; str "b"])
          [0; 1; 0; 1; 0; 0; 1; 0; 1; 1; 1; 1; 1]%nat)
  = str "ab" ++ crlf ++ crlf.
Proof. reflexivity. Qed.

(** ** The senders never get stuck, and they can all return *)

Lemma forallb_false_lookup {A} (f : A → bool) (l : list A) :
  forallb f l = false → ∃ i x, l !! i = Some x ∧ f x = false.
Proof.
  induction l as [|a l IH]; [done|]. simpl.
  destruct (f a) eqn:Ha; simpl.
  - intros (i & x & Hi & Hx)%IH. by exists (S i), x.
  - intros _. by exists 0%nat, a.
Qed.

(** In every state of a run in which some call has not returned, some
    goroutine can take a step: the mutex protocol cannot deadlock. *)
Lemma run_inv_progress (lines : list gostring) (w : world)
    (order : list nat) (pre : gostring) :
  run_inv lines w order pre →
  all_finished w = false →
  ∃ i, sched_step w i ≠ w.
Proof.
  intros [_ _ _ _ _ Hlock] (j & s & Hj & Hs)%forallb_false_lookup.
  destruct (w_wl w) eqn:Hwl.
  - destruct Hlock as (i & todo & Hi & _). exists i.
    unfold sched_step. rewrite Hi. destruct todo as [|b todo].
    + intros Heq%(f_equal w_wl). simpl in Heq. congruence.
    + intros Heq%(f_equal (length ∘ wire)). simpl in Heq.
      rewrite length_app in Heq. simpl in Heq. lia.
  - destruct Hlock as [_ Hno]. exists j. unfold sched_step. rewrite Hj.
    destruct s as [msg|todo|]; [|by destruct (Hno j todo)|done].
    rewrite Hwl. intros Heq%(f_equal w_wl). simpl in Heq. congruence.
Qed.

Lemma run_app (s1 s2 : list nat) (w : world) :
  run (s1 ++ s2) w = run s2 (run s1 w).
Proof. apply foldl_app. Qed.

Lemma run_cons (i : nat) (sched : list nat) (w : world) :
  run (i :: sched) w = run sched (sched_step w i).
Proof. reflexivity. Qed.

Lemma insert_middle {A} (l1 l2 : list A) (x y : A) :
  <[length l1 := x]> (l1 ++ y :: l2) = l1 ++ x :: l2.
Proof.
  rewrite <- (Nat.add_0_r (length l1)). by rewrite insert_app_r.
Qed.

(** A goroutine inside [Write], scheduled once per byte that is left,
    puts these bytes on the wire. *)
Lemma run_bytes (fin rest : list sender) (todo wire0 : gostring) (b : bool) :
  run (replicate (length todo) (length fin))
      (mkWorld b wire0 (fin ++ Writing todo :: rest))
  = mkWorld b (wire0 ++ todo) (fin ++ Writing [] :: rest).
Proof.
  revert wire0. induction todo as [|x todo IH]; intros wire0.
  - by rewrite app_nil_r.
  - cbn [length replicate]. rewrite run_cons. unfold sched_step at 1.
    cbn [senders wire w_wl].
    rewrite list_lookup_middle by done. rewrite insert_middle.
    rewrite IH. by rewrite <- app_assoc.
Qed.

(** One whole call: [Lock], the bytes, [Unlock]. *)
Lemma run_call (fin rest : list sender) (msg wire0 : gostring) :
  run (replicate (length msg + 2) (length fin))
      (mkWorld false wire0 (fin ++ Waiting msg :: rest))
  = mkWorld false (wire0 ++ msg) ((fin ++ [Finished]) ++ rest).
Proof.
  replace (length msg + 2)%nat with (S (length msg + 1)) by lia.
  rewrite replicate_S, replicate_add. cbn [replicate].
  rewrite run_cons. unfold sched_step at 1. cbn [senders wire w_wl].
  rewrite list_lookup_middle by done. rewrite insert_middle.
  rewrite run_app, run_bytes.
  rewrite run_cons. unfold sched_step. cbn [senders wire w_wl run foldl].
  rewrite list_lookup_middle by done. rewrite insert_middle.
  by rewrite <- app_assoc.
Qed.

Lemma run_one_by_one (lines : list gostring) (fin : list sender)
    (wire0 : gostring) :
  run (one_by_one (length fin) lines)
      (mkWorld false wire0 (fin ++ map (λ l, Waiting (terminated l)) lines))
  = mkWorld false (wire0 ++ concat (map terminated lines))
            (fin ++ replicate (length lines) Finished).
Proof.
  revert fin wire0. induction lines as [|l lines IH]; intros fin wire0.
  - simpl. by rewrite !app_nil_r.
  - cbn [one_by_one map]. rewrite run_app, run_call.
    replace (S (length fin)) with (length (fin ++ [Finished]))
      by (rewrite length_app; simpl; lia).
    rewrite IH. cbn [length replicate concat map].
    by rewrite <- !app_assoc.
Qed.

(** For every list of lines there is a schedule on which all calls
    return; on the schedule [one_by_one] the wire then holds the lines in
    the order of the calls. *)
Lemma one_by_one_all_return (lines : list gostring) :
  all_finished (run (one_by_one 0 lines) (start lines)) = true ∧
  wire (run (one_by_one 0 lines) (start lines))
  = concat (map terminated lines).
Proof.
  pose proof (run_one_by_one lines [] []) as Hrun.
  cbn [app length] in Hrun. unfold start. rewrite Hrun. cbn [app wire].
  split; [|done]. unfold all_finished. cbn [senders]. clear Hrun.
  induction (length lines) as [|n IH]; [done|]. simpl. exact IH.
Qed.

(** * The first revision of the parser, for comparison

    What [irc/irc.go] guards against: the first revision panics on the
    empty line and on a line that ends right after the command's space,
    leaves [Params] nil when the line has no params, and keeps a lone
    colon as the text. *)

Example Legacy_empty_line_panics : Legacy.ParseMessage [] = None.
Proof. reflexivity. Qed.

Example Legacy_trailing_space_panics :
  Legacy.ParseMessage (str "PING ") = None.
Proof. reflexivity. Qed.

Example Legacy_nil_params :
  Legacy.ParseMessage (str "PING") =
  Some (Legacy.mkMessage (str "PING") Nil [] (str "PING") [] []).
Proof. reflexivity. Qed.

Example Legacy_lone_colon_text :
  Legacy.ParseMessage (str "PING :") =
  Some (Legacy.mkMessage (str "PING") Nil [] (str "PING :") [] (str ":")).
Proof. reflexivity. Qed.

Example Legacy_privmsg :
  Legacy.ParseMessage (str ":nick!user@host PRIVMSG #chan :hello world") =
  Some (Legacy.mkMessage (str "PRIVMSG") (Slice [str "#chan"])
          (str "nick!user@host")
          (str ":nick!user@host PRIVMSG #chan :hello world")
          (str "user") (str "hello world")).
Proof. reflexivity. Qed.

(** * More about the library functions: cutting and splitting *)

Lemma index_of_byte_None (c : ascii) (s : gostring) :
  index_of s [c] = None → c ∉ s.
Proof.
  intros Hi. destruct (index_of_byte_cases c s) as [Hc|(a & b & -> & Hc)];
    [done|]. by rewrite index_of_byte_app in Hi.
Qed.

(** Every piece of [strings.Split(s, sep)], for a one-byte [sep], is free
    of that byte. *)
Lemma genSplit_Count_loop_notin (c : ascii) (fuel : nat) (s : gostring) :
  (length s ≤ fuel)%nat →
  Forall (λ x, c ∉ x) (genSplit (Count_loop fuel s [c]) s [c]).
Proof.
  revert s. induction fuel as [|fuel IH]; intros s Hlen.
  - destruct s; [|simpl in Hlen; lia]. simpl.
    constructor; [apply not_elem_of_nil|constructor].
  - cbn [Count_loop]. destruct (index_of s [c]) as [i|] eqn:Hi.
    + cbn [genSplit]. rewrite Hi. constructor.
      * apply index_of_byte_None. by apply (index_of_take_None _ _ _ Hi).
      * apply IH. pose proof (index_of_bound _ _ _ Hi) as Hb.
        rewrite length_drop. simpl in *. lia.
    + cbn [genSplit]. constructor; [by apply index_of_byte_None|constructor].
Qed.

Lemma Split_byte_notin (c : ascii) (s : gostring) :
  Forall (λ x, c ∉ x) (elems (Split s [c])).
Proof. by apply genSplit_Count_loop_notin. Qed.

Lemma Join_cons2 (e e' : gostring) (es : list gostring) (sep : gostring) :
  Join (e :: e' :: es) sep = e ++ sep ++ Join (e' :: es) sep.
Proof. reflexivity. Qed.

Lemma drop_byte_app (c : ascii) (e r : gostring) :
  drop (length e + length [c]) (e ++ c :: r) = r.
Proof.
  rewrite cons_middle, app_assoc, <- length_app. apply drop_app_length.
Qed.

Lemma genSplit_Join (c : ascii) (es : list gostring) (n : nat) :
  es ≠ [] → Forall (λ x, c ∉ x) es → (length es ≤ S n)%nat →
  genSplit n (Join es [c]) [c] = es.
Proof.
  revert n. induction es as [|e es IH]; intros n Hne Hall Hn; [done|].
  apply Forall_cons in Hall as [He Hall]. destruct es as [|e' es].
  - cbn [Join]. destruct n; cbn [genSplit]; [done|].
    by rewrite index_of_byte_notin.
  - rewrite Join_cons2. destruct n; [simpl in Hn; lia|].
    cbn [genSplit]. change ([c] ++ ?r) with (c :: r).
    rewrite index_of_byte_app by done.
    rewrite take_app_length, drop_byte_app.
    f_equal. apply IH; [done|done|simpl in *; lia].
Qed.

Lemma Count_loop_Join (c : ascii) (es : list gostring) (fuel : nat) :
  es ≠ [] → Forall (λ x, c ∉ x) es → (length es ≤ S fuel)%nat →
  S (Count_loop fuel (Join es [c]) [c]) = length es.
Proof.
  revert fuel. induction es as [|e es IH]; intros fuel Hne Hall Hn; [done|].
  apply Forall_cons in Hall as [He Hall]. destruct es as [|e' es].
  - cbn [Join]. destruct fuel; cbn [Count_loop]; [done|].
    by rewrite index_of_byte_notin.
  - rewrite Join_cons2. destruct fuel; [simpl in Hn; lia|].
    cbn [Count_loop]. change ([c] ++ ?r) with (c :: r).
    rewrite index_of_byte_app by done. rewrite drop_byte_app.
    cbn [length]. f_equal. apply IH; [done|done|simpl in *; lia].
Qed.

Lemma length_Join (c : ascii) (es : list gostring) :
  (length es ≤ S (length (Join es [c])))%nat.
Proof.
  induction es as [|e es IH]; [simpl; lia|]. destruct es as [|e' es].
  - simpl. lia.
  - rewrite Join_cons2, !length_app. simpl in *. lia.
Qed.

(** Splitting what was joined gives the pieces back, when no piece holds
    the separator byte. *)
Lemma Split_Join (c : ascii) (es : list gostring) :
  es ≠ [] → Forall (λ x, c ∉ x) es →
  Split (Join es [c]) [c] = Slice es.
Proof.
  intros Hne Hall. unfold Split, SplitN. cbn [Z.eqb Z.ltb Z.compare].
  f_equal. unfold Count. apply genSplit_Join; [done..|].
  rewrite Count_loop_Join; [done..|]. apply length_Join.
Qed.

(** * More about the parser *)

(** ** [split2] *)

(** [split2] never panics.  It cuts at the first instance of a non-empty
    separator: when [strings.Index] finds none, the first piece is the
    whole string and the second is empty; otherwise the string is the
    first piece, the separator and the second piece, and the first piece
    ends where [strings.Index] points.  The first piece never holds the
    separator. *)
Theorem split2_first_instance (s sep : gostring) :
  sep ≠ [] →
  ∃ a b, split2 s sep = Some (a, b) ∧
         index_of a sep = None ∧
         (if Index s sep <? 0 then a = s ∧ b = []
          else s = a ++ sep ++ b ∧ len a = Index s sep).
Proof.
  intros Hsep. rewrite split2_cut. unfold cut, Index.
  destruct (index_of s sep) as [m|] eqn:Hm.
  - exists (take m s), (drop (m + length sep) s). split; [done|].
    split; [by apply (index_of_take_None _ _ _ Hm)|].
    destruct (Z.ltb_spec (Z.of_nat m) 0) as [?|_]; [lia|].
    split; [by apply index_of_split|].
    pose proof (index_of_bound _ _ _ Hm). unfold len.
    rewrite length_take. lia.
  - exists s, []. split; [done|]. split; [done|]. done.
Qed.

Lemma split2_first_instance_witness :
  ∃ a b, split2 (str "#chan :hello :)") (str " :") = Some (a, b) ∧
         index_of a (str " :") = None ∧
         (if Index (str "#chan :hello :)") (str " :") <? 0
          then a = str "#chan :hello :)" ∧ b = []
          else str "#chan :hello :)" = a ++ str " :" ++ b ∧
               len a = Index (str "#chan :hello :)") (str " :")).
Proof.
  apply (split2_first_instance (str "#chan :hello :)") (str " :")).
  discriminate.
Defined.

(** ** The prefix *)

Lemma ParseMessage_prefix_line (body rest : gostring) :
  " "%char ∉ body →
  rest = [] ∨ HasPrefix rest (str " ") = true →
  ∃ m, ParseMessage (str ":" ++ body ++ rest) = Some m ∧
       MsgPrefix m = Some (decompose body).
Proof.
  intros Hb Hrest. exists (parse (str ":" ++ body ++ rest)).
  split; [apply ParseMessage_parse|].
  rewrite parse_unfold. cbn [MsgPrefix]. by rewrite parse_prefix_line.
Qed.

(** A prefix body with ['@'] and no ['!']: the name is what stands before
    the first ['@'], the host everything after it, the user is empty. *)
Theorem ParseMessage_at_without_bang (body rest : gostring) :
  " "%char ∉ body →
  rest = [] ∨ HasPrefix rest (str " ") = true →
  "@"%char ∈ body → "!"%char ∉ body →
  ∃ m p n h, ParseMessage (str ":" ++ body ++ rest) = Some m ∧
    MsgPrefix m = Some p ∧
    body = n ++ str "@" ++ h ∧ ("@"%char ∉ n) ∧
    Name p = n ∧ User p = [] ∧ Host p = h.
Proof.
  intros Hsp Hrest Hin Hbang.
  destruct (ParseMessage_prefix_line body rest Hsp Hrest) as (m & Hm & Hp).
  apply list_elem_of_split_l in Hin as (n & h & -> & Hn).
  apply not_elem_of_app in Hbang as [Hb1 Hb2].
  apply not_elem_of_cons in Hb2 as [_ Hb2].
  exists m, (decompose (n ++ "@"%char :: h)), n, h.
  rewrite decompose_at in * by done. done.
Qed.

Lemma ParseMessage_at_without_bang_witness :
  ∃ m p n h, ParseMessage (str ":nick@host PING") = Some m ∧
    MsgPrefix m = Some p ∧
    str "nick@host" = n ++ str "@" ++ h ∧ ("@"%char ∉ n) ∧
    Name p = n ∧ User p = [] ∧ Host p = h.
Proof.
  apply (ParseMessage_at_without_bang (str "nick@host") (str " PING")).
  - cbn [list_ascii_of_string]. unfold not.
    repeat rewrite ?elem_of_cons, ?elem_of_nil. intuition discriminate.
  - right. reflexivity.
  - cbn [list_ascii_of_string]. repeat rewrite ?elem_of_cons. tauto.
  - cbn [list_ascii_of_string]. unfold not.
    repeat rewrite ?elem_of_cons, ?elem_of_nil. intuition discriminate.
Defined.

(** The full form [name!user@host]: with a non-empty name free of ['!']
    and ['@'] and a user free of ['@'], the three fields are the three
    parts, whatever further ['!'] the user or ['!'] and ['@'] the host
    hold. *)
Theorem ParseMessage_name_user_host (n u h rest : gostring) :
  n ≠ [] → " "%char ∉ n ++ u ++ h →
  "!"%char ∉ n → "@"%char ∉ n → "@"%char ∉ u →
  rest = [] ∨ HasPrefix rest (str " ") = true →
  ∃ m, ParseMessage (str ":" ++ (n ++ str "!" ++ u ++ str "@" ++ h) ++ rest)
       = Some m ∧
       MsgPrefix m = Some {| Name := n; User := u; Host := h |}.
Proof.
  intros Hn Hsp Hb Ha Hu Hrest.
  destruct (ParseMessage_prefix_line (n ++ str "!" ++ u ++ str "@" ++ h) rest)
    as (m & Hm & Hp); [|done|].
  - revert Hsp. cbn [list_ascii_of_string app]. unfold not.
    repeat rewrite ?elem_of_app, ?elem_of_cons, ?elem_of_nil.
    intuition discriminate.
  - exists m. split; [done|]. rewrite Hp. f_equal.
    by apply decompose_bang_at.
Qed.

Lemma ParseMessage_name_user_host_witness :
  ∃ m, ParseMessage
         (str ":" ++ (str "nick" ++ str "!" ++ str "~user" ++ str "@"
                      ++ str "host.example") ++ str " QUIT")
       = Some m ∧
       MsgPrefix m = Some {| Name := str "nick"; User := str "~user";
                             Host := str "host.example" |}.
Proof.
  apply (ParseMessage_name_user_host (str "nick") (str "~user")
           (str "host.example") (str " QUIT")).
  - discriminate.
  - cbn [list_ascii_of_string app]. unfold not.
    repeat rewrite ?elem_of_cons, ?elem_of_nil. intuition discriminate.
  - cbn [list_ascii_of_string]. unfold not.
    repeat rewrite ?elem_of_cons, ?elem_of_nil. intuition discriminate.
  - cbn [list_ascii_of_string]. unfold not.
    repeat rewrite ?elem_of_cons, ?elem_of_nil. intuition discriminate.
  - cbn [list_ascii_of_string]. unfold not.
    repeat rewrite ?elem_of_cons, ?elem_of_nil. intuition discriminate.
  - right. reflexivity.
Defined.

(** The separators in the other order: when the first ['@'] stands before
    the first ['!'], it is not taken as the host separator.  The name is
    everything before the first ['!'], ['@'] included, the user everything
    after it, and the host is empty. *)
Theorem ParseMessage_at_before_bang (a b rest : gostring) :
  " "%char ∉ a ++ b →
  "@"%char ∈ a → "!"%char ∉ a →
  rest = [] ∨ HasPrefix rest (str " ") = true →
  ∃ m, ParseMessage (str ":" ++ (a ++ str "!" ++ b) ++ rest) = Some m ∧
       MsgPrefix m = Some {| Name := a; User := b; Host := [] |}.
Proof.
  intros Hsp Hat Hb Hrest.
  destruct (ParseMessage_prefix_line (a ++ str "!" ++ b) rest)
    as (m & Hm & Hp); [|done|].
  - revert Hsp. cbn [list_ascii_of_string app]. unfold not.
    repeat rewrite ?elem_of_app, ?elem_of_cons, ?elem_of_nil.
    intuition discriminate.
  - exists m. split; [done|]. rewrite Hp. f_equal.
    apply decompose_bang; [|done|by left].
    intros ->. by apply elem_of_nil in Hat.
Qed.

Lemma ParseMessage_at_before_bang_witness :
  ∃ m, ParseMessage (str ":" ++ (str "a@b" ++ str "!" ++ str "c@d")
                     ++ str " PING") = Some m ∧
       MsgPrefix m = Some {| Name := str "a@b"; User := str "c@d";
                             Host := [] |}.
Proof.
  apply (ParseMessage_at_before_bang (str "a@b") (str "c@d") (str " PING")).
  - cbn [list_ascii_of_string app]. unfold not.
    repeat rewrite ?elem_of_cons, ?elem_of_nil. intuition discriminate.
  - cbn [list_ascii_of_string]. repeat rewrite ?elem_of_cons. tauto.
  - cbn [list_ascii_of_string]. unfold not.
    repeat rewrite ?elem_of_cons, ?elem_of_nil. intuition discriminate.
  - right. reflexivity.
Defined.

(** A line that does not start with a colon, the same line behind an
    empty prefix body ([": "]) and behind the body ["@"] ([":@ "]) all
    parse to the same command, params and text and to the all-empty
    prefix: the prefix of a message does not tell whether the line had
    one. *)
Theorem empty_prefix_body_same_fields (l : gostring) :
  HasPrefix l (str ":") = false →
  ∃ m m1 m2,
    ParseMessage l = Some m ∧
    ParseMessage (str ": " ++ l) = Some m1 ∧
    ParseMessage (str ":@ " ++ l) = Some m2 ∧
    MsgPrefix m = Some new_Prefix ∧
    same_fields m1 m ∧ same_fields m2 m.
Proof.
  intros Hl. exists (parse l), (parse (str ": " ++ l)), (parse (str ":@ " ++ l)).
  rewrite !ParseMessage_parse, !parse_unfold.
  assert (parse_prefix l = (new_Prefix, l)) as ->
    by (unfold parse_prefix; by rewrite Hl).
  assert (parse_prefix (str ": " ++ l) = (new_Prefix, l)) as ->.
  { apply (parse_prefix_colon_line [] l), not_elem_of_nil. }
  assert (parse_prefix (str ":@ " ++ l) = (new_Prefix, l)) as ->.
  { apply (parse_prefix_colon_line (str "@") l).
    cbn [list_ascii_of_string]. unfold not.
    repeat rewrite ?elem_of_cons, ?elem_of_nil. intuition discriminate. }
  done.
Qed.

Lemma empty_prefix_body_same_fields_witness :
  ∃ m m1 m2,
    ParseMessage (str "PING :x") = Some m ∧
    ParseMessage (str ": " ++ str "PING :x") = Some m1 ∧
    ParseMessage (str ":@ " ++ str "PING :x") = Some m2 ∧
    MsgPrefix m = Some new_Prefix ∧
    same_fields m1 m ∧ same_fields m2 m.
Proof.
  apply (empty_prefix_body_same_fields (str "PING :x")). reflexivity.
Defined.

(** ** What the fields never hold *)

Lemma decompose_notin (c : ascii) (head : gostring) :
  c ∉ head →
  (c ∉ Name (decompose head)) ∧ (c ∉ User (decompose head)) ∧
  (c ∉ Host (decompose head)).
Proof.
  pose proof (body_shape_total head) as Hs.
  destruct Hs as [s Hu Hh|a b Ha Hu Hh|s Hh|a b Hu Hh Hub
                 |a b1 b2 Ha Hu Hh Hh1|b1 b2 Hh1];
    cbn [Name User Host]; unfold not in *;
    repeat rewrite ?elem_of_app, ?elem_of_cons, ?elem_of_nil; tauto.
Qed.

(** For every input, the command, every param and the three prefix
    fields are free of spaces, and the prefix pointer is not nil. *)
Theorem fields_hold_no_space (l : gostring) :
  ∃ m p, ParseMessage l = Some m ∧ MsgPrefix m = Some p ∧
    (" "%char ∉ Command m) ∧
    Forall (λ x, " "%char ∉ x) (elems (Params m)) ∧
    (" "%char ∉ Name p) ∧ (" "%char ∉ User p) ∧ (" "%char ∉ Host p).
Proof.
  exists (parse l), (parse_prefix l).1.
  split; [apply ParseMessage_parse|]. rewrite parse_unfold.
  cbn [Command Params MsgPrefix]. split; [done|].
  split; [apply (cut_fst_byte_notin " "%char)|]. split.
  - unfold parse_params_text. destruct (no_params _); cbn [fst elems].
    + constructor.
    + apply (Split_byte_notin " "%char).
  - destruct (parse_prefix_shape l) as [->|(head & Hsp & ->)].
    + repeat split; apply not_elem_of_nil.
    + by apply decompose_notin.
Qed.

Lemma suffix_cut_snd (s sep : gostring) : (cut s sep).2 `suffix_of` s.
Proof.
  unfold cut. destruct (index_of s sep); cbn [snd].
  - apply suffix_drop.
  - apply suffix_nil.
Qed.

Lemma suffix_strip_colon (l : gostring) : strip_colon l `suffix_of` l.
Proof.
  unfold strip_colon. destruct (HasPrefix l (str ":")); [|done].
  apply suffix_drop.
Qed.

(** For every input, the text is a suffix of the line: the parser never
    puts into the text a byte that does not end the line. *)
Theorem text_is_suffix_of_line (l : gostring) :
  ∃ m, ParseMessage l = Some m ∧ Txt m `suffix_of` l.
Proof.
  exists (parse l). split; [apply ParseMessage_parse|].
  rewrite parse_unfold. cbn [Txt].
  assert ((parse_prefix l).2 `suffix_of` l) as H1.
  { unfold parse_prefix. destruct (HasPrefix l (str ":")); cbn [snd]; [|done].
    etrans; [apply suffix_cut_snd|apply suffix_drop]. }
  assert (∀ x, (parse_params_text x).2 `suffix_of` x) as H2.
  { intros x. unfold parse_params_text. destruct (no_params x); cbn [snd].
    - apply suffix_strip_colon.
    - etrans; [apply suffix_strip_colon|apply suffix_cut_snd]. }
  etrans; [apply H2|]. etrans; [apply suffix_cut_snd|apply H1].
Qed.

(** ** Lines of a given form *)

(** The prefix section in front of a command, as in the single-colon
    property: none, with the command not starting with a colon, or
    [":" ++ body ++ " "] with a body free of spaces. *)
Lemma parse_after_prefix (pre rest : gostring) :
  (pre = [] ∧ HasPrefix rest (str ":") = false)
  ∨ (∃ body, (" "%char ∉ body) ∧ pre = str ":" ++ body ++ str " ") →
  (parse_prefix (pre ++ rest)).2 = rest.
Proof.
  intros [[-> Hr]|(body & Hb & ->)].
  - unfold parse_prefix. cbn [app]. by rewrite Hr.
  - rewrite <- !app_assoc. cbn [list_ascii_of_string app].
    by rewrite parse_prefix_colon_line.
Qed.

(** A line whose text section follows the command directly: the params
    are the empty non-nil slice and the text is everything after the
    [" :"], verbatim, whatever spaces and colons it holds. *)
Theorem ParseMessage_text_verbatim (pre cmd t : gostring) :
  " "%char ∉ cmd →
  (pre = [] ∧ HasPrefix cmd (str ":") = false)
  ∨ (∃ body, (" "%char ∉ body) ∧ pre = str ":" ++ body ++ str " ") →
  ∃ m, ParseMessage (pre ++ cmd ++ str " :" ++ t) = Some m ∧
       Command m = cmd ∧ Params m = Slice [] ∧ Txt m = t.
Proof.
  intros Hcmd Hpre. exists (parse (pre ++ cmd ++ str " :" ++ t)).
  split; [apply ParseMessage_parse|]. rewrite parse_unfold.
  cbn [Command Params Txt]. rewrite parse_after_prefix.
  - change (cmd ++ str " :" ++ t) with (cmd ++ " "%char :: ":"%char :: t).
    rewrite (cut_byte_app " "%char) by done. cbn [fst snd].
    unfold parse_params_text, strip_colon. cbn. by rewrite drop_0.
  - destruct Hpre as [[-> Hc]|?]; [left|by right]. split; [done|].
    destruct cmd; [done|]. done.
Qed.

Lemma ParseMessage_text_verbatim_witness :
  ∃ m, ParseMessage ([] ++ str "TOPIC" ++ str " :" ++ str ":a :b  c") = Some m ∧
       Command m = str "TOPIC" ∧ Params m = Slice [] ∧
       Txt m = str ":a :b  c".
Proof.
  apply (ParseMessage_text_verbatim [] (str "TOPIC") (str ":a :b  c")).
  - cbn [list_ascii_of_string]. unfold not.
    repeat rewrite ?elem_of_cons, ?elem_of_nil. intuition discriminate.
  - left. split; reflexivity.
Defined.

(** A line with a params section [ph] (not empty, not starting with a
    colon, without [" :"]) followed by a text section: the params are the
    pieces of [ph] between single spaces, and the text is what follows the
    [" :"] less one more leading colon, if it has one. *)
Theorem ParseMessage_params_then_text (pre cmd ph t : gostring) :
  " "%char ∉ cmd →
  (pre = [] ∧ HasPrefix cmd (str ":") = false)
  ∨ (∃ body, (" "%char ∉ body) ∧ pre = str ":" ++ body ++ str " ") →
  ph ≠ [] → HasPrefix ph (str ":") = false →
  index_of ph (str " :") = None →
  ∃ m, ParseMessage (pre ++ cmd ++ str " " ++ ph ++ str " :" ++ t) = Some m ∧
       Command m = cmd ∧ Params m = Split ph (str " ") ∧
       (HasPrefix t (str ":") = false → Txt m = t) ∧
       (∀ t', t = str ":" ++ t' → Txt m = t').
Proof.
  intros Hcmd Hpre Hne Hph Hi.
  exists (parse (pre ++ cmd ++ str " " ++ ph ++ str " :" ++ t)).
  split; [apply ParseMessage_parse|]. rewrite parse_unfold.
  cbn [Command Params Txt]. rewrite parse_after_prefix.
  - change (cmd ++ str " " ++ ?r) with (cmd ++ " "%char :: r).
    rewrite (cut_byte_app " "%char) by done. cbn [fst snd].
    unfold parse_params_text.
    assert (no_params (ph ++ str " :" ++ t) = false) as ->
      by (destruct ph; done).
    rewrite cut_sp_colon_app by done. cbn [fst snd].
    split; [done|]. split; [done|]. split.
    + apply strip_colon_id.
    + intros t' ->. unfold strip_colon. cbn. by rewrite drop_0.
  - destruct Hpre as [[-> Hc]|?]; [left|by right]. split; [done|].
    destruct cmd; [done|]. done.
Qed.

Lemma ParseMessage_params_then_text_witness :
  ∃ m, ParseMessage ([] ++ str "PRIVMSG" ++ str " " ++ str "#chan"
                     ++ str " :" ++ str ":)") = Some m ∧
       Command m = str "PRIVMSG" ∧ Params m = Split (str "#chan") (str " ") ∧
       (HasPrefix (str ":)") (str ":") = false → Txt m = str ":)") ∧
       (∀ t', str ":)" = str ":" ++ t' → Txt m = t').
Proof.
  apply (ParseMessage_params_then_text [] (str "PRIVMSG") (str "#chan")
           (str ":)")).
  - cbn [list_ascii_of_string]. unfold not.
    repeat rewrite ?elem_of_cons, ?elem_of_nil. intuition discriminate.
  - left. split; reflexivity.
  - discriminate.
  - reflexivity.
  - reflexivity.
Defined.

(** A line without any colon: the prefix is all-empty, the text is empty,
    and the command and the params are the pieces of the line between
    single spaces, so that joining them by spaces gives the line back;
    only when the line ends right after the command's space is that
    space lost. *)
Theorem ParseMessage_colon_free (l : gostring) :
  ":"%char ∉ l →
  ∃ m, ParseMessage l = Some m ∧
       MsgPrefix m = Some new_Prefix ∧ Txt m = [] ∧
       match elems (Params m) with
       | [] => l = Command m ∨ l = Command m ++ str " "
       | ps => l = Join (Command m :: ps) (str " ")
       end.
Proof.
  intros Hc. exists (parse l). split; [apply ParseMessage_parse|].
  assert (∀ x, ":"%char ∉ x → HasPrefix x (str ":") = false) as Hhp.
  { intros [|y x] Hx; [done|]. apply not_elem_of_cons in Hx as [Hy _].
    cbn. destruct (Ascii.eqb_spec y ":"%char); [congruence|done]. }
  assert (∀ x, ":"%char ∉ x → index_of x (str " :") = None) as Hsc.
  { intros x Hx. destruct (index_of x (str " :")) as [k|] eqn:Hk; [|done].
    apply index_of_split in Hk. rewrite Hk in Hx. exfalso. apply Hx.
    cbn [list_ascii_of_string app].
    rewrite elem_of_app, !elem_of_cons. tauto. }
  rewrite parse_unfold. cbn [Command Params MsgPrefix Txt].
  unfold parse_prefix. rewrite (Hhp l Hc). cbn [fst snd].
  split; [done|].
  change (str " ") with [" "%char].
  destruct (index_of_byte_cases " "%char l) as [Hn|(c & l2 & -> & Hn)].
  - rewrite cut_byte_notin by done. cbn. split; [done|]. by left.
  - rewrite cut_byte_app by done. cbn [fst snd].
    apply not_elem_of_app in Hc as [Hc1 Hc2].
    apply not_elem_of_cons in Hc2 as [_ Hc2].
    unfold parse_params_text, no_params. rewrite (Hhp l2 Hc2), orb_false_r.
    destruct l2 as [|y l2]; cbn [is_empty fst snd elems].
    + split; [done|]. by right.
    + rewrite cut_None by by apply Hsc. cbn [fst snd]. split; [done|].
      change (str " ") with [" "%char].
      pose proof (Split_elems_nonempty (y :: l2) [" "%char]) as Hne.
      pose proof (Join_Split (y :: l2) [" "%char]) as HJ.
      destruct (elems (Split (y :: l2) [" "%char])) as [|e es]; [done|].
      rewrite Join_cons2, HJ. done.
Qed.

Lemma ParseMessage_colon_free_witness :
  ∃ m, ParseMessage (str "MODE #chan +o  nick") = Some m ∧
       MsgPrefix m = Some new_Prefix ∧ Txt m = [] ∧
       match elems (Params m) with
       | [] => str "MODE #chan +o  nick" = Command m
               ∨ str "MODE #chan +o  nick" = Command m ++ str " "
       | ps => str "MODE #chan +o  nick" = Join (Command m :: ps) (str " ")
       end.
Proof.
  apply (ParseMessage_colon_free (str "MODE #chan +o  nick")).
  cbn [list_ascii_of_string]. unfold not.
  repeat rewrite ?elem_of_cons, ?elem_of_nil. intuition discriminate.
Defined.

(** ** Writing a well-formed message and parsing it *)

Lemma well_formed_prefix_decompose (p : Prefix) :
  well_formed_prefix p → decompose (serialize_body p) = p.
Proof.
  destruct p as [n u h]. unfold well_formed_prefix, sep_free, serialize_body.
  cbn [Name User Host]. intros ((_ & Hn1 & Hn2) & (_ & _ & Hu2) &
                                (_ & Hh1 & _) & Hun).
  destruct u as [|y u], h as [|z h]; cbn [is_empty list_ascii_of_string app];
    rewrite ?app_nil_r.
  - by apply decompose_plain.
  - by apply decompose_at.
  - apply decompose_bang; auto.
  - apply (decompose_bang_at n (y :: u) (z :: h)); auto.
Qed.

Lemma well_formed_prefix_no_space (p : Prefix) :
  well_formed_prefix p → " "%char ∉ serialize_body p.
Proof.
  destruct p as [n u h]. unfold well_formed_prefix, sep_free, serialize_body.
  cbn [Name User Host]. intros ((Hn & _ & _) & (Hu & _ & _) & (Hh & _ & _) & _).
  destruct (is_empty u), (is_empty h); cbn [list_ascii_of_string app];
    unfold not in *;
    repeat rewrite ?elem_of_app, ?elem_of_cons, ?elem_of_nil;
    intuition discriminate.
Qed.

Lemma well_formed_prefix_wf (p : Prefix) :
  well_formed_prefix p → prefix_wf p.
Proof.
  intros ((_ & _ & Hn) & _ & (_ & Hh & _) & _) _. by right.
Qed.

Lemma HasPrefix_Join (ps : list gostring) :
  Forall (λ x, (" "%char ∉ x) ∧ HasPrefix x (str ":") = false) ps →
  HasPrefix (Join ps (str " ")) (str ":") = false.
Proof.
  destruct ps as [|e [|e' ps]]; [done|..].
  - by intros [[_ ?] _]%Forall_cons.
  - intros [[_ He] _]%Forall_cons. rewrite Join_cons2. by destruct e.
Qed.

Lemma index_of_sp_colon_app_None (e r : gostring) :
  " "%char ∉ e → HasPrefix r (str " :") = false →
  index_of r (str " :") = None →
  index_of (e ++ r) (str " :") = None.
Proof.
  intros He Hr Hi. induction e as [|x e IH]; [done|].
  apply not_elem_of_cons in He as [Hx He].
  cbn [app]. rewrite index_of_cons.
  assert (HasPrefix (x :: e ++ r) (str " :") = false) as ->.
  { cbn. destruct (Ascii.eqb_spec x " "%char); [congruence|done]. }
  by rewrite IH.
Qed.

Lemma index_of_sp_colon_Join (ps : list gostring) :
  Forall (λ x, (" "%char ∉ x) ∧ HasPrefix x (str ":") = false) ps →
  index_of (Join ps (str " ")) (str " :") = None.
Proof.
  induction ps as [|e ps IH]; [done|]. intros [[He Hc] Hall]%Forall_cons.
  destruct ps as [|e' ps].
  - cbn [Join]. rewrite <- (app_nil_r e).
    by apply index_of_sp_colon_app_None.
  - rewrite Join_cons2. specialize (IH Hall).
    pose proof (HasPrefix_Join _ Hall) as Hj.
    assert (HasPrefix (str " " ++ Join (e' :: ps) (str " ")) (str " :") = false)
      as Hsp by (cbn [list_ascii_of_string app HasPrefix] in *; by rewrite Hj).
    apply index_of_sp_colon_app_None; [done|done|].
    cbn [list_ascii_of_string app] in *. rewrite index_of_cons.
    rewrite Hsp. by rewrite IH.
Qed.

Lemma Join_nil_inv (ps : list gostring) (sep : gostring) :
  ps ≠ [] → sep ≠ [] → Join ps sep = [] → ps = [[]].
Proof.
  destruct ps as [|e [|e' ps]]; [done|..]; intros _ Hsep.
  - cbn [Join]. by intros ->.
  - rewrite Join_cons2. intros H. apply (f_equal length) in H.
    rewrite !length_app in H. destruct sep; [done|]. simpl in H. lia.
Qed.

Lemma parse_params_text_written (ps : list gostring) (t : gostring) :
  Forall (λ x, (" "%char ∉ x) ∧ HasPrefix x (str ":") = false) ps →
  ¬ (ps = [[]] ∧ t = []) →
  (ps ≠ [] → HasPrefix t (str ":") = false) →
  ∃ x, (serialize_params (Slice ps) ++ serialize_text t = [] ∧ x = []
        ∨ serialize_params (Slice ps) ++ serialize_text t = " "%char :: x)
       ∧ parse_params_text x = (Slice ps, t).
Proof.
  intros Hall H2 H1. destruct (decide (ps = [])) as [->|Hne].
  - unfold serialize_params, serialize_text. cbn [elems app].
    destruct t as [|y t]; cbn [is_empty].
    + exists []. split; [by left|done].
    + exists (":"%char :: y :: t). split; [by right|].
      unfold parse_params_text, strip_colon. cbn. done.
  - specialize (H1 Hne).
    assert (Split (Join ps (str " ")) (str " ") = Slice ps) as HS.
    { apply (Split_Join " "%char); [done|].
      eapply Forall_impl; [exact Hall|]. by intros x [? _]. }
    pose proof (HasPrefix_Join _ Hall) as Hj.
    pose proof (index_of_sp_colon_Join _ Hall) as Hi.
    assert (serialize_params (Slice ps) = str " " ++ Join ps (str " ")) as ->.
    { unfold serialize_params. cbn [elems]. by destruct ps. }
    exists (Join ps (str " ") ++ serialize_text t).
    split; [right; by rewrite <- app_assoc|].
    unfold parse_params_text, serialize_text.
    destruct t as [|y t]; cbn [is_empty].
    + rewrite app_nil_r.
      assert (no_params (Join ps (str " ")) = false) as ->.
      { unfold no_params. rewrite Hj, orb_false_r.
        destruct (Join ps (str " ")) eqn:HJ; [|done].
        apply Join_nil_inv in HJ; [|done..]. by destruct H2. }
      rewrite cut_None by done. cbn [fst snd]. by rewrite HS.
    + assert (no_params (Join ps (str " ") ++ str " :" ++ y :: t) = false) as ->.
      { unfold no_params. destruct (Join ps (str " ")); [done|]. cbn in *.
        by rewrite Hj. }
      rewrite cut_sp_colon_app by done. cbn [fst snd].
      by rewrite HS, strip_colon_id.
Qed.

(** Writing a well-formed message in the line format and parsing the line
    gives the message back: the same command, params, prefix and text. *)
Theorem ParseMessage_serialize_well_formed (m : Message) :
  well_formed m →
  ∃ m', ParseMessage (serialize m) = Some m' ∧ same_fields m' m.
Proof.
  intros ((p & Hp & Hwfp & Hzero) & Hc & (ps & Hps & Hall & H2 & H1)).
  exists (parse (serialize m)). split; [apply ParseMessage_parse|].
  destruct (parse_params_text_written ps (Txt m) Hall H2 H1)
    as (x & Hx & Hback).
  unfold serialize. rewrite Hp, Hps, parse_unfold.
  rewrite (parse_prefix_serialized p (Command m) x).
  - cbn [fst snd]. rewrite (cut_command (Command m) x) by done.
    cbn [fst snd]. rewrite Hback. unfold same_fields.
    cbn [Command Params MsgPrefix Txt]. by rewrite Hp, Hps.
  - right. exists (serialize_body p).
    split; [by apply well_formed_prefix_no_space|].
    symmetry. by apply well_formed_prefix_decompose.
  - by apply well_formed_prefix_wf.
  - done.
  - done.
Qed.

Lemma ParseMessage_serialize_well_formed_witness :
  ∃ m', ParseMessage
          (serialize
             {| Command := str "KICK";
                Params := Slice [str "#chan"; str "troll"];
                MsgPrefix := Some {| Name := str "op"; User := str "u";
                                     Host := str "h.example" |};
                Raw := [];
                Txt := str "be  nice :)" |}) = Some m' ∧
        same_fields m'
          {| Command := str "KICK";
             Params := Slice [str "#chan"; str "troll"];
             MsgPrefix := Some {| Name := str "op"; User := str "u";
                                  Host := str "h.example" |};
             Raw := [];
             Txt := str "be  nice :)" |}.
Proof.
  apply ParseMessage_serialize_well_formed.
  split; [|split].
  - eexists. split; [reflexivity|]. split; [|intros H; discriminate H].
    unfold well_formed_prefix, sep_free. cbn [Name User Host list_ascii_of_string].
    unfold not. repeat rewrite ?elem_of_cons, ?elem_of_nil.
    repeat split; intuition discriminate.
  - cbn [Command list_ascii_of_string]. unfold not.
    repeat rewrite ?elem_of_cons, ?elem_of_nil. intuition discriminate.
  - eexists. split; [reflexivity|]. split; [|split].
    + repeat constructor; cbn [list_ascii_of_string]; unfold not;
        repeat rewrite ?elem_of_cons, ?elem_of_nil; intuition discriminate.
    + intros [H _]. discriminate H.
    + intros _. reflexivity.
Defined.

(** * More about reading *)

Lemma fill_loop_data {St} `{ReadWriteCloser St} (i : nat) (b : Reader)
    (σ σ' : St) (bs : gostring) :
  rwc_Read (defaultBufSize - length (rd_buf b)) σ = ((bs, None), σ') →
  bs ≠ [] →
  fill_loop (S i) b σ = (mkReader (rd_buf b ++ bs) (rd_err b), σ').
Proof. intros Hr Hbs. cbn [fill_loop]. rewrite Hr. by destruct bs. Qed.

Lemma fill_loop_error {St} `{ReadWriteCloser St} (i : nat) (b : Reader)
    (σ σ' : St) (bs : gostring) (e : error) :
  rwc_Read (defaultBufSize - length (rd_buf b)) σ = ((bs, Some e), σ') →
  fill_loop (S i) b σ = (mkReader (rd_buf b ++ bs) (Some e), σ').
Proof. intros Hr. cbn [fill_loop]. by rewrite Hr. Qed.

Lemma fill_data {St} `{ReadWriteCloser St} (b : Reader) (σ σ' : St)
    (bs : gostring) :
  rwc_Read (defaultBufSize - length (rd_buf b)) σ = ((bs, None), σ') →
  bs ≠ [] →
  fill b σ = (mkReader (rd_buf b ++ bs) (rd_err b), σ').
Proof. apply (fill_loop_data 99). Qed.

Lemma fill_error {St} `{ReadWriteCloser St} (b : Reader) (σ σ' : St)
    (bs : gostring) (e : error) :
  rwc_Read (defaultBufSize - length (rd_buf b)) σ = ((bs, Some e), σ') →
  fill b σ = (mkReader (rd_buf b ++ bs) (Some e), σ').
Proof. apply (fill_loop_error 99). Qed.

(** One round that has to fill the buffer: nothing is pending, no
    delimiter is buffered and the buffer has room. *)
Lemma ReadString_loop_fill {St} `{ReadWriteCloser St} (fuel : nat)
    (delim : ascii) (acc part : gostring) (σ : St) :
  index_of part [delim] = None →
  (length part < defaultBufSize)%nat →
  ReadString_loop (S fuel) delim acc (mkReader part None) σ
  = let '(b', σ') := fill (mkReader part None) σ in
    ReadString_loop fuel delim acc b' σ'.
Proof.
  intros Hi Hroom. rewrite ReadString_loop_unfold. cbn [rd_buf rd_err].
  rewrite Hi. by destruct (Nat.leb_spec defaultBufSize (length part)); [lia|].
Qed.

Lemma ReadMsg_fill_line {St} `{ReadWriteCloser St}
    (fuel : nat) (c : Conn St) (part more rest : gostring) (σ' : St) :
  rl c = false →
  reader c = mkReader part None →
  LF ∉ part ++ more →
  (length part < defaultBufSize)%nat →
  rwc_Read (defaultBufSize - length part) (rwc c)
    = ((more ++ LF :: rest, None), σ') →
  ReadMsg (S (S fuel)) c
  = Returned ((Some (parse (part ++ more ++ [LF])), None),
              mkConn σ' (mkReader rest None) false (wl c)).
Proof.
  intros Hrl Hrd Hlf Hroom Hread.
  apply (ReadMsg_line (S (S fuel)) c); [done|].
  unfold ReadString. rewrite Hrd.
  apply not_elem_of_app in Hlf as Hlf2. destruct Hlf2 as [Hp Hm].
  rewrite ReadString_loop_fill by (by apply index_of_byte_notin || done).
  rewrite (fill_data _ _ σ' (more ++ LF :: rest)); [|done|by destruct more].
  cbn [rd_buf rd_err]. rewrite app_assoc.
  rewrite ReadString_loop_found by done. by rewrite <- app_assoc.
Qed.

(** Partial reads are stitched together.  The connection holds the start
    [part] of a line, and the next read of the stream delivers the bytes
    [more], a line feed and the bytes [rest]: [ReadMsg] returns the message
    of the whole line [part ++ more ++ "\n"], keeps [rest] for the next
    call and leaves both locks as they were. *)
Theorem ReadMsg_stitches_partial_reads {St} `{ReadWriteCloser St}
    (fuel : nat) (c : Conn St) (part more rest : gostring) (σ' : St) :
  rl c = false →
  reader c = mkReader part None →
  LF ∉ part ++ more →
  (length part < defaultBufSize)%nat →
  rwc_Read (defaultBufSize - length part) (rwc c)
    = ((more ++ LF :: rest, None), σ') →
  ∃ m, ParseMessage (part ++ more ++ [LF]) = Some m ∧
       ReadMsg (S (S fuel)) c
       = Returned ((Some m, None), mkConn σ' (mkReader rest None) false (wl c)).
Proof.
  intros Hrl Hrd Hlf Hroom Hread.
  exists (parse (part ++ more ++ [LF])). split; [apply ParseMessage_parse|].
  by apply ReadMsg_fill_line.
Qed.

Lemma ReadMsg_stitches_partial_reads_witness :
  ∃ m, ParseMessage (str "PI" ++ str "NG :x" ++ [LF]) = Some m ∧
       ReadMsg 2 (mkConn (mkScript [str "NG :x" ++ LF :: str "PO"] [] false)
                         (mkReader (str "PI") None) false false)
       = Returned ((Some m, None),
                   mkConn (mkScript [] [] false) (mkReader (str "PO") None)
                          false false).
Proof.
  apply (ReadMsg_stitches_partial_reads 0
           (mkConn (mkScript [str "NG :x" ++ LF :: str "PO"] [] false)
                   (mkReader (str "PI") None) false false)
           (str "PI") (str "NG :x") (str "PO") (mkScript [] [] false)).
  - reflexivity.
  - reflexivity.
  - unfold LF. cbn. unfold not.
    repeat rewrite ?elem_of_cons, ?elem_of_nil. intuition discriminate.
  - cbn [length list_ascii_of_string]. unfold defaultBufSize. lia.
  - vm_compute. reflexivity.
Defined.

(** The first message of a fresh connection: [NewConn] starts with an
    empty buffer and free locks, so that the first [ReadMsg] asks the
    stream for a whole buffer and returns the first line it delivers. *)
Theorem NewConn_first_ReadMsg {St} `{ReadWriteCloser St} (fuel : nat)
    (σ σ' : St) (line rest : gostring) :
  LF ∉ line →
  rwc_Read defaultBufSize σ = ((line ++ LF :: rest, None), σ') →
  ∃ m, ParseMessage (line ++ [LF]) = Some m ∧
       ReadMsg (S (S fuel)) (NewConn σ)
       = Returned ((Some m, None), mkConn σ' (mkReader rest None) false false).
Proof.
  intros Hlf Hread.
  exists (parse (line ++ [LF])). split; [apply ParseMessage_parse|].
  apply (ReadMsg_fill_line fuel (NewConn σ) [] line rest σ'); try done.
  unfold defaultBufSize. cbn [length]. lia.
Qed.

Lemma NewConn_first_ReadMsg_witness :
  ∃ m, ParseMessage (str "PING :x" ++ [LF]) = Some m ∧
       ReadMsg 2 (NewConn (mkScript [str "PING :x" ++ LF :: str "PO"] []
                             false))
       = Returned ((Some m, None),
                   mkConn (mkScript [] [] false) (mkReader (str "PO") None)
                          false false).
Proof.
  apply (NewConn_first_ReadMsg 0
           (mkScript [str "PING :x" ++ LF :: str "PO"] [] false)
           (mkScript [] [] false) (str "PING :x") (str "PO")).
  - unfold LF. cbn. unfold not.
    repeat rewrite ?elem_of_cons, ?elem_of_nil. intuition discriminate.
  - reflexivity.
Defined.

(** A line longer than the reader's buffer is returned whole.  The
    buffer is full of the bytes [full] without a line feed, and the next
    read of the stream delivers [more], a line feed and [rest]: [ReadMsg]
    returns the message of [full ++ more ++ "\n"]. *)
Theorem ReadMsg_line_longer_than_buffer {St} `{ReadWriteCloser St}
    (fuel : nat) (c : Conn St) (full more rest : gostring) (σ' : St) :
  rl c = false →
  reader c = mkReader full None →
  length full = defaultBufSize →
  LF ∉ full ++ more →
  rwc_Read defaultBufSize (rwc c) = ((more ++ LF :: rest, None), σ') →
  ∃ m, ParseMessage (full ++ more ++ [LF]) = Some m ∧
       ReadMsg (S (S (S fuel))) c
       = Returned ((Some m, None), mkConn σ' (mkReader rest None) false (wl c)).
Proof.
  intros Hrl Hrd Hlen Hlf Hread.
  exists (parse (full ++ more ++ [LF])). split; [apply ParseMessage_parse|].
  apply (ReadMsg_line (S (S (S fuel))) c); [done|].
  unfold ReadString. rewrite Hrd.
  apply not_elem_of_app in Hlf as [Hp Hm].
  rewrite ReadString_loop_unfold. cbn [rd_buf rd_err].
  rewrite index_of_byte_notin by done. rewrite Hlen, Nat.leb_refl.
  rewrite ReadString_loop_fill;
    [|done|unfold defaultBufSize; cbn [length]; lia].
  assert (fill (mkReader [] None) (rwc c)
          = (mkReader ([] ++ more ++ LF :: rest) None, σ')) as ->.
  { apply fill_data; [|by destruct more].
    cbn [rd_buf length]. by rewrite Nat.sub_0_r. }
  cbn [app]. by rewrite ReadString_loop_found by done.
Qed.

Lemma ReadMsg_line_longer_than_buffer_witness :
  ∃ m, ParseMessage
         (replicate defaultBufSize "a"%char ++ str "b" ++ [LF]) = Some m ∧
       ReadMsg 3 (mkConn (mkCanned (str "b" ++ LF :: str "c") None)
                         (mkReader (replicate defaultBufSize "a"%char) None)
                         false false)
       = Returned ((Some m, None),
                   mkConn (mkCanned (str "b" ++ LF :: str "c") None)
                          (mkReader (str "c") None) false false).
Proof.
  apply (ReadMsg_line_longer_than_buffer 0
           (mkConn (mkCanned (str "b" ++ LF :: str "c") None)
                   (mkReader (replicate defaultBufSize "a"%char) None)
                   false false)
           (replicate defaultBufSize "a"%char) (str "b") (str "c")
           (mkCanned (str "b" ++ LF :: str "c") None)).
  - reflexivity.
  - reflexivity.
  - apply length_replicate.
  - rewrite elem_of_app. intros [[Ha _]%elem_of_replicate|Hb].
    + discriminate Ha.
    + revert Hb. unfold LF. cbn. unfold not.
      repeat rewrite ?elem_of_cons, ?elem_of_nil. intuition discriminate.
  - reflexivity.
Defined.

(** A read error before the end of the line.  The connection holds the
    start [part] of a line and the next read of the stream returns an
    error, with or without further bytes but without a line feed:
    [ReadMsg] returns that error and no message; the unterminated bytes
    are dropped from the buffer, and the read lock is free again. *)
Theorem ReadMsg_error_drops_partial_line {St} `{ReadWriteCloser St}
    (fuel : nat) (c : Conn St) (part more : gostring) (e : error) (σ' : St) :
  rl c = false →
  reader c = mkReader part None →
  LF ∉ part ++ more →
  (length part < defaultBufSize)%nat →
  rwc_Read (defaultBufSize - length part) (rwc c) = ((more, Some e), σ') →
  ReadMsg (S (S fuel)) c
  = Returned ((None, Some e), mkConn σ' (mkReader [] None) false (wl c)).
Proof.
  intros Hrl Hrd Hlf Hroom Hread.
  apply (ReadMsg_error (S (S fuel)) c (part ++ more)); [done|].
  unfold ReadString. rewrite Hrd.
  apply not_elem_of_app in Hlf as Hlf2. destruct Hlf2 as [Hp Hm].
  rewrite ReadString_loop_fill by (by apply index_of_byte_notin || done).
  rewrite (fill_error _ _ σ' more e) by done. cbn [rd_buf].
  by rewrite ReadString_loop_pending by by apply index_of_byte_notin.
Qed.

Lemma ReadMsg_error_drops_partial_line_witness :
  ReadMsg 2 (mkConn (mkScript [] [] false) (mkReader (str "QUIT :by") None)
                    false false)
  = Returned ((None, Some EOF),
              mkConn (mkScript [] [] false) (mkReader [] None) false false).
Proof.
  apply (ReadMsg_error_drops_partial_line 0
           (mkConn (mkScript [] [] false) (mkReader (str "QUIT :by") None)
                   false false)
           (str "QUIT :by") [] EOF (mkScript [] [] false)).
  - reflexivity.
  - reflexivity.
  - unfold LF. cbn. unfold not.
    repeat rewrite ?elem_of_cons, ?elem_of_nil. intuition discriminate.
  - cbn [length list_ascii_of_string]. unfold defaultBufSize. lia.
  - reflexivity.
Defined.

(** A read that returns a complete line together with an error: the
    first [ReadMsg] returns the line's message and keeps the error; the
    next one, finding no further line feed, returns that error without
    asking the stream again. *)
Theorem ReadMsg_line_then_error {St} `{ReadWriteCloser St}
    (fuel fuel' : nat) (c : Conn St) (part more rest : gostring)
    (e : error) (σ' : St) :
  rl c = false →
  reader c = mkReader part None →
  LF ∉ part ++ more → LF ∉ rest →
  (length part < defaultBufSize)%nat →
  rwc_Read (defaultBufSize - length part) (rwc c)
    = ((more ++ LF :: rest, Some e), σ') →
  ∃ m c1,
    ParseMessage (part ++ more ++ [LF]) = Some m ∧
    ReadMsg (S (S fuel)) c = Returned ((Some m, None), c1) ∧
    ReadMsg (S fuel') c1
    = Returned ((None, Some e), mkConn σ' (mkReader [] None) false (wl c)).
Proof.
  intros Hrl Hrd Hlf Hrest Hroom Hread.
  exists (parse (part ++ more ++ [LF])),
         (mkConn σ' (mkReader rest (Some e)) false (wl c)).
  split; [apply ParseMessage_parse|]. split.
  - apply (ReadMsg_line (S (S fuel)) c); [done|].
    unfold ReadString. rewrite Hrd.
    apply not_elem_of_app in Hlf as Hlf2. destruct Hlf2 as [Hp Hm].
    rewrite ReadString_loop_fill by (by apply index_of_byte_notin || done).
    rewrite (fill_error _ _ σ' (more ++ LF :: rest) e) by done.
    cbn [rd_buf rd_err]. rewrite app_assoc.
    rewrite ReadString_loop_found by done. by rewrite <- app_assoc.
  - apply (ReadMsg_error (S fuel')
             (mkConn σ' (mkReader rest (Some e)) false (wl c)) rest); [done|].
    unfold ReadString. cbn [reader rwc].
    by rewrite ReadString_loop_pending by by apply index_of_byte_notin.
Qed.

Lemma ReadMsg_line_then_error_witness :
  ∃ m c1,
    ParseMessage (str "PI" ++ str "NG" ++ [LF]) = Some m ∧
    ReadMsg 2 (mkConn (mkCanned (str "NG" ++ LF :: str "x") (Some EOF))
                      (mkReader (str "PI") None) false false)
      = Returned ((Some m, None), c1) ∧
    ReadMsg 1 c1
    = Returned ((None, Some EOF),
                mkConn (mkCanned (str "NG" ++ LF :: str "x") (Some EOF))
                       (mkReader [] None) false false).
Proof.
  apply (ReadMsg_line_then_error 0 0
           (mkConn (mkCanned (str "NG" ++ LF :: str "x") (Some EOF))
                   (mkReader (str "PI") None) false false)
           (str "PI") (str "NG") (str "x") EOF
           (mkCanned (str "NG" ++ LF :: str "x") (Some EOF))).
  - reflexivity.
  - reflexivity.
  - unfold LF. cbn. unfold not.
    repeat rewrite ?elem_of_cons, ?elem_of_nil. intuition discriminate.
  - unfold LF. cbn. unfold not.
    repeat rewrite ?elem_of_cons, ?elem_of_nil. intuition discriminate.
  - cbn [length list_ascii_of_string]. unfold defaultBufSize. lia.
  - reflexivity.
Defined.

Lemma fill_loop_stalled {St} `{ReadWriteCloser St} (stalls : St → Prop)
    (i : nat) (b : Reader) (σ : St) :
  (∀ n σ, stalls σ → ∃ σ', rwc_Read n σ = (([], None), σ') ∧ stalls σ') →
  stalls σ →
  ∃ σ', stalls σ' ∧
        fill_loop i b σ = (mkReader (rd_buf b) (Some ErrNoProgress), σ').
Proof.
  intros Hst. revert b σ. induction i as [|i IH]; intros b σ Hσ.
  - by exists σ.
  - destruct (Hst (defaultBufSize - length (rd_buf b))%nat σ Hσ)
      as (σ1 & Hr & Hσ1).
    cbn [fill_loop]. rewrite Hr. cbn [is_empty].
    destruct (IH (mkReader (rd_buf b ++ []) (rd_err b)) σ1 Hσ1)
      as (σ' & Hσ' & ->).
    exists σ'. cbn [rd_buf]. by rewrite app_nil_r.
Qed.

(** A stream that stalls: every read returns no bytes and no error.
    [ReadMsg] does not wait for ever; after the reader's hundred empty
    reads it returns [io.ErrNoProgress] and no message, drops the
    unterminated bytes it held and frees the read lock. *)
Theorem ReadMsg_stalled_stream {St} `{ReadWriteCloser St}
    (stalls : St → Prop) (fuel : nat) (c : Conn St) (part : gostring) :
  (∀ n σ, stalls σ → ∃ σ', rwc_Read n σ = (([], None), σ') ∧ stalls σ') →
  stalls (rwc c) →
  rl c = false →
  reader c = mkReader part None →
  LF ∉ part →
  (length part < defaultBufSize)%nat →
  ∃ σ', stalls σ' ∧
        ReadMsg (S (S fuel)) c
        = Returned ((None, Some ErrNoProgress),
                    mkConn σ' (mkReader [] None) false (wl c)).
Proof.
  intros Hst Hσ Hrl Hrd Hlf Hroom.
  destruct (fill_loop_stalled stalls maxConsecutiveEmptyReads
              (mkReader part None) (rwc c) Hst Hσ) as (σ' & Hσ' & Hfill).
  exists σ'. split; [done|].
  apply (ReadMsg_error (S (S fuel)) c part); [done|].
  unfold ReadString. rewrite Hrd.
  rewrite ReadString_loop_fill by (by apply index_of_byte_notin || done).
  unfold fill. rewrite Hfill. cbn [rd_buf].
  by rewrite ReadString_loop_pending by by apply index_of_byte_notin.
Qed.

Lemma ReadMsg_stalled_stream_witness :
  ∃ σ', reply_bytes σ' = [] ∧ reply_err σ' = None ∧
        ReadMsg 2 (mkConn (mkCanned [] None) (mkReader (str "PI") None)
                          false false)
        = Returned ((None, Some ErrNoProgress),
                    mkConn σ' (mkReader [] None) false false).
Proof.
  destruct (ReadMsg_stalled_stream
              (λ σ, reply_bytes σ = [] ∧ reply_err σ = None) 0
              (mkConn (mkCanned [] None) (mkReader (str "PI") None)
                      false false)
              (str "PI")) as (σ' & [Hb He] & Hr).
  - intros n [bs e] [Hb He]. cbn in Hb, He. subst bs e.
    exists (mkCanned [] None). split; [|done]. cbn. by destruct n.
  - done.
  - reflexivity.
  - reflexivity.
  - unfold LF. cbn. unfold not.
    repeat rewrite ?elem_of_cons, ?elem_of_nil. intuition discriminate.
  - cbn [length list_ascii_of_string]. unfold defaultBufSize. lia.
  - exists σ'. split; [exact Hb|]. split; [exact He|]. exact Hr.
Defined.

(** What a call of [ReadMsg] that returns hands back: a message or an
    error, never both and never neither; a message is the parse of a line
    that ends with the line feed.  The read lock is free afterwards and
    the write lock is as it was. *)
Theorem ReadMsg_message_or_error {St} `{ReadWriteCloser St} (fuel : nat)
    (c c' : Conn St) (r : option Message * option error) :
  ReadMsg fuel c = Returned (r, c') →
  rl c = false ∧ rl c' = false ∧ wl c' = wl c ∧
  ((∃ line m, ParseMessage (line ++ [LF]) = Some m ∧ r = (Some m, None)) ∨
   (∃ e, r = (None, Some e))).
Proof.
  unfold ReadMsg. destruct (rl c) eqn:Hrl; [done|].
  destruct (ReadString fuel LF (reader c) (rwc c))
    as [[[[l [e|]] b'] σ']|] eqn:Hrs; [| |done].
  - intros [= <- <-]. do 3 (split; [done|]). right. by exists e.
  - rewrite ParseMessage_parse. intros [= <- <-]. do 3 (split; [done|]).
    left. destruct (ReadString_loop_delim _ _ _ _ _ _ _ _ Hrs) as [line ->].
    exists line, (parse (line ++ [LF])). by rewrite ParseMessage_parse.
Qed.

Lemma ReadMsg_message_or_error_witness :
  let c := mkConn (mkScript [] [] false) (mkReader (str "PI") None)
                  false true in
  rl c = false ∧
  rl (mkConn (mkScript [] [] false) (mkReader [] None) false true) = false ∧
  wl (mkConn (mkScript [] [] false) (mkReader [] None) false true) = wl c ∧
  ((∃ line m, ParseMessage (line ++ [LF]) = Some m ∧
              (None, Some EOF) = (Some m, None)) ∨
   (∃ e, (None : option Message, Some EOF) = (None, Some e))).
Proof.
  apply (ReadMsg_message_or_error 2
           (mkConn (mkScript [] [] false) (mkReader (str "PI") None)
                   false true)).
  reflexivity.
Defined.

(** [ReadMsg] never panics, whatever the stream delivers. *)
Theorem ReadMsg_never_panics {St} `{ReadWriteCloser St} (fuel : nat)
    (c : Conn St) :
  ReadMsg fuel c ≠ Panicked.
Proof.
  unfold ReadMsg. destruct (rl c); [done|].
  destruct (ReadString fuel LF (reader c) (rwc c))
    as [[[[l [e|]] b'] σ']|]; [done| |done].
  by rewrite ParseMessage_parse.
Qed.

(** * More about concurrent senders *)

(** Mutual exclusion.  In every state that a schedule can reach from the
    start, at most one goroutine is inside the stream's [Write], and the
    write mutex is held while it is. *)
Theorem Write_mutual_exclusion (lines : list gostring) (sched : list nat)
    (i j : nat) (ti tj : gostring) :
  senders (run sched (start lines)) !! i = Some (Writing ti) →
  senders (run sched (start lines)) !! j = Some (Writing tj) →
  i = j ∧ w_wl (run sched (start lines)) = true.
Proof.
  intros Hi Hj.
  destruct (run_inv_run lines sched _ _ _ (run_inv_start lines))
    as (order & pre & Hinv).
  destruct (run_inv_writing _ _ _ _ _ _ Hinv Hi) as (Hwl & _ & Huniq).
  split; [|done]. symmetry. by eapply Huniq.
Qed.

Lemma Write_mutual_exclusion_witness :
  0%nat = 0%nat ∧
  w_wl (run [0%nat; 1%nat; 0%nat] (start [str "a"; str "b"])) = true.
Proof.
  apply (Write_mutual_exclusion [str "a"; str "b"] [0%nat; 1%nat; 0%nat]
           0 0 (str "" ++ crlf) (str "" ++ crlf)); reflexivity.
Defined.

Lemma steps_left_insert (l : list sender) (i : nat) (x y : sender) :
  l !! i = Some x →
  (sum_list (steps_left <$> <[i := y]> l) + steps_left x
   = sum_list (steps_left <$> l) + steps_left y)%nat.
Proof.
  revert i. induction l as [|a l IH]; intros [|i] Hi; try done.
  - injection Hi as ->. simpl. lia.
  - specialize (IH i Hi). cbn [insert list_insert fmap list_fmap sum_list sum_list_with] in *.
    unfold id. rewrite <- !Nat.add_assoc. f_equal. exact IH.
Qed.

Lemma sched_step_remaining (w : world) (i : nat) :
  sched_step w i = w ∨ S (remaining (sched_step w i)) = remaining w.
Proof.
  unfold sched_step, remaining.
  destruct (senders w !! i) as [[msg|[|b todo]|]|] eqn:Hi; try by left.
  - destruct (w_wl w); [by left|]. right. cbn [senders].
    pose proof (steps_left_insert _ _ _ (Writing msg) Hi) as Hs.
    simpl in Hs. lia.
  - right. cbn [senders].
    pose proof (steps_left_insert _ _ _ Finished Hi) as Hs. simpl in Hs. lia.
  - right. cbn [senders].
    pose proof (steps_left_insert _ _ _ (Writing todo) Hi) as Hs.
    simpl in Hs. lia.
Qed.

Lemma remaining_finished (w : world) :
  all_finished w = true ↔ remaining w = 0%nat.
Proof.
  unfold all_finished, remaining.
  induction (senders w) as [|s l IH]; [done|].
  cbn [forallb fmap list_fmap sum_list sum_list_with].
  change (list_fmap _ _ steps_left l) with (steps_left <$> l).
  rewrite andb_true_iff, IH. unfold id.
  destruct s as [msg|todo|]; cbn [is_Finished steps_left].
  - split; [by intros [? _]|lia].
  - split; [by intros [? _]|lia].
  - split; [by intros [_ ?]|done].
Qed.

Lemma run_inv_finish (lines : list gostring) (n : nat) :
  ∀ w order pre,
    run_inv lines w order pre → remaining w = n →
    ∃ more, length more = n ∧ all_finished (run more w) = true.
Proof.
  induction n as [|n IH]; intros w order pre Hinv Hn.
  - exists []. split; [done|]. by apply remaining_finished.
  - assert (all_finished w = false) as Hnot.
    { destruct (all_finished w) eqn:Hall; [|done].
      apply remaining_finished in Hall. lia. }
    destruct (run_inv_progress _ _ _ _ Hinv Hnot) as [i Hstep].
    destruct (sched_step_remaining w i) as [?|Hdec]; [done|].
    destruct (run_inv_step _ _ _ _ i Hinv) as (order' & pre' & Hinv').
    destruct (IH _ _ _ Hinv' ltac:(lia)) as (more & Hlen & Hall).
    exists (i :: more). split; [simpl; lia|]. by rewrite run_cons.
Qed.

(** No deadlock.  Whatever has been scheduled so far, the calls of [Send]
    can all still return: some schedule of exactly as many further steps
    as the goroutines have left to take brings every one of them to the
    end of its call. *)
Theorem Send_calls_can_all_return (lines : list gostring)
    (sched : list nat) :
  ∃ more,
    length more = remaining (run sched (start lines)) ∧
    all_finished (run (sched ++ more) (start lines)) = true.
Proof.
  destruct (run_inv_run lines sched _ _ _ (run_inv_start lines))
    as (order & pre & Hinv).
  destruct (run_inv_finish lines _ _ _ _ Hinv eq_refl) as (more & Hlen & Hall).
  exists more. by rewrite run_app.
Qed.

(** * The second revision and [irc/irc.go] *)

Lemma cut_colon_cons (r : gostring) :
  cut (":"%char :: r) (str " ")
  = (":"%char :: (cut r (str " ")).1, (cut r (str " ")).2).
Proof.
  unfold cut. rewrite index_of_cons.
  change (HasPrefix (":"%char :: r) (str " ")) with false. cbn iota.
  by destruct (index_of r (str " ")).
Qed.

Lemma Rev2_parsePrefix_closed (l : gostring) :
  Rev2.parsePrefix l
  = Some (if HasPrefix l (str ":") then (cut (drop 1 l) (str " ")).1 else [],
          (parse_prefix l).2).
Proof.
  unfold Rev2.parsePrefix, parse_prefix. rewrite no_leading_colon_closed.
  destruct (HasPrefix l (str ":")) eqn:Hp; [|done].
  apply HasPrefix_true in Hp as [r ->]. cbn [negb mbind option_bind].
  rewrite split2_cut. cbn [mbind option_bind].
  change (str ":" ++ r) with (":"%char :: r). rewrite cut_colon_cons.
  rewrite slice_from_ok by (unfold len; simpl; lia).
  done.
Qed.

Lemma Rev2_ParseMessage_closed (l : gostring) :
  Rev2.ParseMessage l
  = Some (Rev2.mkMessage (Command (parse l)) (Params (parse l))
            (if HasPrefix l (str ":") then (cut (drop 1 l) (str " ")).1
             else [])
            l [] (Txt (parse l))).
Proof.
  rewrite parse_unfold. cbn [Command Params Txt].
  unfold Rev2.ParseMessage. rewrite Rev2_parsePrefix_closed.
  cbn [mbind option_bind]. rewrite parseCommand_cut.
  destruct (cut (parse_prefix l).2 (str " ")) as [command l2].
  cbn [mbind option_bind fst snd]. rewrite parseParams_closed.
  unfold parse_params_text.
  destruct (no_params l2); cbn [mbind option_bind fst snd];
    by rewrite strip_colon_closed.
Qed.

(** The second revision and [irc/irc.go] split every line alike: both
    return, with the same command, params, text and raw line; the prefix
    string of the second revision holds no space and is the body that
    [irc/irc.go] takes apart into name, user and host; its [User] field
    is never set. *)
Theorem Rev2_ParseMessage_same_split (l : gostring) :
  ∃ m2 m p,
    Rev2.ParseMessage l = Some m2 ∧ ParseMessage l = Some m ∧
    Rev2.Command m2 = Command m ∧ Rev2.Params m2 = Params m ∧
    Rev2.Txt m2 = Txt m ∧ Rev2.Raw m2 = Raw m ∧ Rev2.User m2 = [] ∧
    (" "%char ∉ Rev2.Prefix m2) ∧
    MsgPrefix m = Some p ∧
    parsePrefix (":"%char :: Rev2.Prefix m2) = Some (p, []).
Proof.
  eexists _, (parse l), (parse_prefix l).1.
  split; [apply Rev2_ParseMessage_closed|].
  split; [apply ParseMessage_parse|].
  cbn [Rev2.Command Rev2.Params Rev2.Txt Rev2.Raw Rev2.User Rev2.Prefix].
  assert (" "%char ∉
          (if HasPrefix l (str ":") then (cut (drop 1 l) (str " ")).1
           else [])) as Hsp.
  { destruct (HasPrefix l (str ":")); [|apply not_elem_of_nil].
    apply (cut_fst_byte_notin " "%char). }
  do 3 (split; [done|]).
  split; [by rewrite parse_unfold|]. split; [done|]. split; [done|].
  split; [by rewrite parse_unfold|].
  rewrite parsePrefix_colon.
  rewrite (cut_byte_notin " "%char) by done. cbn [fst snd].
  unfold parse_prefix. by destruct (HasPrefix l (str ":")).
Qed.

(** * The first revision *)

Lemma SplitN_2 (s sep : gostring) :
  SplitN s sep 2
  = Slice (match index_of s sep with
           | Some m => [take m s; drop (m + length sep) s]
           | None => [s]
           end).
Proof. unfold SplitN. simpl. by destruct (index_of s sep). Qed.

Lemma Legacy_parse_text_closed (l : gostring) :
  Legacy.parse_text l = Some (legacy_text l).
Proof.
  unfold Legacy.parse_text, legacy_text.
  destruct l as [|c [|d r]]; [done| |].
  - unfold byte_at. simpl. by rewrite !andb_false_r.
  - unfold byte_at, len. simpl.
    destruct (Ascii.eqb c ":"%char); [|done]. simpl.
    destruct (Z.gtb_spec (Z.of_nat (S (S (length r)))) 1) as [_|?]; [|lia].
    by rewrite slice_from_ok by (unfold len; simpl; lia).
Qed.

Lemma Legacy_ParseMessage_body (l prefix user l1 : gostring) :
  Legacy.parse_head l = Some (prefix, user, l1) →
  Legacy.ParseMessage l = legacy_body prefix user l l1.
Proof.
  intros Hh. unfold Legacy.ParseMessage, legacy_body, cut. rewrite Hh.
  cbn [mbind option_bind]. rewrite SplitN_2.
  destruct (index_of l1 (str " ")) as [m|] eqn:Hm; [|done].
  set (a := take m l1). set (l2 := drop (m + length (str " ")) l1).
  change (slice_at (Slice [a; l2]) 0) with (Some a).
  change (slice_len (Slice [a; l2]) =? 1) with false.
  change (slice_at (Slice [a; l2]) 1) with (Some l2).
  cbn [mbind option_bind]. clearbody l2. destruct l2 as [|c r]; [done|].
  change (byte_at (c :: r) 0) with (Some c).
  cbn [mbind option_bind is_empty].
  change (HasPrefix (c :: r) (str ":")) with (Ascii.eqb c ":"%char && true).
  rewrite andb_true_r. destruct (Ascii.eqb c ":"%char); cbn [negb].
  - by rewrite Legacy_parse_text_closed.
  - rewrite SplitN_2.
    destruct (index_of (c :: r) (str " :")) as [k|] eqn:Hk; [|done].
    set (p0 := take k (c :: r)).
    set (l3 := drop (k + length (str " :")) (c :: r)).
    change (slice_at (Slice [p0; l3]) 0) with (Some p0).
    change (slice_len (Slice [p0; l3]) =? 1) with false.
    change (slice_at (Slice [p0; l3]) 1) with (Some l3).
    cbn [mbind option_bind fst snd]. by rewrite Legacy_parse_text_closed.
Qed.

Lemma Legacy_parse_head_other (l : gostring) :
  l ≠ [] → HasPrefix l (str ":") = false →
  Legacy.parse_head l = Some ([], [], l).
Proof.
  destruct l as [|c l]; [done|]. intros _ Hp.
  unfold Legacy.parse_head, byte_at. simpl in *.
  rewrite andb_true_r in Hp. by rewrite Hp.
Qed.

(** A line without a space, in the first revision: the whole line is the
    command, even when it starts with a colon; [Params] stays nil, prefix,
    user and text stay empty. *)
Theorem Legacy_line_without_space (l : gostring) :
  l ≠ [] → (" "%char ∉ l) →
  Legacy.ParseMessage l = Some (Legacy.mkMessage l Nil [] l [] []).
Proof.
  intros Hne Hsp.
  assert (Legacy.parse_head l = Some ([], [], l)) as Hh.
  { destruct (HasPrefix l (str ":")) eqn:Hp;
      [|by apply Legacy_parse_head_other].
    apply HasPrefix_true in Hp as [r ->].
    unfold Legacy.parse_head, byte_at. cbn.
    rewrite (Index_byte_notin " "%char (":"%char :: r)) by done. done. }
  rewrite (Legacy_ParseMessage_body _ _ _ _ Hh). unfold legacy_body.
  by rewrite (index_of_byte_notin " "%char).
Qed.

Lemma Legacy_line_without_space_witness :
  Legacy.ParseMessage (str ":irc.example.net")
  = Some (Legacy.mkMessage (str ":irc.example.net") Nil []
            (str ":irc.example.net") [] []).
Proof.
  apply (Legacy_line_without_space (str ":irc.example.net")).
  - done.
  - cbn [list_ascii_of_string]. unfold not.
    repeat rewrite ?elem_of_cons, ?elem_of_nil. intuition discriminate.
Defined.

(** When the first revision panics on a line that does not start with a
    colon: exactly on the empty line and on a line that ends with its
    first space. *)
Theorem Legacy_panics_iff (l : gostring) :
  HasPrefix l (str ":") = false →
  (Legacy.ParseMessage l = None
   ↔ l = [] ∨ ∃ cmd, (" "%char ∉ cmd) ∧ l = cmd ++ str " ").
Proof.
  intros Hp. destruct (decide (l = [])) as [->|Hne]; [by split; [left|]|].
  rewrite (Legacy_ParseMessage_body _ _ _ _ (Legacy_parse_head_other l Hne Hp)).
  unfold legacy_body. split.
  - destruct (index_of l (str " ")) as [m|] eqn:Hm; [|done].
    unfold cut. rewrite Hm. intros Hnone. right. exists (take m l).
    split.
    { apply index_of_byte_None. by apply index_of_take_None. }
    destruct (drop (m + length (str " ")) l) as [|c r] eqn:Hd.
    + rewrite (index_of_split _ _ _ Hm) at 1. by rewrite Hd.
    + cbn [is_empty] in Hnone. destruct (HasPrefix (c :: r) (str ":")); [done|].
      by destruct (index_of (c :: r) (str " :")).
  - intros [->|(cmd & Hc & ->)]; [done|].
    change (str " ") with [" "%char].
    rewrite index_of_byte_app, cut_byte_app by done. done.
Qed.

Lemma Legacy_panics_iff_witness :
  Legacy.ParseMessage (str "PING ") = None
  ↔ str "PING " = [] ∨ ∃ cmd, (" "%char ∉ cmd) ∧ str "PING " = cmd ++ str " ".
Proof. apply (Legacy_panics_iff (str "PING ")). reflexivity. Defined.

Lemma legacy_text_strip_colon (l : gostring) :
  legacy_text l = strip_colon l ∨ (legacy_text l = str ":" ∧ strip_colon l = []).
Proof.
  unfold legacy_text, strip_colon.
  destruct (HasPrefix l (str ":")) eqn:Hp; [|by left].
  apply HasPrefix_true in Hp as [r ->]. destruct r; [by right|by left].
Qed.

(** On a line that does not start with a colon, the first revision, where
    it returns, and [irc/irc.go] agree on the command, on the elements of
    the params and on the raw line; the params of the first revision may
    be nil where [irc/irc.go] has the empty slice, and its text is that
    of [irc/irc.go] except that it keeps a lone colon. *)
Theorem Legacy_agrees_without_colon (l : gostring) (m0 : Legacy.Message) :
  HasPrefix l (str ":") = false →
  Legacy.ParseMessage l = Some m0 →
  ∃ m, ParseMessage l = Some m ∧
       Command m = Legacy.Command m0 ∧
       Params m = Slice (elems (Legacy.Params m0)) ∧
       (Txt m = Legacy.Txt m0 ∨ (Legacy.Txt m0 = str ":" ∧ Txt m = [])) ∧
       Raw m = Legacy.Raw m0 ∧
       MsgPrefix m = Some new_Prefix ∧
       Legacy.Prefix m0 = [] ∧ Legacy.User m0 = [].
Proof.
  intros Hp Hm0. exists (parse l). split; [apply ParseMessage_parse|].
  destruct (decide (l = [])) as [->|Hne]; [done|].
  rewrite (Legacy_ParseMessage_body _ _ _ _ (Legacy_parse_head_other l Hne Hp))
    in Hm0.
  rewrite parse_unfold. unfold parse_prefix. rewrite Hp. cbn [fst snd].
  cbn [Command Params Txt Raw MsgPrefix].
  unfold legacy_body in Hm0. unfold cut in *.
  destruct (index_of l (str " ")) as [m|] eqn:Hm.
  2: { injection Hm0 as <-. cbn. by repeat split; try left. }
  destruct (drop (m + length (str " ")) l) as [|c r] eqn:Hd; [done|].
  cbn [is_empty fst snd] in *. unfold parse_params_text, no_params.
  cbn [is_empty orb].
  destruct (HasPrefix (c :: r) (str ":")) eqn:Hc.
  - injection Hm0 as <-. cbn [fst snd Legacy.Command Legacy.Params
      Legacy.Txt Legacy.Raw Legacy.Prefix Legacy.User elems].
    do 2 (split; [done|]). split; [|done].
    destruct (legacy_text_strip_colon (c :: r)) as [->|[-> ->]];
      [by left|by right].
  - unfold cut.
    destruct (index_of (c :: r) (str " :")) as [k|] eqn:Hk;
      injection Hm0 as <-; cbn [fst snd Legacy.Command Legacy.Params
        Legacy.Txt Legacy.Raw Legacy.Prefix Legacy.User].
    + change (k + length (str " :"))%nat with (k + 2)%nat.
      split; [done|]. split; [reflexivity|]. split; [|done].
      destruct (legacy_text_strip_colon (drop (k + 2) (c :: r)))
        as [->|[-> ->]]; [by left|by right].
    + split; [done|]. split; [reflexivity|]. split; [|done]. by left.
Qed.

Lemma Legacy_agrees_without_colon_witness :
  ∃ m, ParseMessage (str "PING :") = Some m ∧
       Command m = str "PING" ∧
       Params m = Slice (elems (Nil : slice gostring)) ∧
       (Txt m = str ":" ∨ (str ":" = str ":" ∧ Txt m = [])) ∧
       Raw m = str "PING :" ∧
       MsgPrefix m = Some new_Prefix ∧
       ([] : gostring) = [] ∧ ([] : gostring) = [].
Proof.
  apply (Legacy_agrees_without_colon (str "PING :")
           (Legacy.mkMessage (str "PING") Nil [] (str "PING :") [] (str ":")));
    reflexivity.
Defined.

Lemma slice_range_mid (a b c : gostring) :
  slice_range (a ++ b ++ c) (len a) (len a + len b) = Some b.
Proof.
  unfold slice_range.
  pose proof (len_nonneg a). pose proof (len_nonneg b).
  pose proof (len_nonneg c).
  rewrite !len_app.
  rewrite (proj2 (Z.leb_le _ _)), (proj2 (Z.leb_le _ _)),
    (proj2 (Z.leb_le _ _)) by lia.
  cbn [andb]. unfold len. rewrite Nat2Z.id, drop_app_length.
  replace (Z.to_nat (Z.of_nat (length a) + Z.of_nat (length b)
                     - Z.of_nat (length a))) with (length b) by lia.
  by rewrite take_app_length.
Qed.

Lemma slice_range_backwards (s : gostring) (lo hi : Z) :
  hi < lo → slice_range s lo hi = None.
Proof.
  intros H. unfold slice_range.
  by rewrite (proj2 (Z.leb_gt lo hi)), andb_false_r by lia.
Qed.

Lemma Index_before_bang (c : ascii) (a b : gostring) :
  c ≠ "!"%char → c ∉ b → Index (a ++ "!"%char :: b) [c] < len a + 1.
Proof.
  intros Hc Hb. unfold Index, len. induction a as [|x a IH].
  - cbn [app]. rewrite index_of_byte_notin; [simpl; lia|].
    apply not_elem_of_cons. split; [done|done].
  - cbn [app]. rewrite index_of_cons. cbn [HasPrefix].
    destruct (Ascii.eqb x c); [simpl; lia|]. cbn [andb].
    destruct (index_of (a ++ "!"%char :: b) [c]); simpl in *; lia.
Qed.

(** The line up to its first space, for a line [":" ++ body ++ " " ++ rest]
    whose [body] holds no space, in the first revision. *)
Lemma Legacy_head_split (body rest : gostring) :
  " "%char ∉ body →
  let l := ":"%char :: body ++ " "%char :: rest in
  Index l (str " ") = len body + 1 ∧
  slice_range l 1 (len body + 1) = Some body ∧
  slice_range l (len body + 1 + 1) (len l) = Some rest.
Proof.
  intros Hsp l. subst l.
  assert (" "%char ∉ ":"%char :: body) as Hsp'.
  { apply not_elem_of_cons. by split. }
  split; [|split].
  - change (":"%char :: body ++ " "%char :: rest)
      with ((":"%char :: body) ++ " "%char :: rest).
    change (str " ") with [" "%char]. rewrite Index_byte_app by done.
    unfold len. simpl. lia.
  - pose proof (slice_range_mid [":"%char] body (" "%char :: rest)) as Hs.
    change (len [":"%char]) with 1 in Hs.
    by rewrite (Z.add_comm 1) in Hs.
  - pose proof (slice_range_mid (":"%char :: body ++ [" "%char]) rest [])
      as Hs.
    rewrite app_nil_r in Hs.
    replace (":"%char :: body ++ " "%char :: rest)
      with ((":"%char :: body ++ [" "%char]) ++ rest)
      by (by rewrite <- app_comm_cons, <- app_assoc).
    replace (len body + 1 + 1) with (len (":"%char :: body ++ [" "%char])).
    + rewrite len_app. exact Hs.
    + unfold len. simpl. rewrite length_app. simpl. lia.
Qed.

(** A prefix whose first ['!'] is followed by no ['@'] makes the first
    revision panic: it slices the prefix from behind the ['!'] up to the
    index of the first ['@'], which is [-1] or lies before the ['!']. *)
Theorem Legacy_bang_without_at_panics (a b rest : gostring) :
  (" "%char ∉ a ++ b) → ("!"%char ∉ a) → ("@"%char ∉ b) →
  Legacy.ParseMessage (str ":" ++ a ++ str "!" ++ b ++ str " " ++ rest)
  = None.
Proof.
  intros Hsp Hn Hat.
  assert (Legacy.parse_head
            (str ":" ++ a ++ str "!" ++ b ++ str " " ++ rest) = None) as Hh.
  { apply not_elem_of_app in Hsp as [Ha Hb].
    assert (" "%char ∉ a ++ "!"%char :: b) as Hbody.
    { rewrite elem_of_app, elem_of_cons. intros [?|[?|?]]; done. }
    destruct (Legacy_head_split (a ++ "!"%char :: b) rest Hbody)
      as (Hi & Hp & Hr).
    replace (str ":" ++ a ++ str "!" ++ b ++ str " " ++ rest)
      with (":"%char :: (a ++ "!"%char :: b) ++ " "%char :: rest)
      by (cbn [list_ascii_of_string app]; by rewrite <- app_assoc).
    unfold Legacy.parse_head.
    change (byte_at (":"%char :: ?s) 0) with (Some ":"%char).
    cbn [mbind option_bind]. rewrite Ascii.eqb_refl. rewrite Hi.
    pose proof (len_nonneg (a ++ "!"%char :: b)).
    destruct (Z.gtb_spec (len (a ++ "!"%char :: b) + 1) (-1)) as [_|?];
      [|lia].
    rewrite Hp, Hr. cbn [mbind option_bind].
    change (str "!") with ["!"%char]. rewrite Index_byte_app by done.
    pose proof (len_nonneg a).
    destruct (Z.gtb_spec (len a) (-1)) as [_|?]; [|lia].
    rewrite slice_range_backwards; [done|].
    by apply Index_before_bang. }
  unfold Legacy.ParseMessage. by rewrite Hh.
Qed.

Lemma Legacy_bang_without_at_panics_witness :
  Legacy.ParseMessage
    (str ":" ++ str "nick" ++ str "!" ++ str "user" ++ str " " ++ str "PING")
  = None.
Proof.
  apply (Legacy_bang_without_at_panics (str "nick") (str "user") (str "PING")).
  - cbn [list_ascii_of_string app]. unfold not.
    repeat rewrite ?elem_of_cons, ?elem_of_nil. intuition discriminate.
  - cbn [list_ascii_of_string]. unfold not.
    repeat rewrite ?elem_of_cons, ?elem_of_nil. intuition discriminate.
  - cbn [list_ascii_of_string]. unfold not.
    repeat rewrite ?elem_of_cons, ?elem_of_nil. intuition discriminate.
Defined.

(** The prefix block of the first revision on [":n!u@h rest"]: the
    prefix is the whole of [n!u@h], the user is [u], the text between
    the first ['!'] and the first ['@'], and [rest] is left to parse. *)
Theorem Legacy_user_of_prefix (n u h rest : gostring) :
  (" "%char ∉ n ++ u ++ h) → ("!"%char ∉ n) → ("@"%char ∉ n ++ u) →
  Legacy.parse_head
    (str ":" ++ n ++ str "!" ++ u ++ str "@" ++ h ++ str " " ++ rest)
  = Some (n ++ str "!" ++ u ++ str "@" ++ h, u, rest).
Proof.
  intros Hsp Hn Hat.
  apply not_elem_of_app in Hsp as [Hsn Hsp].
  apply not_elem_of_app in Hsp as [Hsu Hsh].
  apply not_elem_of_app in Hat as [Han Hau].
  set (body := n ++ str "!" ++ u ++ str "@" ++ h).
  assert (" "%char ∉ body) as Hbody.
  { unfold body. cbn [list_ascii_of_string app].
    rewrite !elem_of_app, !elem_of_cons, !elem_of_app, !elem_of_cons.
    intros [?|[?|[?|[?|?]]]]; done. }
  destruct (Legacy_head_split body rest Hbody) as (Hi & Hp & Hr).
  replace (str ":" ++ n ++ str "!" ++ u ++ str "@" ++ h ++ str " " ++ rest)
    with (":"%char :: body ++ " "%char :: rest)
    by (unfold body; cbn [list_ascii_of_string app];
        repeat (rewrite <- app_assoc; cbn [app]); done).
  unfold Legacy.parse_head.
  change (byte_at (":"%char :: ?s) 0) with (Some ":"%char).
  cbn [mbind option_bind]. rewrite Ascii.eqb_refl, Hi.
  pose proof (len_nonneg body).
  destruct (Z.gtb_spec (len body + 1) (-1)) as [_|?]; [|lia].
  rewrite Hp, Hr. cbn [mbind option_bind].
  assert (Index body (str "!") = len n) as ->.
  { unfold body. cbn [list_ascii_of_string app].
    by rewrite (Index_byte_app "!"%char n). }
  assert (Index body (str "@") = len (n ++ str "!") + len u) as ->.
  { unfold body. cbn [list_ascii_of_string app].
    replace (n ++ "!"%char :: u ++ "@"%char :: h)
      with (((n ++ ["!"%char]) ++ u) ++ "@"%char :: h)
      by (by rewrite <- !app_assoc).
    rewrite Index_byte_app; [apply len_app|].
    rewrite !elem_of_app, elem_of_cons, elem_of_nil.
    intros [[?|[?|?]]|?]; done. }
  pose proof (len_nonneg n).
  destruct (Z.gtb_spec (len n) (-1)) as [_|?]; [|lia].
  replace (len n + 1) with (len (n ++ str "!"))
    by (rewrite len_app; reflexivity).
  unfold body.
  replace (n ++ str "!" ++ u ++ str "@" ++ h)
    with ((n ++ str "!") ++ u ++ (str "@" ++ h)) at 1
    by (by rewrite <- !app_assoc).
  by rewrite slice_range_mid.
Qed.

Lemma Legacy_user_of_prefix_witness :
  Legacy.parse_head
    (str ":" ++ str "nick" ++ str "!" ++ str "user" ++ str "@"
     ++ str "host" ++ str " " ++ str "PING")
  = Some (str "nick" ++ str "!" ++ str "user" ++ str "@" ++ str "host",
          str "user", str "PING").
Proof.
  apply (Legacy_user_of_prefix (str "nick") (str "user") (str "host")
           (str "PING")).
  - cbn [list_ascii_of_string app]. unfold not.
    repeat rewrite ?elem_of_cons, ?elem_of_nil. intuition discriminate.
  - cbn [list_ascii_of_string]. unfold not.
    repeat rewrite ?elem_of_cons, ?elem_of_nil. intuition discriminate.
  - cbn [list_ascii_of_string app]. unfold not.
    repeat rewrite ?elem_of_cons, ?elem_of_nil. intuition discriminate.
Defined.
